(** * CTPL (STL flavour): the thread pool of [ctpl_stl.h]

    A shallow embedding of [ctpl::detail::Queue] and [ctpl::thread_pool]
    and the properties of the queue, of the worker loop, and of the
    controller operations [resize], [stop], [pop] and the destructor.

    Conventions of the embedding.
    - [int] is [Z]; [static_cast<int>] of a container size is [to_int].
    - A heap object is named by its address, a [nat]: a task
      ([std::function<void(int id)> *], address [0] is [nullptr]), a stop
      flag ([std::atomic<bool>] behind a [shared_ptr]) and a thread
      ([std::thread] behind a [unique_ptr]).
    - Controller operations return an [outcome]: a state, a fault (an
      access the C++ code leaves undefined, or an exception of the standard
      library), or [Blocked] when [join] has not returned.
    - A worker thread advances by atomic steps, one per access to shared
      state ([worker_step]). The mutexes only make these steps atomic and
      are not modelled further. A parked worker may evaluate the predicate
      of [cv.wait] at any of its steps (the standard allows spurious
      wake-ups), so [notify_one] and [notify_all] leave no trace in the
      state. Where a result needs the wake-up to arrive, [step_cv] and
      [stop_cv] keep track of the threads blocked in [wait] and move them
      only after a [notify_all].
    - The controller is one thread ([resize] and [stop] are documented as
      not to be interleaved with each other). The workers run beside it
      under a schedule, a list of thread ids: between two operations
      ([run], [reach_step]), inside [stop] between the stores to the
      flags and [clear_queue] and while the controller waits in [join],
      and inside the constructor between the starts of its threads. *)

From Stdlib Require Import ZArith Lia.
From stdpp Require Import base option list.

Open Scope Z_scope.

(** ** Outcomes of controller operations *)

Inductive fault : Type :=
| OutOfRange (i : Z) (len : nat)   (* operator[] outside [0, size()) *)
| NullDeref                        (* dereference of an empty smart pointer *)
| NotJoinable                      (* detach of a thread that is not joinable *)
| Terminate                        (* ~thread on a joinable thread *)
| LengthError                      (* vector::resize with a negative count *)
| BadFunctionCall.                 (* call of an empty std::function *)

Inductive outcome (A : Type) : Type :=
| Ret (a : A)
| Fault (e : fault)
| Blocked.

Arguments Ret {A} a.
Arguments Fault {A} e.
Arguments Blocked {A}.

Definition bind {A B : Type} (m : outcome A) (k : A -> outcome B) : outcome B :=
  match m with
  | Ret a => k a
  | Fault e => Fault e
  | Blocked => Blocked
  end.

Notation "'let*' x := m 'in' k" := (bind m (fun x => k))
  (at level 10, x name, m at level 100, k at level 200).

(** ** [ctpl::detail::Queue<T>] *)

Module Queue.
Section Queue.
Context {T : Type}.

(** [std::queue<T> q]: the head of the list is [q.front()]. *)

(** [bool push(T const & value)]: the return value and the new queue. *)
Definition push (value : T) (q : list T) : bool * list T :=
  (true, q ++ [value]).

(** [bool pop(T & v)]: the return value, the output slot [v] after the
    call, and the new queue. *)
Definition pop (v : T) (q : list T) : bool * T * list T :=
  match q with
  | [] => (false, v, q)
  | x :: q' => (true, x, q')
  end.

(** [bool empty()] *)
Definition empty (q : list T) : bool :=
  match q with
  | [] => true
  | _ :: _ => false
  end.

(** [n] successive calls of [push], one per element of [ps]. *)
Definition push_all (ps : list T) (q : list T) : list T :=
  fold_left (fun q p => snd (push p q)) ps q.

(** [n] successive calls of [pop] on the same output slot: the list of
    (return value, slot after the call), the slot and the queue at the end. *)
Fixpoint pop_n (n : nat) (v : T) (q : list T) : list (bool * T) * T * list T :=
  match n with
  | O => ([], v, q)
  | S n' =>
      let '(b, v', q') := pop v q in
      let '(rs, v'', q'') := pop_n n' v' q' in
      ((b, v') :: rs, v'', q'')
  end.

End Queue.
End Queue.

(** ** [int] and [std::vector] *)

Definition INT_MAX : Z := 2147483647.

(** [static_cast<int>(z)] for a 32-bit [int], wrapping. *)
Definition to_int (z : Z) : Z := (z + 2 ^ 31) mod 2 ^ 32 - 2 ^ 31.

(** [v[i]] with an [int] index: undefined outside the vector. *)
Definition vec_at {A : Type} (v : list A) (i : Z) : outcome A :=
  if (0 <=? i) && (i <? Z.of_nat (length v)) then
    match v !! Z.to_nat i with
    | Some a => Ret a
    | None => Fault (OutOfRange i (length v))
    end
  else Fault (OutOfRange i (length v)).

(** [v[i] = a] *)
Definition vec_set {A : Type} (v : list A) (i : Z) (a : A) : outcome (list A) :=
  if (0 <=? i) && (i <? Z.of_nat (length v)) then Ret (<[Z.to_nat i := a]> v)
  else Fault (OutOfRange i (length v)).

(** [v.resize(n)] on a vector of smart pointers: the kept prefix, then
    empty pointers. A negative [int] converts to a huge [size_t]. *)
Definition vec_resize {A : Type} (n : Z) (v : list (option A)) : outcome (list (option A)) :=
  if n <? 0 then Fault LengthError
  else Ret (take (Z.to_nat n) v ++ replicate (Z.to_nat n - length v) None).

(** [for (int i = lo; i < hi; ++i) body(i)] *)
Fixpoint loop_up {S : Type} (k : nat) (i : Z) (body : Z -> S -> outcome S) (s : S)
  : outcome S :=
  match k with
  | O => Ret s
  | Datatypes.S k' => let* s' := body i s in loop_up k' (i + 1) body s'
  end.

Definition for_up {S : Type} (lo hi : Z) (body : Z -> S -> outcome S) (s : S)
  : outcome S :=
  loop_up (Z.to_nat (hi - lo)) lo body s.

(** [for (int i = hi; i >= lo; --i) body(i)] *)
Fixpoint loop_down {S : Type} (k : nat) (i : Z) (body : Z -> S -> outcome S) (s : S)
  : outcome S :=
  match k with
  | O => Ret s
  | Datatypes.S k' => let* s' := body i s in loop_down k' (i - 1) body s'
  end.

Definition for_down {S : Type} (hi lo : Z) (body : Z -> S -> outcome S) (s : S)
  : outcome S :=
  loop_down (Z.to_nat (hi - lo + 1)) hi body s.

(** ** The pool and its workers *)

Abbreviation task := nat (only parsing).   (* std::function<void(int id)> * *)
Abbreviation loc := nat (only parsing).    (* std::atomic<bool> *, owned through shared_ptr *)
Abbreviation tid := nat (only parsing).    (* std::thread *, owned through unique_ptr *)

Definition null : task := 0%nat.

(** A [std::function<void(int)>] value: [None] has no target, [Some f]
    holds a copy of the closure stored at [f]. *)
Definition function := option task.

(** Where a worker stands in the lambda of [set_thread]. *)
Inductive pc : Type :=
| PInit                     (* isPop = this->q.pop(_f), before the loops *)
| PRun (f : task)           (* isPop holds, the call of *_f with i is next *)
| PCheck (f : task)         (* if (_flag), func still owns f *)
| PPop (f : task)           (* isPop = this->q.pop(_f), then func deletes f *)
| PPark                     (* ++this->nWaiting *)
| PWait                     (* the predicate of cv.wait *)
| PWake (o : option task)   (* --this->nWaiting; if (!isPop) *)
| PRetired.                 (* the lambda has returned *)

(** A spawned thread: the captures [i] and [flag] of its lambda, its
    position, and whether its [std::thread] object is joinable. *)
Record worker : Type := Worker {
  w_i : Z;
  w_flag : loc;
  w_pc : pc;
  w_joinable : bool
}.

Record pool : Type := Pool {
  threads : list (option tid);    (* vector<unique_ptr<thread>> *)
  flags : list (option loc);      (* vector<shared_ptr<atomic<bool>>> *)
  q : list task;                  (* detail::Queue<function<void(int id)> *> *)
  isDone : bool;
  isStop : bool;
  nWaiting : Z;
  heap : list bool;               (* every atomic<bool> made by make_shared *)
  procs : list worker;            (* every thread ever started *)
  executed : list (task * Z);     (* calls f(id) made so far, oldest first *)
  freed : list task               (* tasks deleted so far, oldest first *)
}.

Definition set_threads (x : list (option tid)) (s : pool) : pool :=
  Pool x (flags s) (q s) (isDone s) (isStop s) (nWaiting s) (heap s) (procs s)
       (executed s) (freed s).
Definition set_flags (x : list (option loc)) (s : pool) : pool :=
  Pool (threads s) x (q s) (isDone s) (isStop s) (nWaiting s) (heap s) (procs s)
       (executed s) (freed s).
Definition set_q (x : list task) (s : pool) : pool :=
  Pool (threads s) (flags s) x (isDone s) (isStop s) (nWaiting s) (heap s) (procs s)
       (executed s) (freed s).
Definition set_isDone (x : bool) (s : pool) : pool :=
  Pool (threads s) (flags s) (q s) x (isStop s) (nWaiting s) (heap s) (procs s)
       (executed s) (freed s).
Definition set_isStop (x : bool) (s : pool) : pool :=
  Pool (threads s) (flags s) (q s) (isDone s) x (nWaiting s) (heap s) (procs s)
       (executed s) (freed s).
Definition set_nWaiting (x : Z) (s : pool) : pool :=
  Pool (threads s) (flags s) (q s) (isDone s) (isStop s) x (heap s) (procs s)
       (executed s) (freed s).
Definition set_heap (x : list bool) (s : pool) : pool :=
  Pool (threads s) (flags s) (q s) (isDone s) (isStop s) (nWaiting s) x (procs s)
       (executed s) (freed s).
Definition set_procs (x : list worker) (s : pool) : pool :=
  Pool (threads s) (flags s) (q s) (isDone s) (isStop s) (nWaiting s) (heap s) x
       (executed s) (freed s).
Definition set_executed (x : list (task * Z)) (s : pool) : pool :=
  Pool (threads s) (flags s) (q s) (isDone s) (isStop s) (nWaiting s) (heap s) (procs s)
       x (freed s).
Definition set_freed (x : list task) (s : pool) : pool :=
  Pool (threads s) (flags s) (q s) (isDone s) (isStop s) (nWaiting s) (heap s) (procs s)
       (executed s) x.

Definition set_pc (p : pc) (w : worker) : worker :=
  Worker (w_i w) (w_flag w) p (w_joinable w).
Definition set_joinable (b : bool) (w : worker) : worker :=
  Worker (w_i w) (w_flag w) (w_pc w) b.

(** [init()] on a fresh object: the state after [thread_pool()]. *)
Definition init : pool :=
  Pool [] [] [] false false 0 [] [] [] [].

(** [int size()] *)
Definition size (s : pool) : Z := to_int (Z.of_nat (length (threads s))).

(** [int n_idle()] *)
Definition n_idle (s : pool) : Z := nWaiting s.

(** Reading an [atomic<bool>] through a pointer that keeps it alive
    (every address handed out by [make_shared] is in [heap]). *)
Definition load (l : loc) (s : pool) : bool := default false (heap s !! l).

(** The call of [*f] with [id]: running the closure stored at [f]. Its
    body is user code; the pool only sees that the call was made. *)
Definition call (f : task) (id : Z) (s : pool) : pool :=
  set_executed (executed s ++ [(f, id)]) s.

(** [delete f] *)
Definition delete (f : task) (s : pool) : pool :=
  set_freed (freed s ++ [f]) s.

(** [f(id)] on a [std::function] value: an empty one throws
    [std::bad_function_call]. *)
Definition invoke (f : function) (id : Z) (s : pool) : outcome pool :=
  match f with
  | None => Fault BadFunctionCall
  | Some t => Ret (call t id s)
  end.

(** *** The worker lambda of [set_thread], one atomic step at a time

    [_f] is not initialised before the first [pop], and [pop] leaves it
    alone when it fails: the slot passed to [Queue.pop] is only read back
    when [pop] returns [true]. *)

Definition worker_step (w : worker) (s : pool) : worker * pool :=
  match w_pc w with
  | PInit =>
      match Queue.pop null (q s) with
      | (true, f, q') => (set_pc (PRun f) w, set_q q' s)
      | (false, _, _) => (set_pc PPark w, s)
      end
  | PRun f => (set_pc (PCheck f) w, call f (w_i w) s)
  | PCheck f =>
      if load (w_flag w) s then (set_pc PRetired w, delete f s)
      else (set_pc (PPop f) w, s)
  | PPop f =>
      match Queue.pop f (q s) with
      | (true, f', q') => (set_pc (PRun f') w, delete f (set_q q' s))
      | (false, _, _) => (set_pc PPark w, delete f s)
      end
  | PPark => (set_pc PWait w, set_nWaiting (to_int (nWaiting s + 1)) s)
  | PWait =>
      match Queue.pop null (q s) with
      | (true, f, q') => (set_pc (PWake (Some f)) w, set_q q' s)
      | (false, _, _) =>
          if isDone s || load (w_flag w) s then (set_pc (PWake None) w, s)
          else (w, s)
      end
  | PWake o =>
      let s' := set_nWaiting (to_int (nWaiting s - 1)) s in
      match o with
      | Some f => (set_pc (PRun f) w, s')
      | None => (set_pc PRetired w, s')
      end
  | PRetired => (w, s)
  end.

(** One step of thread [t]; a [t] that was never started does nothing. *)
Definition step (t : tid) (s : pool) : pool :=
  match procs s !! t with
  | Some w =>
      let '(w', s') := worker_step w s in
      set_procs (<[t := w']> (procs s')) s'
  | None => s
  end.

(** The workers run as the schedule says, oldest step first. *)
Definition run (sched : list tid) (s : pool) : pool :=
  fold_left (fun s t => step t s) sched s.

(** ** [ctpl::thread_pool]: the controller *)

(** [std::make_shared<std::atomic<bool>>(b)] *)
Definition make_shared (b : bool) (s : pool) : loc * pool :=
  (length (heap s), set_heap (heap s ++ [b]) s).

(** [*this->flags[i] = b] *)
Definition store_flag (i : Z) (b : bool) (s : pool) : outcome pool :=
  let* p := vec_at (flags s) i in
  match p with
  | None => Fault NullDeref
  | Some l => Ret (set_heap (<[l := b]> (heap s)) s)
  end.

(** [this->threads[i]->detach()] *)
Definition detach (i : Z) (s : pool) : outcome pool :=
  let* p := vec_at (threads s) i in
  match p with
  | None => Fault NullDeref
  | Some t =>
      match procs s !! t with
      | None => Fault NullDeref
      | Some w =>
          if w_joinable w
          then Ret (set_procs (<[t := set_joinable false w]> (procs s)) s)
          else Fault NotJoinable
      end
  end.

(** [if (this->threads[i]->joinable()) this->threads[i]->join()]: [join]
    returns once the thread has left its lambda. *)
Definition join (i : Z) (s : pool) : outcome pool :=
  let* p := vec_at (threads s) i in
  match p with
  | None => Fault NullDeref
  | Some t =>
      match procs s !! t with
      | None => Fault NullDeref
      | Some w =>
          if w_joinable w then
            match w_pc w with
            | PRetired => Ret (set_procs (<[t := set_joinable false w]> (procs s)) s)
            | _ => Blocked
            end
          else Ret s
      end
  end.

(** The destructor of one [unique_ptr<thread>]: [~thread] on a joinable
    thread calls [std::terminate]. *)
Definition destroy (p : option tid) (s : pool) : outcome pool :=
  match p with
  | None => Ret s
  | Some t =>
      match procs s !! t with
      | None => Fault NullDeref
      | Some w => if w_joinable w then Fault Terminate else Ret s
      end
  end.

Fixpoint destroy_all (ps : list (option tid)) (s : pool) : outcome pool :=
  match ps with
  | [] => Ret s
  | p :: ps' => let* s' := destroy p s in destroy_all ps' s'
  end.

(** [this->threads.resize(n)]: the elements from [n] on are destroyed. *)
Definition threads_resize (n : Z) (s : pool) : outcome pool :=
  let* v := vec_resize n (threads s) in
  let* s' := destroy_all (drop (Z.to_nat n) (threads s)) s in
  Ret (set_threads v s').

(** [this->flags.resize(n)]: a dropped [shared_ptr] frees nothing while
    the worker holds its copy. *)
Definition flags_resize (n : Z) (s : pool) : outcome pool :=
  let* v := vec_resize n (flags s) in
  Ret (set_flags v s).

(** [void set_thread(int i)] *)
Definition set_thread (i : Z) (s : pool) : outcome pool :=
  let* flag := vec_at (flags s) i in
  match flag with
  | None => Fault NullDeref
  | Some l =>
      let t := length (procs s) in
      let s1 := set_procs (procs s ++ [Worker i l PInit true]) s in
      let* old := vec_at (threads s1) i in
      let* v := vec_set (threads s1) i (Some t) in
      destroy old (set_threads v s1)
  end.

(** The body of the loop of [resize] that starts the new threads:
    [this->flags[i] = std::make_shared<std::atomic<bool>>(false);
     this->set_thread(i);] *)
Definition grow_body (i : Z) (s : pool) : outcome pool :=
  let '(l, s') := make_shared false s in
  let* v := vec_set (flags s') i (Some l) in
  set_thread i (set_flags v s').

(** The body of the loop of [resize] that lets the surplus threads go:
    [*this->flags[i] = true; this->threads[i]->detach();] *)
Definition shrink_body (i : Z) (s : pool) : outcome pool :=
  let* s' := store_flag i true s in detach i s'.

(** [void resize(int nThreads)] *)
Definition resize (nThreads : Z) (s : pool) : outcome pool :=
  if negb (isStop s) && negb (isDone s) then
    let oldNThreads := size s in
    if oldNThreads <=? nThreads then
      let* s1 := threads_resize nThreads s in
      let* s2 := flags_resize nThreads s1 in
      for_up oldNThreads nThreads grow_body s2
    else
      let* s1 := for_down (oldNThreads - 1) nThreads shrink_body s in
      (* cv.notify_all() under the mutex *)
      let* s2 := threads_resize nThreads s1 in
      flags_resize nThreads s2
  else Ret s.

(** [resize] with the workers running beside it: a thread runs from the
    moment [set_thread] has started it, so the threads move while the
    loops of [resize] go on. [sched i] are the steps they take once round
    [i] of the loop is done, before the next round or the return. *)
Definition resize_with (sched : Z -> list tid) (nThreads : Z) (s : pool) : outcome pool :=
  if negb (isStop s) && negb (isDone s) then
    let oldNThreads := size s in
    if oldNThreads <=? nThreads then
      let* s1 := threads_resize nThreads s in
      let* s2 := flags_resize nThreads s1 in
      for_up oldNThreads nThreads
        (fun i s => let* s' := grow_body i s in Ret (run (sched i) s')) s2
    else
      let* s1 := for_down (oldNThreads - 1) nThreads
        (fun i s => let* s' := shrink_body i s in Ret (run (sched i) s')) s in
      (* cv.notify_all() under the mutex *)
      let* s2 := threads_resize nThreads s1 in
      flags_resize nThreads s2
  else Ret s.

(** [thread_pool(int nThreads) { this->init(); this->resize(nThreads); }]:
    the state the constructor returns, the threads it starts having taken
    the steps [sched] meanwhile. *)
Definition thread_pool (sched : Z -> list tid) (nThreads : Z) : outcome pool :=
  resize_with sched nThreads init.

(** [void clear_queue()]: the loop runs once per queued task and once more. *)
Fixpoint clear_loop (fuel : nat) (_f : task) (s : pool) : pool :=
  match fuel with
  | O => s
  | S fuel' =>
      match Queue.pop _f (q s) with
      | (true, f, q') => clear_loop fuel' f (delete f (set_q q' s))
      | (false, _, _) => s
      end
  end.

Definition clear_queue (s : pool) : pool :=
  clear_loop (S (length (q s))) null s.

(** [std::function<void(int)> pop()] *)
Definition pop (s : pool) : function * pool :=
  let '(_, _f, q') := Queue.pop null (q s) in
  let s1 := set_q q' s in
  if Nat.eqb _f null then (None, s1) else (Some _f, delete _f s1).

(** [push(f, rest...)] and [push(f)], from the queue's side: [_f] is the
    address [new] returned; the future is not part of the pool. *)
Definition push (_f : task) (s : pool) : pool :=
  let '(_, q') := Queue.push _f (q s) in
  (* cv.notify_one() under the mutex *)
  set_q q' s.

(** The part of [stop] after the two modes meet: wake the workers, join
    them while they run as [sched] says, clear what is left. *)
Definition stop_join (sched : list tid) (s : pool) : outcome pool :=
  (* cv.notify_all() under the mutex *)
  let s1 := run sched s in
  let* s2 := for_up 0 (to_int (Z.of_nat (length (threads s1)))) join s1 in
  let s3 := clear_queue s2 in
  let* s4 := destroy_all (threads s3) s3 in
  Ret (set_flags [] (set_threads [] s4)).

(** [void stop(bool isWait = false)]. The workers run while the
    controller does: [pre] are their steps between the stores to the
    flags and [clear_queue], [sched] their steps from the wake-up to the
    last [join]. *)
Definition stop (pre sched : list tid) (isWait : bool) (s : pool) : outcome pool :=
  if negb isWait then
    if isStop s then Ret s
    else
      let s1 := set_isStop true s in
      let* s2 := for_up 0 (size s1) (fun i s => store_flag i true s) s1 in
      let s3 := clear_queue (run pre s2) in
      stop_join sched s3
  else
    if isDone s || isStop s then Ret s
    else
      let s1 := set_isDone true s in
      stop_join sched s1.

(** [~thread_pool()] *)
Definition thread_pool_dtor (sched : list tid) (s : pool) : outcome pool :=
  stop [] sched true s.

(** ** The condition variable, without spurious wake-ups

    [cv.wait(lock, pred)] is [while (!pred()) wait(lock);]: a thread that
    finds the predicate false blocks in [wait] and evaluates the predicate
    again only once it is notified. [worker_step] lets a parked worker
    evaluate the predicate at any of its steps; the steps below take that
    freedom away. [asleep] are the threads blocked in [wait]: a step of
    such a thread does nothing, a thread joins them when it finds its
    predicate false, and [notify_all] empties the set. The mutex makes the
    evaluation of the predicate and the blocking one step, and each
    [notify] a step of its own. *)

Definition is_wait (p : pc) : bool :=
  match p with
  | PWait => true
  | _ => false
  end.

Definition step_cv (t : tid) (c : list tid * pool) : list tid * pool :=
  let '(asleep, s) := c in
  if bool_decide (t ∈ asleep) then c
  else
    let s' := step t s in
    match procs s !! t, procs s' !! t with
    | Some w, Some w' =>
        if is_wait (w_pc w) && is_wait (w_pc w') then (t :: asleep, s')
        else (asleep, s')
    | _, _ => (asleep, s')
    end.

Definition run_cv (sched : list tid) (c : list tid * pool) : list tid * pool :=
  fold_left (fun c t => step_cv t c) sched c.

(** [this->cv.notify_all()] under the mutex *)
Definition notify_all (c : list tid * pool) : list tid * pool := ([], snd c).

(** [stop] from the wake-up on: [notify_all], the loop of [join] while
    the workers run as [sched] says, and the clearing. *)
Definition stop_join_cv (sched : list tid) (c : list tid * pool)
  : outcome (list tid * pool) :=
  let c1 := run_cv sched (notify_all c) in
  let* s2 := for_up 0 (to_int (Z.of_nat (length (threads (snd c1))))) join (snd c1) in
  let s3 := clear_queue s2 in
  let* s4 := destroy_all (threads s3) s3 in
  Ret (fst c1, set_flags [] (set_threads [] s4)).

(** [void stop(bool isWait = false)] with the threads blocked in [wait]
    kept track of: [pre] are the steps of the workers between the stores
    of [stop] and the wake-up (in the immediate mode, before
    [clear_queue]), [sched] their steps from the wake-up to the last
    [join]. *)
Definition stop_cv (pre sched : list tid) (isWait : bool) (c : list tid * pool)
  : outcome (list tid * pool) :=
  let '(asleep, s) := c in
  if negb isWait then
    if isStop s then Ret c
    else
      let s1 := set_isStop true s in
      let* s2 := for_up 0 (size s1) (fun i s => store_flag i true s) s1 in
      let '(asleep3, s3) := run_cv pre (asleep, s2) in
      stop_join_cv sched (asleep3, clear_queue s3)
  else
    if isDone s || isStop s then Ret c
    else
      let s1 := set_isDone true s in
      stop_join_cv sched (run_cv pre (asleep, s1)).

(** ** States of the pool *)

(** Running: neither stopped nor draining. *)
Definition running (s : pool) : Prop := isStop s = false /\ isDone s = false.

(** The task a worker has taken from the queue and not called yet. *)
Definition claimed (w : worker) : list task :=
  match w_pc w with
  | PRun f => [f]
  | PWake (Some f) => [f]
  | _ => []
  end.

Definition inflight (ws : list worker) : list task :=
  concat (map claimed ws).

(** What the controller keeps true between its operations: both vectors
    have one entry per managed worker; no thread and no flag is in two
    slots; a pool that has managed workers is running; slot [i] owns a
    joinable thread that runs the lambda for index [i] on the flag of slot
    [i], that flag is unset, and the thread has not left its lambda. *)
Record wf (s : pool) : Prop := {
  wf_len : length (flags s) = length (threads s);
  wf_max : Z.of_nat (length (threads s)) <= INT_MAX;
  wf_threads : NoDup (threads s);
  wf_flags : NoDup (flags s);
  wf_running : threads s <> [] -> running s;
  wf_slot : forall (i : nat) (p : option tid),
      threads s !! i = Some p ->
      exists t w,
        p = Some t /\ procs s !! t = Some w /\ w_joinable w = true /\
        w_i w = Z.of_nat i /\ flags s !! i = Some (Some (w_flag w)) /\
        heap s !! w_flag w = Some false /\
        w_pc w <> PRetired /\ w_pc w <> PWake None
}.

(** The states a program can bring the pool to: the constructor, then
    [resize] with a count that is not negative, [push], [pop], [stop] in
    either mode once it has returned, and steps of the workers. *)
Inductive reachable : pool -> Prop :=
| reach_init : reachable init
| reach_resize (n : Z) (s s' : pool) :
    reachable s -> 0 <= n <= INT_MAX -> resize n s = Ret s' -> reachable s'
| reach_push (f : task) (s : pool) :
    reachable s -> reachable (push f s)
| reach_pop (s : pool) :
    reachable s -> reachable (snd (pop s))
| reach_stop (pre sched : list tid) (isWait : bool) (s s' : pool) :
    reachable s -> stop pre sched isWait s = Ret s' -> reachable s'
| reach_step (t : tid) (s : pool) :
    reachable s -> reachable (step t s).

(** ** Closed forms of the loops of [resize] *)

(** The thread started for the [j]-th new slot. *)
Definition spawned (s : pool) (j : nat) : worker :=
  Worker (Z.of_nat (length (threads s) + j)) (length (heap s) + j)%nat PInit true.

(** [s] once [j] new slots are filled and [k] more are still empty. *)
Definition growing (j k : nat) (s : pool) : pool :=
  Pool ((threads s ++ map Some (seq (length (procs s)) j)) ++ replicate k None)
       ((flags s ++ map Some (seq (length (heap s)) j)) ++ replicate k None)
       (q s) (isDone s) (isStop s) (nWaiting s)
       (heap s ++ replicate j false)
       (procs s ++ map (spawned s) (seq 0 j))
       (executed s) (freed s).

Definition grown (k : nat) (s : pool) : pool := growing k 0 s.

(** Setting the flag of one slot; making the thread of one slot not
    joinable. *)
Definition mark1 (p : option loc) (h : list bool) : list bool :=
  match p with
  | Some l => <[l := true]> h
  | None => h
  end.

Definition unjoin1 (p : option tid) (ps : list worker) : list worker :=
  match p with
  | Some t =>
      match ps !! t with
      | Some w => <[t := set_joinable false w]> ps
      | None => ps
      end
  | None => ps
  end.

(** [s] once the slots [fs] are signalled and the threads [ts] detached
    or joined. *)
Definition released (fs : list (option loc)) (ts : list (option tid)) (s : pool) : pool :=
  set_procs (foldr unjoin1 (procs s) ts) (set_heap (foldr mark1 (heap s) fs) s).

(** [s] cut down to its first [n] slots. *)
Definition shrunk (n : nat) (s : pool) : pool :=
  set_flags (take n (flags s))
    (set_threads (take n (threads s))
       (released (drop n (flags s)) (drop n (threads s)) s)).

(** The first [m] slots hold distinct, started, joinable threads and a flag. *)
Definition slots_ok (m : nat) (s : pool) : Prop :=
  NoDup (take m (threads s)) /\
  forall j : nat, (j < m)%nat ->
    exists t w l, threads s !! j = Some (Some t) /\ procs s !! t = Some w /\
                  w_joinable w = true /\ flags s !! j = Some (Some l).

(** The tasks the pool still owes a call: claimed by a worker or queued. *)
Definition pending (s : pool) : list task := inflight (procs s) ++ q s.

(** Two workers that differ at most in where they stand. *)
Definition same_thread (w w' : worker) : Prop :=
  w_i w' = w_i w /\ w_flag w' = w_flag w /\ w_joinable w' = w_joinable w.

(** The state [stop] hands back once the threads of [s1] are joined. *)
Definition joined (s1 : pool) : pool :=
  set_flags [] (set_threads []
    (clear_queue (set_procs (foldr unjoin1 (procs s1) (reverse (threads s1))) s1))).

(** No managed worker has left its lambda or is about to. *)
Definition managed_alive (s : pool) : Prop :=
  forall (t : tid) (w : worker),
    Some t ∈ threads s -> procs s !! t = Some w ->
    w_pc w <> PRetired /\ w_pc w <> PWake None.

(** No managed worker reads its stop flag as set. *)
Definition managed_unset (s : pool) : Prop :=
  forall (t : tid) (w : worker),
    Some t ∈ threads s -> procs s !! t = Some w -> load (w_flag w) s = false.

(** ** A pool to run the operations on *)

(** Two workers, two queued tasks: [thread_pool p(2); p.push(..); p.push(..)]. *)
Definition example_pool : pool := push 7%nat (push 5%nat (grown 2 init)).

(** Twelve rounds of the two workers in turn; and worker [0] alone, far
    enough to take the first task from the queue. *)
Definition example_sched : list tid :=
  concat (replicate 12 [0%nat; 1%nat]).

Definition example_pre : list tid := [0%nat].

Definition example_stopped : pool :=
  Eval vm_compute in
    match stop example_pre example_sched false example_pool with
    | Ret s => s
    | _ => init
    end.

Definition example_drained : pool :=
  Eval vm_compute in
    match stop [] example_sched true example_pool with
    | Ret s => s
    | _ => init
    end.

(** A bound on the steps a worker still takes before it leaves its
    lambda, once the pool drains or its flag is set, with [n] tasks queued. *)
Definition steps_to_retire (p : pc) (n : nat) : nat :=
  match p with
  | PRetired => 0
  | PWake None => 1
  | PWait => 6 * n + 2
  | PPark => 6 * n + 3
  | PInit => 6 * n + 4
  | PPop _ => 6 * n + 4
  | PCheck _ => 6 * n + 5
  | PRun _ => 6 * n + 6
  | PWake (Some _) => 6 * n + 7
  end.

(** Each of the threads [ts] in turn, [n] steps in a row. *)
Definition one_by_one (n : nat) (ts : list tid) : list tid :=
  concat (map (replicate n) ts).

(** The threads the pool manages, slot by slot. *)
Definition managed (s : pool) : list tid := omap id (threads s).

(** ** The rest of the interface and its callers *)

(** [std::thread & get_thread(int i)]: [*this->threads[i]], the thread
    object named by its address. *)
Definition get_thread (i : Z) (s : pool) : outcome tid :=
  let* p := vec_at (threads s) i in
  match p with
  | None => Fault NullDeref
  | Some t => Ret t
  end.

(** The caller of [pop] in [main] of example.cpp:
    [auto f = p.pop(); if (f) { ...; f(0); }] *)
Definition pop_and_call (s : pool) : outcome pool :=
  let '(f, s1) := pop s in
  match f with
  | Some _ => invoke f 0 s1
  | None => Ret s1
  end.

(** A pool under construction: [j] slots are filled and their threads
    started, [k] slots are still empty; nothing was pushed yet, so every
    thread is on its way to [cv.wait] or in it. *)
Definition starting (j k : nat) (s : pool) : Prop :=
  threads s = map Some (seq 0 j) ++ replicate k None /\
  flags s = map Some (seq 0 j) ++ replicate k None /\
  heap s = replicate j false /\
  q s = [] /\ isDone s = false /\ isStop s = false /\
  executed s = [] /\ freed s = [] /\
  length (procs s) = j /\
  forall (t : tid) (w : worker),
    procs s !! t = Some w ->
    w_i w = Z.of_nat t /\ w_flag w = t /\ w_joinable w = true /\
    (w_pc w = PInit \/ w_pc w = PPark \/ w_pc w = PWait).

(** The steps a thread has taken from its start to [PPark] or [PWait]
    when nothing was pushed, and their sum over all threads. *)
Definition started_steps (p : pc) : nat :=
  match p with
  | PPark => 1
  | PWait => 2
  | _ => 0
  end.

Definition steps_taken (ws : list worker) : nat :=
  foldr (fun w n => started_steps (w_pc w) + n)%nat 0%nat ws.

(** A worker is counted in [nWaiting] from [++this->nWaiting] to
    [--this->nWaiting]. *)
Definition is_parked (p : pc) : bool :=
  match p with
  | PWait => true
  | PWake _ => true
  | _ => false
  end.

Definition parked (ws : list worker) : nat :=
  length (List.filter is_parked (map w_pc ws)).

(** The step at [PRun] is the one that calls a task. *)
Definition is_run (p : pc) : bool :=
  match p with
  | PRun _ => true
  | _ => false
  end.

(** Where a worker stands before each of its steps, when the pool is in
    the states [envs] at those steps (the other threads move in between). *)
Fixpoint worker_trace (envs : list pool) (w : worker) : list pc :=
  match envs with
  | [] => []
  | s :: envs' => w_pc w :: worker_trace envs' (fst (worker_step w s))
  end.

(** How many tasks a worker may still call once its stop flag is set. *)
Definition calls_left (p : pc) : nat :=
  match p with
  | PCheck _ => 0
  | PWake None => 0
  | PRetired => 0
  | _ => 1
  end.


(** The number of steps a schedule gives to thread [t]. *)
Definition turns (t : tid) (sched : list tid) : nat :=
  length (List.filter (Nat.eqb t) sched).

(** A sequence of calls on one queue, by any number of threads in turn. *)
Inductive qop (T : Type) : Type :=
| QPush (x : T)
| QPop.

Arguments QPush {T} x.
Arguments QPop {T}.

(** The elements handed back by the calls of [pop] that returned [true],
    in order, and the queue at the end. *)
Fixpoint qrun {T : Type} (ops : list (qop T)) (v : T) (q : list T) : list T * list T :=
  match ops with
  | [] => ([], q)
  | QPush x :: ops' => qrun ops' v (snd (Queue.push x q))
  | QPop :: ops' =>
      let '(b, v', q') := Queue.pop v q in
      let '(out, q'') := qrun ops' v' q' in
      (if b then v' :: out else out, q'')
  end.

(** The elements pushed by a sequence of calls, in order. *)
Fixpoint pushed {T : Type} (ops : list (qop T)) : list T :=
  match ops with
  | [] => []
  | QPush x :: ops' => x :: pushed ops'
  | QPop :: ops' => pushed ops'
  end.

(** ** The task queue *)

Section QueueFacts.
Context {T : Type}.
Implicit Types (q : list T) (v x : T).

Lemma push_all_app ps q : Queue.push_all ps q = q ++ ps.
Proof.
  revert q. induction ps as [|p ps IH]; intros q; simpl.
  - by rewrite app_nil_r.
  - rewrite IH. by rewrite <- app_assoc.
Qed.

Lemma pop_n_all v q :
  exists v', Queue.pop_n (length q) v q = (map (pair true) q, v', []).
Proof.
  revert v. induction q as [|x q IH]; intros v; simpl; [by exists v|].
  destruct (IH x) as [v' ->]. by exists v'.
Qed.

Lemma pop_inv v q b x q' :
  Queue.pop v q = (b, x, q') ->
  (b = true /\ q = x :: q') \/ (b = false /\ q = [] /\ x = v /\ q' = []).
Proof.
  destruct q as [|y q0]; simpl; intros [= <- <- <-]; [right|left]; done.
Qed.
End QueueFacts.

(** C1. The queue is first in, first out: after [P1..Pn] are pushed (on an
    empty queue, or behind what it already holds), as many calls of [pop]
    as there are elements all return [true] and hand back the elements in
    the order they were pushed, leaving the queue empty; and a [pop] that
    returns [true] removes the front element, the one it hands back, and
    nothing else. *)
Theorem queue_fifo {T : Type} (q0 ps : list T) (v : T) :
  (let q := Queue.push_all ps q0 in
   let '(rs, _, q') := Queue.pop_n (length q) v q in
   rs = map (pair true) (q0 ++ ps) /\ q' = []) /\
  (forall (q q' : list T) (x : T),
      Queue.pop v q = (true, x, q') -> q = x :: q').
Proof.
  split.
  - rewrite push_all_app; simpl. destruct (pop_n_all v (q0 ++ ps)) as [v' ->]. done.
  - intros q1 q' x H. apply pop_inv in H as [[_ ->]|[? _]]; done.
Qed.

(** C9. [pop] on an empty queue returns [false] at once, leaves the queue
    empty and the output slot as it was; [push] returns [true] on every
    queue, whatever its length, and the queue grows by the pushed element. *)
Theorem queue_pop_empty_push_always {T : Type} (v x : T) (q : list T) :
  Queue.pop v [] = (false, v, []) /\
  fst (Queue.push x q) = true /\
  snd (Queue.push x q) = q ++ [x].
Proof. done. Qed.

(** ** The worker loop *)

(** C7. A worker that has just run a task reads its own stop flag next,
    before any [pop]: the step that runs the task leaves the queue alone
    and leads to the check. If the flag is set when the check is made
    (in [s1], whatever the other threads did meanwhile), the worker leaves
    the lambda with the queue and the list of calls as they were, and from
    then on none of its steps changes anything, whatever the queue holds. *)
Theorem worker_retires_after_task (w : worker) (s s1 : pool) (f : task) :
  w_pc w = PRun f ->
  load (w_flag w) s1 = true ->
  let '(w', s') := worker_step w s in
  w_pc w' = PCheck f /\ q s' = q s /\
  let '(w'', s'') := worker_step w' s1 in
  w_pc w'' = PRetired /\ q s'' = q s1 /\ executed s'' = executed s1 /\
  forall s2 : pool, worker_step w'' s2 = (w'', s2).
Proof.
  intros Hpc Hflag. unfold worker_step at 1. rewrite Hpc.
  repeat split. unfold worker_step at 1. simpl. rewrite Hflag. done.
Qed.

Lemma worker_retires_after_task_witness :
  let w := Worker 0 0%nat (PRun 5%nat) true in
  let s := Pool [] [] [7%nat] false false 0 [false] [w] [] [] in
  let s1 := Pool [] [] [7%nat; 8%nat] false false 0 [true] [w] [(5%nat, 0)] [] in
  let '(w', s') := worker_step w s in
  w_pc w' = PCheck 5%nat /\ q s' = q s /\
  let '(w'', s'') := worker_step w' s1 in
  w_pc w'' = PRetired /\ q s'' = [7%nat; 8%nat] /\ executed s'' = [(5%nat, 0)] /\
  forall s2 : pool, worker_step w'' s2 = (w'', s2).
Proof.
  exact (worker_retires_after_task (Worker 0 0%nat (PRun 5%nat) true)
           (Pool [] [] [7%nat] false false 0 [false]
                 [Worker 0 0%nat (PRun 5%nat) true] [] [])
           (Pool [] [] [7%nat; 8%nat] false false 0 [true]
                 [Worker 0 0%nat (PRun 5%nat) true] [(5%nat, 0)] [])
           5%nat eq_refl eq_refl).
Defined.

(** ** [resize] on a pool that is shutting down *)

Lemma resize_after_shutdown_noop_aux (n : Z) (s : pool) :
  isDone s = true \/ isStop s = true -> resize n s = Ret s.
Proof.
  intros H. unfold resize.
  destruct (isStop s), (isDone s); simpl; try done. by destruct H.
Qed.

(** C6. On a pool that is draining ([isDone]) or stopped ([isStop]),
    [resize(n)] returns without a fault and hands back the very same
    state, for every [n]. *)
Theorem resize_after_shutdown_noop (n : Z) (s : pool) :
  isDone s = true \/ isStop s = true -> resize n s = Ret s.
Proof. apply resize_after_shutdown_noop_aux. Qed.

Lemma resize_after_shutdown_noop_witness :
  resize 4 (set_isDone true init) = Ret (set_isDone true init).
Proof.
  apply (resize_after_shutdown_noop 4 (set_isDone true init)).
  left. reflexivity.
Defined.

(** ** [pop] of the controller *)

Lemma set_q_same (s : pool) : set_q (q s) s = s.
Proof. by destruct s. Qed.

(** C8, as the claim states it, fails: the callable [pop] returns on an
    empty queue has no target, and calling it throws. *)
Lemma pop_empty_call_throws :
  q init = [] /\
  fst (pop init) = None /\
  invoke (fst (pop init)) 0 (snd (pop init)) = Fault BadFunctionCall.
Proof. repeat split. Qed.

(** C8, amended. On an empty queue [pop] returns at once, without a
    fault, a [std::function] with no target, and the pool is unchanged;
    calling that value is not a no-op: it throws [bad_function_call]. *)
Theorem pop_empty_returns_empty_function (s : pool) :
  q s = [] ->
  pop s = (None, s) /\
  forall (id : Z) (s' : pool), invoke (fst (pop s)) id s' = Fault BadFunctionCall.
Proof.
  intros Hq. unfold pop. rewrite Hq. simpl. rewrite <- Hq at 1.
  rewrite set_q_same. done.
Qed.

Lemma pop_empty_returns_empty_function_witness :
  pop init = (None, init) /\
  forall (id : Z) (s' : pool), invoke (fst (pop init)) id s' = Fault BadFunctionCall.
Proof. apply (pop_empty_returns_empty_function init). reflexivity. Defined.

(** ** [resize]: the loops in closed form *)

Lemma to_int_small z : 0 <= z <= INT_MAX -> to_int z = z.
Proof.
  unfold to_int, INT_MAX. intros H.
  rewrite Z.mod_small; lia.
Qed.

Lemma vec_at_lookup {A} (v : list A) (i : nat) (a : A) :
  v !! i = Some a -> vec_at v (Z.of_nat i) = Ret a.
Proof.
  intros H. unfold vec_at.
  pose proof (lookup_lt_Some _ _ _ H).
  rewrite Nat2Z.id, H.
  destruct (Z.leb_spec 0 (Z.of_nat i)); [|lia].
  destruct (Z.ltb_spec (Z.of_nat i) (Z.of_nat (length v))); [done|lia].
Qed.

Lemma vec_set_lookup {A} (v : list A) (i : nat) (a : A) :
  (i < length v)%nat -> vec_set v (Z.of_nat i) a = Ret (<[i := a]> v).
Proof.
  intros H. unfold vec_set. rewrite Nat2Z.id.
  destruct (Z.leb_spec 0 (Z.of_nat i)); [|lia].
  destruct (Z.ltb_spec (Z.of_nat i) (Z.of_nat (length v))); [done|lia].
Qed.

Lemma insert_middle {A} (a : list A) (x y : A) (b : list A) (n : nat) :
  n = length a -> <[n := x]> (a ++ y :: b) = a ++ x :: b.
Proof. intros ->. rewrite insert_app_r_alt by lia. by rewrite Nat.sub_diag. Qed.

Lemma grow_step (j k : nat) (s : pool) :
  length (flags s) = length (threads s) ->
  grow_body (Z.of_nat (length (threads s) + j)) (growing j (S k) s)
  = Ret (growing (S j) k s).
Proof.
  intros Hlen. remember (growing (S j) k s) as R eqn:HR.
  unfold grow_body, make_shared, growing. simpl.
  rewrite vec_set_lookup by (rewrite !length_app, length_map, length_seq; simpl; lia).
  simpl. unfold set_thread. simpl.
  erewrite vec_at_lookup; cycle 1.
  { rewrite insert_middle by (rewrite length_app, length_map, length_seq; lia).
    apply list_lookup_middle. rewrite length_app, length_map, length_seq; lia. }
  simpl.
  erewrite vec_at_lookup; cycle 1.
  { apply list_lookup_middle. rewrite length_app, length_map, length_seq; lia. }
  simpl.
  rewrite vec_set_lookup by (rewrite !length_app, length_map, length_seq; simpl; lia).
  simpl. unfold set_threads, set_flags, set_heap, set_procs; simpl.
  rewrite !insert_middle by (rewrite length_app, length_map, length_seq; lia).
  rewrite !length_app, !length_replicate, !length_map, !length_seq.
  subst R. unfold growing. rewrite !seq_S, !map_app, replicate_S_end. simpl.
  rewrite <- !app_assoc. simpl. reflexivity.
Qed.

Lemma grow_loop (k j : nat) (s : pool) :
  length (flags s) = length (threads s) ->
  loop_up k (Z.of_nat (length (threads s) + j)) grow_body (growing j k s)
  = Ret (grown (j + k) s).
Proof.
  intros Hlen. revert j. induction k as [|k IH]; intros j.
  - simpl. by rewrite Nat.add_0_r.
  - cbn [loop_up]. rewrite grow_step by done. cbn [bind].
    replace (Z.of_nat (length (threads s) + j) + 1)
      with (Z.of_nat (length (threads s) + S j)) by lia.
    rewrite IH. f_equal. f_equal. lia.
Qed.

Lemma destroy_all_nil_drop (n : nat) (s : pool) :
  (length (threads s) <= n)%nat -> destroy_all (drop n (threads s)) s = Ret s.
Proof. intros H. by rewrite drop_ge. Qed.

Lemma resize_grow (n : Z) (s : pool) :
  length (flags s) = length (threads s) ->
  Z.of_nat (length (threads s)) <= INT_MAX ->
  running s ->
  Z.of_nat (length (threads s)) <= n ->
  resize n s = Ret (grown (Z.to_nat n - length (threads s)) s).
Proof.
  intros Hlen Hmax [Hs Hd] Hn. unfold resize, size.
  rewrite Hs, Hd. cbn [negb andb].
  rewrite to_int_small by lia.
  destruct (Z.leb_spec (Z.of_nat (length (threads s))) n) as [_|]; [|lia].
  unfold threads_resize, flags_resize, vec_resize.
  destruct (Z.ltb_spec n 0) as [|_]; [lia|].
  cbn [bind]. rewrite destroy_all_nil_drop by lia. cbn [bind].
  unfold for_up.
  replace (Z.to_nat (n - Z.of_nat (length (threads s))))
    with (Z.to_nat n - length (threads s))%nat by lia.
  pose proof (grow_loop (Z.to_nat n - length (threads s)) 0 s Hlen) as H.
  rewrite Nat.add_0_r in H. cbn [Nat.add] in H.
  rewrite <- H. f_equal.
  unfold growing, set_flags, set_threads. cbn [threads flags q isDone isStop nWaiting heap procs executed freed].
  rewrite !take_ge by lia. rewrite Hlen. cbn [seq map replicate]. rewrite !app_nil_r.
  reflexivity.
Qed.

Lemma released_nil (s : pool) : released [] [] s = s.
Proof. by destruct s. Qed.

Lemma drop_take_S {A} (l : list A) (a b : nat) (x : A) :
  l !! b = Some x -> (a <= b)%nat ->
  drop a (take (S b) l) = drop a (take b l) ++ [x].
Proof.
  intros Hx Hab. rewrite (take_S_r _ _ _ Hx).
  rewrite drop_app_le; [done|].
  rewrite length_take. pose proof (lookup_lt_Some _ _ _ Hx). lia.
Qed.

Lemma shrink_loop (k : nat) : forall (m : nat) (s : pool),
  (k <= m)%nat -> slots_ok m s ->
  loop_down k (Z.of_nat m - 1) shrink_body s
  = Ret (released (drop (m - k) (take m (flags s)))
                  (drop (m - k) (take m (threads s))) s).
Proof.
  induction k as [|k IH]; intros m s Hk [Hnd Hslot].
  - cbn [loop_down]. rewrite Nat.sub_0_r.
    rewrite !drop_ge by (rewrite length_take; lia).
    by rewrite released_nil.
  - destruct m as [|m]; [lia|].
    destruct (Hslot m) as (t & w & l & Ht & Hw & Hj & Hl); [lia|].
    cbn [loop_down]. replace (Z.of_nat (S m) - 1) with (Z.of_nat m) by lia.
    unfold shrink_body at 1, store_flag.
    rewrite (vec_at_lookup _ _ _ Hl). cbn [bind].
    unfold detach. cbn [threads set_heap procs].
    rewrite (vec_at_lookup _ _ _ Ht). cbn [bind]. rewrite Hw, Hj.
    cbn [bind]. rewrite IH; cycle 1.
    { lia. }
    { split; cbn [threads set_procs set_heap flags procs].
      - rewrite (take_S_r _ _ _ Ht) in Hnd.
        apply NoDup_app in Hnd. tauto.
      - intros j Hjm. destruct (Hslot j) as (t' & w' & l' & Ht' & Hw' & Hj' & Hl'); [lia|].
        exists t', w', l'. repeat split; try done.
        rewrite list_lookup_insert_ne; [done|].
        intros ->.
        assert (j = m); [|lia].
        eapply (NoDup_lookup _ _ _ _ Hnd); apply lookup_take_Some; split; eauto; lia. }
    f_equal. unfold released. cbn [threads set_procs set_heap flags procs heap].
    replace (S m - S k)%nat with (m - k)%nat by lia.
    rewrite (drop_take_S _ _ _ _ Hl), (drop_take_S _ _ _ _ Ht) by lia.
    rewrite !foldr_app. cbn [foldr mark1 unjoin1]. rewrite Hw.
    reflexivity.
Qed.

Lemma mark_length (L : list (option loc)) (h : list bool) :
  length (foldr mark1 h L) = length h.
Proof.
  induction L as [|[l|] L IH]; simpl; [done| |done].
  by rewrite length_insert.
Qed.

Lemma mark_lookup_in (L : list (option loc)) (h : list bool) (l : loc) :
  Some l ∈ L -> (l < length h)%nat -> foldr mark1 h L !! l = Some true.
Proof.
  intros Hin Hl. induction L as [|p L IH]; [by apply elem_of_nil in Hin|].
  cbn [foldr]. destruct p as [l0|]; cbn [mark1].
  - destruct (decide (l0 = l)) as [->|Hne].
    + apply list_lookup_insert_eq. by rewrite mark_length.
    + rewrite list_lookup_insert_ne by done. apply IH.
      apply elem_of_cons in Hin as [[=]|]; [congruence|done].
  - apply IH. apply elem_of_cons in Hin as [[=]|]; done.
Qed.

Lemma mark_lookup_notin (L : list (option loc)) (h : list bool) (l : loc) :
  Some l ∉ L -> foldr mark1 h L !! l = h !! l.
Proof.
  intros Hin. induction L as [|p L IH]; [done|].
  apply not_elem_of_cons in Hin as [Hp Hin].
  cbn [foldr]. destruct p as [l0|]; cbn [mark1]; [|by apply IH].
  rewrite list_lookup_insert_ne by congruence. by apply IH.
Qed.

Lemma unjoin_length (L : list (option tid)) (ps : list worker) :
  length (foldr unjoin1 ps L) = length ps.
Proof.
  induction L as [|[t|] L IH]; simpl; [done| |done].
  destruct (_ !! t); [|done]. by rewrite length_insert.
Qed.

Lemma unjoin_lookup_notin (L : list (option tid)) (ps : list worker) (t : tid) :
  Some t ∉ L -> foldr unjoin1 ps L !! t = ps !! t.
Proof.
  intros Hin. induction L as [|p L IH]; [done|].
  apply not_elem_of_cons in Hin as [Hp Hin].
  cbn [foldr]. destruct p as [t0|]; cbn [unjoin1]; [|by apply IH].
  destruct (_ !! t0); [|by apply IH].
  rewrite list_lookup_insert_ne by congruence. by apply IH.
Qed.

Lemma unjoin_lookup (L : list (option tid)) (ps : list worker) (t : tid) (w : worker) :
  ps !! t = Some w ->
  exists w', foldr unjoin1 ps L !! t = Some w' /\
             set_joinable false w' = set_joinable false w /\
             (Some t ∈ L -> w_joinable w' = false).
Proof.
  intros Hw. induction L as [|p L IH].
  - exists w. split; [done|]. split; [done|]. intros H. by apply elem_of_nil in H.
  - destruct IH as (w' & Hw' & Heq & Hin).
    cbn [foldr]. destruct p as [t0|]; cbn [unjoin1].
    + destruct (decide (t0 = t)) as [->|Hne].
      * rewrite Hw'. exists (set_joinable false w'). split.
        { apply list_lookup_insert_eq. by apply lookup_lt_Some in Hw'. }
        split; [by rewrite <- Heq|done].
      * destruct (_ !! t0).
        { exists w'. rewrite list_lookup_insert_ne by done.
          split; [done|]. split; [done|].
          intros H. apply elem_of_cons in H as [[=]|]; [congruence|auto]. }
        { exists w'. split; [done|]. split; [done|].
          intros H. apply elem_of_cons in H as [[=]|]; [congruence|auto]. }
    + exists w'. split; [done|]. split; [done|].
      intros H. apply elem_of_cons in H as [[=]|]; auto.
Qed.

Lemma destroy_all_ok (L : list (option tid)) (s : pool) :
  (forall p, p ∈ L -> exists t w, p = Some t /\ procs s !! t = Some w /\ w_joinable w = false) ->
  destroy_all L s = Ret s.
Proof.
  induction L as [|p L IH]; intros H; [done|].
  cbn [destroy_all]. destruct (H p) as (t & w & -> & Hw & Hj); [by left|].
  unfold destroy. rewrite Hw, Hj. cbn [bind]. apply IH.
  intros p Hp. apply H. by right.
Qed.

Lemma wf_slots_ok (s : pool) : wf s -> slots_ok (length (threads s)) s.
Proof.
  intros [Hlen Hmax Hnd Hndf Hrun Hslot]. split.
  - by rewrite take_ge.
  - intros j Hj. destruct (lookup_lt_is_Some_2 (threads s) j Hj) as [p Hp].
    destruct (Hslot j p Hp) as (t & w & -> & Hw & Hjn & _ & Hf & _). eauto 10.
Qed.

Lemma resize_shrink (n : Z) (s : pool) :
  wf s -> running s -> 0 <= n < Z.of_nat (length (threads s)) ->
  resize n s = Ret (shrunk (Z.to_nat n) s).
Proof.
  intros Hwf [Hs Hd] Hn. pose proof (wf_slots_ok s Hwf) as Hok.
  destruct Hwf as [Hlen Hmax Hnd Hndf Hrun Hslot].
  unfold resize, size. rewrite Hs, Hd. cbn [negb andb].
  rewrite to_int_small by lia.
  destruct (Z.leb_spec (Z.of_nat (length (threads s))) n) as [|_]; [lia|].
  unfold for_down.
  pose proof (shrink_loop (length (threads s) - Z.to_nat n) (length (threads s)) s) as H.
  replace (Z.to_nat (Z.of_nat (length (threads s)) - 1 - n + 1))
    with (length (threads s) - Z.to_nat n)%nat by lia.
  rewrite H by (done || lia). clear H.
  replace (length (threads s) - (length (threads s) - Z.to_nat n))%nat
    with (Z.to_nat n) by lia.
  rewrite <- Hlen at 1. rewrite !take_ge by lia.
  cbn [bind]. unfold threads_resize, flags_resize, vec_resize.
  destruct (Z.ltb_spec n 0) as [|_]; [lia|]. cbn [bind].
  unfold released at 1 2 3. cbn [threads set_procs set_heap flags].
  rewrite destroy_all_ok; cycle 1.
  { intros p Hp. pose proof Hp as Hp'.
    apply list_elem_of_lookup in Hp' as [i Hi]. rewrite lookup_drop in Hi.
    destruct (Hslot _ _ Hi) as (t & w & -> & Hw & _).
    destruct (unjoin_lookup (drop (Z.to_nat n) (threads s)) _ _ _ Hw) as (w' & Hw' & _ & Hj).
    exists t, w'. split; [done|]. split; [|by apply Hj].
    unfold released. cbn [procs set_procs]. done. }
  cbn [bind]. f_equal. unfold shrunk.
  unfold set_flags, set_threads, released, set_procs, set_heap.
  cbn [threads flags q isDone isStop nWaiting heap procs executed freed].
  f_equal.
  - replace (Z.to_nat n - length (threads s))%nat with 0%nat by lia.
    cbn [replicate]. by rewrite app_nil_r.
  - replace (Z.to_nat n - length (flags s))%nat with 0%nat by lia.
    cbn [replicate]. by rewrite app_nil_r.
Qed.

Lemma wf_slot_lt (s : pool) (i : nat) (t : tid) :
  wf s -> threads s !! i = Some (Some t) -> (t < length (procs s))%nat.
Proof.
  intros Hwf Hi. destruct (wf_slot s Hwf i _ Hi) as (t' & w & [= <-] & Hw & _).
  by apply lookup_lt_Some in Hw.
Qed.

Lemma wf_flag_lt (s : pool) (i : nat) (l : loc) :
  wf s -> flags s !! i = Some (Some l) -> (l < length (heap s))%nat.
Proof.
  intros Hwf Hi.
  assert (i < length (threads s))%nat as Hlt.
  { rewrite <- (wf_len s Hwf). by apply lookup_lt_Some in Hi. }
  destruct (lookup_lt_is_Some_2 _ _ Hlt) as [p Hp].
  destruct (wf_slot s Hwf i _ Hp) as (t' & w & _ & _ & _ & _ & Hf & Hh & _).
  rewrite Hi in Hf. injection Hf as ->. by apply lookup_lt_Some in Hh.
Qed.

Lemma NoDup_lookup_drop {A} (L : list A) (i n : nat) (x : A) :
  NoDup L -> L !! i = Some x -> (i < n)%nat -> x ∉ drop n L.
Proof.
  intros Hnd Hi Hlt Hin. apply list_elem_of_lookup in Hin as [j Hj].
  rewrite lookup_drop in Hj.
  pose proof (NoDup_lookup _ _ _ _ Hnd Hi Hj). lia.
Qed.

Lemma grown_wf (k : nat) (s : pool) :
  wf s -> running s -> Z.of_nat (length (threads s) + k) <= INT_MAX ->
  wf (grown k s).
Proof.
  intros Hwf Hrun Hmax. pose proof Hwf as [Hlen _ Hnd Hndf _ Hslot].
  unfold grown, growing. split;
    cbn [threads flags q isDone isStop nWaiting heap procs executed freed replicate];
    rewrite ?app_nil_r.
  - rewrite !length_app, !length_map, !length_seq. lia.
  - rewrite !length_app, !length_map, !length_seq. lia.
  - apply NoDup_app. split; [done|]. split.
    + intros p Hp Hp'. apply list_elem_of_lookup in Hp as [i Hi].
      apply list_elem_of_fmap in Hp' as (t & -> & Ht).
      apply elem_of_seq in Ht.
      pose proof (wf_slot_lt s i t Hwf Hi). lia.
    + apply NoDup_fmap_2; [apply _|]. apply NoDup_seq.
  - apply NoDup_app. split; [done|]. split.
    + intros p Hp Hp'. apply list_elem_of_lookup in Hp as [i Hi].
      apply list_elem_of_fmap in Hp' as (t & -> & Ht).
      apply elem_of_seq in Ht.
      pose proof (wf_flag_lt s i t Hwf Hi). lia.
    + apply NoDup_fmap_2; [apply _|]. apply NoDup_seq.
  - done.
  - intros i p Hi.
    destruct (decide (i < length (threads s))%nat) as [Hlt|Hge].
    + rewrite lookup_app_l in Hi by done.
      destruct (Hslot i p Hi) as (t & w & -> & Hw & Hj & Hwi & Hf & Hh & Hpc).
      exists t, w. split; [done|].
      split; [by apply lookup_app_l_Some|]. split; [done|]. split; [done|].
      split; [by apply lookup_app_l_Some|]. split; [by apply lookup_app_l_Some|done].
    + rewrite lookup_app_r in Hi by lia.
      rewrite list_lookup_fmap in Hi.
      destruct (seq _ _ !! _) as [t|] eqn:Hseq; [|done].
      injection Hi as <-. apply lookup_seq in Hseq as [-> Hk].
      exists (length (procs s) + (i - length (threads s)))%nat,
             (spawned s (i - length (threads s))).
      split; [done|]. split.
      { rewrite lookup_app_r by lia.
        rewrite list_lookup_fmap.
        replace (length (procs s) + (i - length (threads s)) - length (procs s))%nat
          with (i - length (threads s))%nat by lia.
        by rewrite lookup_seq_lt. }
      split; [done|]. split; [cbn; f_equal; lia|]. cbn [spawned w_flag w_pc].
      split.
      { rewrite lookup_app_r by lia. rewrite list_lookup_fmap, Hlen.
        by rewrite lookup_seq_lt. }
      split; [|done].
      rewrite lookup_app_r by lia.
      apply lookup_replicate_2. lia.
Qed.

Lemma shrunk_wf (n : nat) (s : pool) :
  wf s -> (n <= length (threads s))%nat -> wf (shrunk n s).
Proof.
  intros Hwf Hn. pose proof Hwf as [Hlen Hmax Hnd Hndf Hrun Hslot].
  unfold shrunk, released. split;
    cbn [threads flags q isDone isStop nWaiting heap procs executed freed
         set_flags set_threads set_procs set_heap].
  - rewrite !length_take. lia.
  - rewrite length_take. lia.
  - eapply sublist_NoDup; [|apply sublist_take]; done.
  - eapply sublist_NoDup; [|apply sublist_take]; done.
  - intros H. apply Hrun. intros Hnil. by rewrite Hnil, take_nil in H.
  - intros i p Hi. apply lookup_take_Some in Hi as [Hi Hlt].
    destruct (Hslot i p Hi) as (t & w & -> & Hw & Hj & Hwi & Hf & Hh & Hpc).
    exists t, w. split; [done|]. split.
    { rewrite unjoin_lookup_notin; [done|]. by eapply NoDup_lookup_drop. }
    split; [done|]. split; [done|].
    split; [by apply lookup_take_Some|].
    split; [|done].
    rewrite mark_lookup_notin; [done|]. by eapply NoDup_lookup_drop.
Qed.

Lemma resize_cases (n : Z) (s : pool) :
  wf s -> running s -> 0 <= n ->
  (Z.of_nat (length (threads s)) <= n /\
   resize n s = Ret (grown (Z.to_nat n - length (threads s)) s)) \/
  (n < Z.of_nat (length (threads s)) /\
   resize n s = Ret (shrunk (Z.to_nat n) s)).
Proof.
  intros Hwf Hrun Hn.
  destruct (Z.le_gt_cases (Z.of_nat (length (threads s))) n).
  - left. split; [done|]. apply resize_grow; try done; apply Hwf.
  - right. split; [done|]. by apply resize_shrink.
Qed.

Lemma resize_wf (n : Z) (s s' : pool) :
  wf s -> 0 <= n <= INT_MAX -> resize n s = Ret s' -> wf s'.
Proof.
  intros Hwf Hn Hr.
  destruct (isStop s) eqn:Hs; [|destruct (isDone s) eqn:Hd].
  - unfold resize in Hr. rewrite Hs in Hr. cbn in Hr. by injection Hr as <-.
  - unfold resize in Hr. rewrite Hs, Hd in Hr. cbn in Hr. by injection Hr as <-.
  - destruct (resize_cases n s Hwf (conj Hs Hd)) as [[Hle H]|[Hlt H]]; [lia| |];
      rewrite H in Hr; injection Hr as <-.
    + apply grown_wf; [done|done|lia].
    + apply shrunk_wf; [done|lia].
Qed.

(** ** Steps of the workers keep the pool well formed *)

Lemma worker_step_frame (w w' : worker) (s s' : pool) :
  worker_step w s = (w', s') ->
  threads s' = threads s /\ flags s' = flags s /\ heap s' = heap s /\
  isDone s' = isDone s /\ isStop s' = isStop s /\ procs s' = procs s /\
  same_thread w w'.
Proof.
  unfold worker_step, Queue.pop, same_thread.
  destruct (w_pc w) as [|f|f|f| | |[f|]|]; cbn;
    repeat match goal with
           | |- context [match q s with _ => _ end] => destruct (q s)
           | |- context [if ?b then _ else _] => destruct b
           end;
    intros H; inversion H; subst; done.
Qed.

Lemma worker_step_alive (w w' : worker) (s s' : pool) :
  w_pc w <> PRetired -> w_pc w <> PWake None ->
  load (w_flag w) s = false -> isDone s = false ->
  worker_step w s = (w', s') ->
  w_pc w' <> PRetired /\ w_pc w' <> PWake None.
Proof.
  unfold worker_step, Queue.pop. intros H1 H2 Hf Hd. rewrite Hf, Hd.
  revert H1 H2.
  destruct (w_pc w) as [|f|f|f| | |[f|]|] eqn:E; cbn;
    repeat match goal with
           | |- context [match q s with _ => _ end] => destruct (q s)
           end;
    intros H1 H2 H; inversion H; subst; cbn; rewrite ?E; done.
Qed.

Lemma step_unfold (t : tid) (s : pool) (w : worker) :
  procs s !! t = Some w ->
  exists w' s1, worker_step w s = (w', s1) /\
                step t s = set_procs (<[t := w']> (procs s)) s1.
Proof.
  intros Hw. unfold step. rewrite Hw.
  destruct (worker_step w s) as [w' s1] eqn:Hws.
  exists w', s1. split; [done|].
  by destruct (worker_step_frame _ _ _ _ Hws) as (_ & _ & _ & _ & _ & -> & _).
Qed.

Lemma step_none (t : tid) (s : pool) : procs s !! t = None -> step t s = s.
Proof. intros H. unfold step. by rewrite H. Qed.

Lemma load_false (l : loc) (s : pool) : heap s !! l = Some false -> load l s = false.
Proof. intros H. unfold load. by rewrite H. Qed.

Lemma step_wf (t : tid) (s : pool) : wf s -> wf (step t s).
Proof.
  intros Hwf. destruct (procs s !! t) as [w|] eqn:Hw; [|by rewrite step_none].
  destruct (step_unfold t s w Hw) as (w' & s1 & Hws & ->).
  destruct (worker_step_frame _ _ _ _ Hws) as (Ht & Hf & Hh & Hd & Hs & Hp & Hsame).
  destruct Hwf as [Hlen Hmax Hnd Hndf Hrun Hslot].
  split; cbn [threads flags q isDone isStop nWaiting heap procs executed freed set_procs];
    rewrite ?Ht, ?Hf, ?Hh; try done.
  - intros Hne. destruct (Hrun Hne) as [H1 H2]. split; cbn; congruence.
  - intros i p Hi.
    destruct (Hslot i p Hi) as (t0 & w0 & -> & Hw0 & Hj & Hwi & Hfl & Hhp & Hpc1 & Hpc2).
    destruct (decide (t0 = t)) as [->|Hne].
    + assert (w0 = w) as -> by congruence.
      exists t, w'. split; [done|].
      split; [apply list_lookup_insert_eq; by apply lookup_lt_Some in Hw|].
      destruct Hsame as (-> & -> & ->). repeat (split; [done|]).
      destruct (Hrun ltac:(by intros Hnil; rewrite Hnil in Hi)) as [_ Hdone].
      eapply worker_step_alive; eauto using load_false.
    + exists t0, w0. split; [done|].
      split; [by rewrite list_lookup_insert_ne|done].
Qed.

Lemma run_wf (sched : list tid) (s : pool) : wf s -> wf (run sched s).
Proof.
  revert s. induction sched as [|t sched IH]; intros s Hwf; [done|].
  cbn. apply IH. by apply step_wf.
Qed.

Lemma wf_nil (s : pool) : threads s = [] -> flags s = [] -> wf s.
Proof.
  intros Ht Hf. split; rewrite ?Ht, ?Hf; try done.
  - apply NoDup_nil_2.
  - apply NoDup_nil_2.
Qed.

Lemma push_wf (f : task) (s : pool) : wf s -> wf (push f s).
Proof. intros [? ? ? ? ? ?]. split; done. Qed.

Lemma pop_wf (s : pool) : wf s -> wf (snd (pop s)).
Proof.
  intros [? ? ? ? ? ?]. unfold pop.
  destruct (q s) as [|f q']; cbn; [split; done|].
  destruct (Nat.eqb f null); split; done.
Qed.

Lemma stop_join_nil (sched : list tid) (s s' : pool) :
  stop_join sched s = Ret s' -> threads s' = [] /\ flags s' = [].
Proof.
  unfold stop_join. destruct (for_up _ _ _ _) as [s2| |]; cbn; try done.
  destruct (destroy_all _ _) as [s4| |]; cbn; try done.
  by intros [= <-].
Qed.

Lemma stop_ret_cases (pre sched : list tid) (isWait : bool) (s s' : pool) :
  stop pre sched isWait s = Ret s' -> s' = s \/ (threads s' = [] /\ flags s' = []).
Proof.
  unfold stop. destruct isWait; cbn.
  - destruct (isDone s || isStop s); [intros [= <-]; by left|].
    intros H. right. by eapply stop_join_nil.
  - destruct (isStop s); [intros [= <-]; by left|].
    destruct (for_up _ _ _ _) as [s2| |]; cbn; try done.
    intros H. right. by eapply stop_join_nil.
Qed.

Lemma stop_wf (pre sched : list tid) (isWait : bool) (s s' : pool) :
  wf s -> stop pre sched isWait s = Ret s' -> wf s'.
Proof.
  intros Hwf H. apply stop_ret_cases in H as [->|[Ht Hf]]; [done|by apply wf_nil].
Qed.

Lemma init_wf : wf init.
Proof. by apply wf_nil. Qed.

Lemma reachable_wf (s : pool) : reachable s -> wf s.
Proof.
  induction 1; eauto using init_wf, resize_wf, push_wf, pop_wf, stop_wf, step_wf.
Qed.

(** C5. On a running pool (well formed, as every reachable pool is by
    [reachable_wf]), for every [k] from [0] to [INT_MAX], [resize(k)]
    returns, [size()] is [k] afterwards, and the stop flag of every worker
    that sat at an index [>= k] before the call reads [true]. *)
Theorem resize_size_and_signals (k : Z) (s : pool) :
  wf s -> running s -> 0 <= k <= INT_MAX ->
  exists s', resize k s = Ret s' /\ size s' = k /\
    forall (i : nat) (t : tid) (w : worker),
      k <= Z.of_nat i -> threads s !! i = Some (Some t) -> procs s !! t = Some w ->
      load (w_flag w) s' = true.
Proof.
  intros Hwf Hrun Hk.
  destruct (resize_cases k s Hwf Hrun) as [[Hle ->]|[Hlt ->]]; [lia| |].
  - eexists. split; [done|]. split.
    + unfold size, grown, growing. cbn [threads replicate]. rewrite app_nil_r.
      rewrite length_app, length_map, length_seq. rewrite to_int_small; lia.
    + intros i t w Hi Ht _. apply lookup_lt_Some in Ht. lia.
  - eexists. split; [done|]. split.
    + unfold size, shrunk. cbn [threads set_flags set_threads].
      rewrite length_take. rewrite to_int_small; lia.
    + intros i t w Hi Ht Hw.
      destruct (wf_slot s Hwf i _ Ht) as (t' & w' & [= <-] & Hw' & _ & _ & Hf & Hh & _).
      assert (w' = w) as -> by congruence.
      unfold load, shrunk, released. cbn [heap set_flags set_threads set_procs set_heap].
      rewrite mark_lookup_in; [done| |by apply lookup_lt_Some in Hh].
      apply list_elem_of_lookup. exists (i - Z.to_nat k)%nat.
      rewrite lookup_drop. rewrite <- Hf. f_equal. lia.
Qed.

Lemma loop_down_app {S : Type} (a b : nat) (i : Z) (body : Z -> S -> outcome S) (s : S) :
  loop_down (a + b) i body s
  = let* s' := loop_down a i body s in loop_down b (i - Z.of_nat a) body s'.
Proof.
  revert i s. induction a as [|a IH]; intros i s.
  - cbn. by rewrite Z.sub_0_r.
  - cbn [Nat.add loop_down]. destruct (body i s) as [s1|e|]; cbn [bind]; [|done..].
    replace (i - Z.of_nat (Datatypes.S a)) with (i - 1 - Z.of_nat a) by lia. apply IH.
Qed.

Lemma resize_negative (n : Z) (s : pool) :
  wf s -> running s -> n < 0 ->
  resize n s = Fault (OutOfRange (-1) (length (flags s))).
Proof.
  intros Hwf [Hs Hd] Hn. pose proof (wf_slots_ok s Hwf) as Hok.
  pose proof (wf_max s Hwf) as Hmax.
  unfold resize, size. rewrite Hs, Hd. cbn [negb andb].
  rewrite to_int_small by lia.
  destruct (Z.leb_spec (Z.of_nat (length (threads s))) n) as [|_]; [lia|].
  unfold for_down.
  replace (Z.to_nat (Z.of_nat (length (threads s)) - 1 - n + 1))
    with (length (threads s) + S (Z.to_nat (- n - 1)))%nat by lia.
  rewrite loop_down_app, shrink_loop by (done || lia).
  cbn [bind loop_down]. rewrite Nat.sub_diag.
  replace (Z.of_nat (length (threads s)) - 1 - Z.of_nat (length (threads s)))
    with (-1) by lia.
  reflexivity.
Qed.

(** C10. The subscripts of [resize] stay inside the vectors only for a
    count that is not negative. Every [flags[i]] and [threads[i]] of the
    model faults outside [0, size()); on a reachable pool [resize(n)] with
    [0 <= n] returns a state, so none of its subscripts is outside. For a
    negative [n] on a reachable running pool the loop that counts down
    from [oldNThreads - 1] to [n] reaches [flags[-1]]. *)
Theorem resize_index_safety :
  (forall (n : Z) (s : pool),
      reachable s -> 0 <= n <= INT_MAX -> exists s', resize n s = Ret s') /\
  (forall (n : Z) (s : pool),
      reachable s -> running s -> n < 0 ->
      resize n s = Fault (OutOfRange (-1) (length (flags s)))).
Proof.
  split.
  - intros n s Hr Hn. apply reachable_wf in Hr.
    destruct (isStop s) eqn:Hs; [|destruct (isDone s) eqn:Hd].
    + exists s. apply resize_after_shutdown_noop_aux. by right.
    + exists s. apply resize_after_shutdown_noop_aux. by left.
    + destruct (resize_cases n s Hr (conj Hs Hd)) as [[_ ->]|[_ ->]]; [lia|eauto..].
  - intros n s Hr Hrun Hn. apply resize_negative; [by apply reachable_wf|done..].
Qed.

Lemma resize_index_safety_witness :
  (exists s', resize 2 (push 5%nat init) = Ret s') /\
  resize (-1) (push 5%nat init) = Fault (OutOfRange (-1) 0).
Proof.
  split.
  - apply (proj1 resize_index_safety 2 (push 5%nat init)).
    + apply reach_push, reach_init.
    + unfold INT_MAX. lia.
  - apply (proj2 resize_index_safety (-1) (push 5%nat init)).
    + apply reach_push, reach_init.
    + split; reflexivity.
    + lia.
Defined.

Lemma resize_size_and_signals_witness :
  exists s', resize 1 (grown 3 init) = Ret s' /\ size s' = 1 /\
    forall (i : nat) (t : tid) (w : worker),
      1 <= Z.of_nat i -> threads (grown 3 init) !! i = Some (Some t) ->
      procs (grown 3 init) !! t = Some w ->
      load (w_flag w) s' = true.
Proof.
  apply (resize_size_and_signals 1 (grown 3 init)).
  - apply grown_wf; [apply init_wf|split; reflexivity|unfold INT_MAX; simpl; lia].
  - split; reflexivity.
  - unfold INT_MAX. lia.
Defined.

(** ** [clear_queue] and the loop of [stop] that sets the flags *)

Lemma clear_loop_eq (fuel : nat) (v : task) (s : pool) :
  (length (q s) < fuel)%nat ->
  clear_loop fuel v s = set_freed (freed s ++ q s) (set_q [] s).
Proof.
  revert v s. induction fuel as [|fuel IH]; intros v s Hlen; [lia|].
  cbn [clear_loop]. destruct s as [ts fs qs d st nw h ps ex fr].
  destruct qs as [|f qs]; cbn in *.
  - unfold set_freed, set_q; cbn. by rewrite app_nil_r.
  - rewrite IH by (cbn; lia). unfold set_freed, set_q, delete; cbn.
    by rewrite <- app_assoc.
Qed.

Lemma clear_queue_eq (s : pool) :
  clear_queue s = set_freed (freed s ++ q s) (set_q [] s).
Proof. unfold clear_queue. apply clear_loop_eq. lia. Qed.

Lemma clear_queue_nil (s : pool) : q s = [] -> clear_queue s = s.
Proof.
  intros Hq. rewrite clear_queue_eq. destruct s; cbn in *; subst.
  unfold set_freed, set_q; cbn. by rewrite app_nil_r.
Qed.

Lemma store_loop (k : nat) : forall (i : nat) (s : pool),
  (forall j : nat, (i <= j < i + k)%nat -> exists l, flags s !! j = Some (Some l)) ->
  loop_up k (Z.of_nat i) (fun i s => store_flag i true s) s
  = Ret (set_heap (foldr mark1 (heap s) (reverse (take k (drop i (flags s))))) s).
Proof.
  induction k as [|k IH]; intros i s Hsl.
  - cbn. by destruct s.
  - destruct (Hsl i) as [l Hl]; [lia|].
    cbn [loop_up]. unfold store_flag at 1.
    rewrite (vec_at_lookup _ _ _ Hl). cbn [bind].
    replace (Z.of_nat i + 1) with (Z.of_nat (S i)) by lia.
    rewrite IH; cycle 1.
    { intros j Hj. apply Hsl. lia. }
    f_equal. cbn [flags heap set_heap].
    rewrite (drop_S _ _ _ Hl). cbn [take]. rewrite reverse_cons, foldr_app.
    reflexivity.
Qed.

(** ** What the steps of the workers leave alone *)

Lemma step_frame (t : tid) (s : pool) :
  threads (step t s) = threads s /\ flags (step t s) = flags s /\
  heap (step t s) = heap s /\ isDone (step t s) = isDone s /\
  isStop (step t s) = isStop s /\
  forall t' w, procs s !! t' = Some w ->
    exists w', procs (step t s) !! t' = Some w' /\ same_thread w w' /\
               (w_pc w = PRetired -> w_pc w' = PRetired).
Proof.
  destruct (procs s !! t) as [w|] eqn:Hw.
  - destruct (step_unfold t s w Hw) as (w' & s1 & Hws & ->).
    destruct (worker_step_frame _ _ _ _ Hws) as (Ht & Hf & Hh & Hd & Hs & Hp & Hsame).
    cbn [threads flags heap isDone isStop procs set_procs].
    repeat (split; [done|]).
    intros t' w0 Hw0. destruct (decide (t' = t)) as [->|Hne].
    + rewrite Hw in Hw0. injection Hw0 as <-. exists w'.
      split; [apply list_lookup_insert_eq; by apply lookup_lt_Some in Hw|].
      split; [done|]. intros Hpc. unfold worker_step in Hws. rewrite Hpc in Hws.
      by injection Hws as <- _.
    + exists w0. rewrite list_lookup_insert_ne by done.
      split; [done|]. split; [by repeat split|done].
  - rewrite step_none by done. repeat (split; [done|]).
    intros t' w0 Hw0. exists w0. split; [done|]. split; [by repeat split|done].
Qed.

Lemma run_frame (sched : list tid) (s : pool) :
  threads (run sched s) = threads s /\ flags (run sched s) = flags s /\
  heap (run sched s) = heap s /\ isDone (run sched s) = isDone s /\
  isStop (run sched s) = isStop s /\
  forall t' w, procs s !! t' = Some w ->
    exists w', procs (run sched s) !! t' = Some w' /\ same_thread w w' /\
               (w_pc w = PRetired -> w_pc w' = PRetired).
Proof.
  revert s. induction sched as [|t sched IH]; intros s.
  - cbn. repeat (split; [done|]). intros t' w Hw. exists w.
    split; [done|]. split; [by repeat split|done].
  - cbn [run fold_left]. fold (run sched (step t s)).
    destruct (IH (step t s)) as (Ht & Hf & Hh & Hd & Hs & Hp).
    destruct (step_frame t s) as (Ht' & Hf' & Hh' & Hd' & Hs' & Hp').
    rewrite Ht, Hf, Hh, Hd, Hs. repeat (split; [done|]).
    intros t' w Hw. destruct (Hp' t' w Hw) as (w1 & Hw1 & (? & ? & ?) & Hr1).
    destruct (Hp t' w1 Hw1) as (w2 & Hw2 & (? & ? & ?) & Hr2).
    exists w2. split; [done|]. split; [repeat split; congruence|auto].
Qed.

(** ** Every claimed or queued task is called once *)

Lemma worker_step_tasks (w w' : worker) (s s' : pool) :
  worker_step w s = (w', s') ->
  exists l, executed s' = executed s ++ l /\
            map fst l ++ claimed w' ++ q s' = claimed w ++ q s.
Proof.
  unfold worker_step, Queue.pop, claimed.
  destruct (w_pc w) as [|f|f|f| | |[f|]|] eqn:E; cbn;
    repeat match goal with
           | |- context [match q s with _ => _ end] => destruct (q s) eqn:Eq
           | |- context [if ?b then _ else _] => destruct b
           end;
    intros H; inversion H; subst; cbn; rewrite ?E, ?Eq;
    first [ by exists []; rewrite app_nil_r | by eexists [_] ].
Qed.

Lemma inflight_insert (ps : list worker) (t : tid) (w w' : worker) :
  ps !! t = Some w ->
  exists A B, inflight ps = A ++ claimed w ++ B /\
              inflight (<[t := w']> ps) = A ++ claimed w' ++ B.
Proof.
  intros Hw. exists (inflight (take t ps)), (inflight (drop (S t) ps)).
  rewrite insert_take_drop by (by apply lookup_lt_Some in Hw).
  rewrite <- (take_drop_middle _ _ _ Hw) at 1.
  unfold inflight. rewrite !map_app, !concat_app. cbn. done.
Qed.

Lemma step_tasks (t : tid) (s : pool) :
  exists l, executed (step t s) = executed s ++ l /\
            map fst l ++ pending (step t s) ≡ₚ pending s.
Proof.
  destruct (procs s !! t) as [w|] eqn:Hw.
  - destruct (step_unfold t s w Hw) as (w' & s1 & Hws & ->).
    destruct (worker_step_tasks _ _ _ _ Hws) as (l & He & Hl).
    destruct (inflight_insert (procs s) t w w' Hw) as (A & B & HA & HB).
    exists l. split; [done|]. unfold pending.
    cbn [procs q set_procs]. rewrite HA, HB.
    transitivity (A ++ B ++ (map fst l ++ claimed w' ++ q s1)); [solve_Permutation|].
    rewrite Hl. solve_Permutation.
  - rewrite step_none by done. exists []. by rewrite app_nil_r.
Qed.

Lemma run_tasks (sched : list tid) (s : pool) :
  exists l, executed (run sched s) = executed s ++ l /\
            map fst l ++ pending (run sched s) ≡ₚ pending s.
Proof.
  revert s. induction sched as [|t sched IH]; intros s.
  - exists []. by rewrite app_nil_r.
  - cbn [run fold_left]. fold (run sched (step t s)).
    destruct (IH (step t s)) as (l2 & He2 & Hp2).
    destruct (step_tasks t s) as (l1 & He1 & Hp1).
    exists (l1 ++ l2). split; [by rewrite He2, He1, app_assoc|].
    rewrite <- Hp1, <- Hp2, map_app. solve_Permutation.
Qed.

(** ** The loop of [stop] that joins the threads *)

Lemma set_joinable_id (w : worker) :
  w_joinable w = false -> set_joinable false w = w.
Proof. destruct w; cbn; by intros ->. Qed.

Lemma unjoin1_insert (ps : list worker) (t : tid) (w : worker) :
  ps !! t = Some w -> unjoin1 (Some t) ps = <[t := set_joinable false w]> ps.
Proof. intros H. unfold unjoin1. by rewrite H. Qed.

Lemma join_loop (k : nat) : forall (i : nat) (s : pool),
  NoDup (threads s) ->
  (forall j : nat, (i <= j < i + k)%nat ->
     exists t w, threads s !! j = Some (Some t) /\ procs s !! t = Some w) ->
  loop_up k (Z.of_nat i) join s = Blocked \/
  (loop_up k (Z.of_nat i) join s
   = Ret (set_procs (foldr unjoin1 (procs s) (reverse (take k (drop i (threads s))))) s) /\
   forall (j : nat) (t : tid) (w : worker),
     (i <= j < i + k)%nat -> threads s !! j = Some (Some t) -> procs s !! t = Some w ->
     w_joinable w = true -> w_pc w = PRetired).
Proof.
  induction k as [|k IH]; intros i s Hnd Hsl.
  - right. split; [cbn; by destruct s|]. intros; lia.
  - destruct (Hsl i) as (t & w & Ht & Hw); [lia|].
    cbn [loop_up]. unfold join at 1 3.
    rewrite (vec_at_lookup _ _ _ Ht). cbn [bind]. rewrite Hw.
    replace (Z.of_nat i + 1) with (Z.of_nat (S i)) by lia.
    rewrite (drop_S _ _ _ Ht). cbn [take]. rewrite reverse_cons, foldr_app.
    cbn [foldr]. rewrite (unjoin1_insert _ _ _ Hw).
    destruct (w_joinable w) eqn:Hj.
    + destruct (w_pc w) eqn:Hpc; try (left; reflexivity).
      cbn [bind].
      destruct (IH (S i) (set_procs (<[t:=set_joinable false w]> (procs s)) s))
        as [Hb|[Hr Hall]].
      * done.
      * intros j Hj'. destruct (Hsl j) as (t' & w' & Ht' & Hw'); [lia|].
        exists t'. cbn [threads procs set_procs].
        destruct (decide (t' = t)) as [->|Hne].
        -- exists (set_joinable false w). split; [done|].
           apply list_lookup_insert_eq. by apply lookup_lt_Some in Hw.
        -- exists w'. by rewrite list_lookup_insert_ne.
      * by left.
      * right. split; [by rewrite Hr|].
        intros j t' w' Hj' Ht' Hw' Hjn.
        destruct (decide (j = i)) as [->|Hji].
        -- rewrite Ht in Ht'. injection Ht' as <-.
           rewrite Hw in Hw'. by injection Hw' as <-.
        -- apply (Hall j t' w'); [lia|done| |done].
           cbn [procs set_procs]. rewrite list_lookup_insert_ne; [done|].
           intros <-. apply Hji. by eapply NoDup_lookup.
    + cbn [bind]. rewrite (set_joinable_id _ Hj), (list_insert_id _ _ _ Hw).
      destruct (IH (S i) s) as [Hb|[Hr Hall]]; [done| |by left|].
      * intros j Hj'. apply Hsl. lia.
      * right. split; [done|].
        intros j t' w' Hj' Ht' Hw' Hjn.
        destruct (decide (j = i)) as [->|Hji].
        -- rewrite Ht in Ht'. injection Ht' as <-.
           rewrite Hw in Hw'. injection Hw' as <-. congruence.
        -- apply (Hall j t' w'); [lia|done..].
Qed.

Lemma clear_queue_fields (s : pool) :
  threads (clear_queue s) = threads s /\ flags (clear_queue s) = flags s /\
  q (clear_queue s) = [] /\ isDone (clear_queue s) = isDone s /\
  isStop (clear_queue s) = isStop s /\ heap (clear_queue s) = heap s /\
  procs (clear_queue s) = procs s /\ executed (clear_queue s) = executed s /\
  freed (clear_queue s) = freed s ++ q s /\ nWaiting (clear_queue s) = nWaiting s.
Proof. rewrite clear_queue_eq. by repeat split. Qed.

Lemma stop_join_cases (sched : list tid) (s : pool) :
  NoDup (threads s) ->
  Z.of_nat (length (threads s)) <= INT_MAX ->
  (forall (j : nat) (p : option tid), threads s !! j = Some p ->
     exists t w, p = Some t /\ procs s !! t = Some w) ->
  stop_join sched s = Blocked \/
  (stop_join sched s = Ret (joined (run sched s)) /\
   forall (t : tid) (w : worker),
     Some t ∈ threads s -> procs (run sched s) !! t = Some w ->
     w_joinable w = true -> w_pc w = PRetired).
Proof.
  intros Hnd Hmax Hsl. unfold stop_join.
  destruct (run_frame sched s) as (Ht & _ & _ & _ & _ & Hp).
  rewrite Ht, to_int_small by lia. unfold for_up.
  rewrite Z.sub_0_r, Nat2Z.id.
  destruct (join_loop (length (threads s)) 0 (run sched s)) as [Hb|[Hr Hall]].
  - by rewrite Ht.
  - rewrite Ht. intros j Hj. destruct (lookup_lt_is_Some_2 (threads s) j) as [p Hpj]; [lia|].
    destruct (Hsl j p Hpj) as (t & w & -> & Hw).
    destruct (Hp t w Hw) as (w' & Hw' & _). eauto.
  - left. change (Z.of_nat 0) with 0 in Hb. by rewrite Hb.
  - right. change (Z.of_nat 0) with 0 in Hr. rewrite Hr. cbn [bind].
    rewrite drop_0, Ht, firstn_all in *. split.
    + rewrite destroy_all_ok; [cbn [bind]; unfold joined; rewrite Ht; reflexivity|].
      destruct (clear_queue_fields
        (set_procs (foldr unjoin1 (procs (run sched s)) (reverse (threads s))) (run sched s)))
        as (-> & _ & _ & _ & _ & _ & -> & _).
      cbn [threads procs set_procs].
      intros p Hpin. pose proof Hpin as Hpin'. rewrite Ht in Hpin'.
      apply list_elem_of_lookup in Hpin' as [j Hj].
      destruct (Hsl j p Hj) as (t & w & -> & Hw).
      destruct (Hp t w Hw) as (w' & Hw' & _).
      destruct (unjoin_lookup (reverse (threads s)) _ _ _ Hw') as (w'' & Hw'' & _ & Hjn).
      exists t, w''. split; [done|]. split; [done|].
      apply Hjn. apply elem_of_reverse. by eapply list_elem_of_lookup_2.
    + intros t w Hin Hw Hj. apply list_elem_of_lookup in Hin as [j Hjl].
      apply (Hall j t w); [|done..].
      apply lookup_lt_Some in Hjl. lia.
Qed.

Lemma worker_step_freed (w w' : worker) (s s' : pool) :
  worker_step w s = (w', s') -> exists l, freed s' = freed s ++ l.
Proof.
  unfold worker_step, Queue.pop.
  destruct (w_pc w) as [|f|f|f| | |[f|]|]; cbn;
    repeat match goal with
           | |- context [match q s with _ => _ end] => destruct (q s)
           | |- context [if ?b then _ else _] => destruct b
           end;
    intros H; inversion H; subst; cbn;
    first [ by exists []; rewrite app_nil_r | by eexists [_] ].
Qed.

Lemma step_freed (t : tid) (s : pool) : exists l, freed (step t s) = freed s ++ l.
Proof.
  destruct (procs s !! t) as [w|] eqn:Hw.
  - destruct (step_unfold t s w Hw) as (w' & s1 & Hws & ->).
    by apply worker_step_freed in Hws.
  - rewrite step_none by done. exists []. by rewrite app_nil_r.
Qed.

Lemma run_freed (sched : list tid) (s : pool) :
  exists l, freed (run sched s) = freed s ++ l.
Proof.
  revert s. induction sched as [|t sched IH]; intros s.
  - exists []. by rewrite app_nil_r.
  - cbn [run fold_left]. fold (run sched (step t s)).
    destruct (IH (step t s)) as (l2 & ->). destruct (step_freed t s) as (l1 & ->).
    exists (l1 ++ l2). by rewrite app_assoc.
Qed.

Lemma step_length (t : tid) (s : pool) : length (procs (step t s)) = length (procs s).
Proof.
  destruct (procs s !! t) as [w|] eqn:Hw.
  - destruct (step_unfold t s w Hw) as (w' & s1 & Hws & ->).
    cbn. by rewrite length_insert.
  - by rewrite step_none.
Qed.

Lemma run_length (sched : list tid) (s : pool) :
  length (procs (run sched s)) = length (procs s).
Proof.
  revert s. induction sched as [|t sched IH]; intros s; [done|].
  cbn [run fold_left]. fold (run sched (step t s)). by rewrite IH, step_length.
Qed.

Lemma joined_fields (s1 : pool) :
  threads (joined s1) = [] /\ flags (joined s1) = [] /\ q (joined s1) = [] /\
  isDone (joined s1) = isDone s1 /\ isStop (joined s1) = isStop s1 /\
  heap (joined s1) = heap s1 /\ executed (joined s1) = executed s1 /\
  freed (joined s1) = freed s1 ++ q s1 /\
  procs (joined s1) = foldr unjoin1 (procs s1) (reverse (threads s1)).
Proof. unfold joined. rewrite clear_queue_eq. by repeat split. Qed.

Lemma wf_valid_slots (s : pool) :
  wf s ->
  forall (j : nat) (p : option tid), threads s !! j = Some p ->
    exists t w, p = Some t /\ procs s !! t = Some w.
Proof.
  intros Hwf j p Hp. destruct (wf_slot s Hwf j p Hp) as (t & w & -> & Hw & _). eauto.
Qed.

Lemma stop_immediate_unfold (pre sched : list tid) (s : pool) :
  wf s -> isStop s = false ->
  stop pre sched false s
  = stop_join sched
      (clear_queue
         (run pre
            (set_heap (foldr mark1 (heap s) (reverse (flags s))) (set_isStop true s)))).
Proof.
  intros Hwf Hs. unfold stop. cbn [negb]. rewrite Hs. unfold size, for_up.
  cbn [threads set_isStop]. rewrite to_int_small by (pose proof (wf_max s Hwf); lia).
  rewrite Z.sub_0_r, Nat2Z.id.
  change 0 with (Z.of_nat 0). rewrite store_loop; cycle 1.
  { intros j Hj. cbn [flags set_isStop].
    destruct (lookup_lt_is_Some_2 (threads s) j) as [p Hp]; [lia|].
    destruct (wf_slot s Hwf j p Hp) as (t & w & _ & _ & _ & _ & Hf & _). eauto. }
  cbn [bind flags set_isStop heap]. rewrite drop_0.
  rewrite <- (wf_len s Hwf), firstn_all. reflexivity.
Qed.

Lemma stop_join_ret (sched : list tid) (s s' : pool) :
  NoDup (threads s) ->
  Z.of_nat (length (threads s)) <= INT_MAX ->
  (forall (j : nat) (p : option tid), threads s !! j = Some p ->
     exists t w, p = Some t /\ procs s !! t = Some w) ->
  stop_join sched s = Ret s' ->
  s' = joined (run sched s) /\
  forall (t : tid) (w : worker),
    Some t ∈ threads s -> procs (run sched s) !! t = Some w ->
    w_joinable w = true -> w_pc w = PRetired.
Proof.
  intros Hnd Hmax Hsl Hr.
  destruct (stop_join_cases sched s Hnd Hmax Hsl) as [Hb|[Hr' Hall]]; [congruence|].
  rewrite Hr' in Hr. by injection Hr as <-.
Qed.


(** ** Draining: a managed worker leaves only when the queue is empty *)

Lemma worker_step_q_nil (w w' : worker) (s s' : pool) :
  q s = [] -> worker_step w s = (w', s') -> q s' = [].
Proof.
  unfold worker_step, Queue.pop. intros Hq. rewrite Hq.
  destruct (w_pc w) as [|f|f|f| | |[f|]|]; cbn;
    repeat match goal with
           | |- context [if ?b then _ else _] => destruct b
           end;
    intros H; inversion H; subst; done.
Qed.

Lemma worker_step_drain (w w' : worker) (s s' : pool) :
  load (w_flag w) s = false -> w_pc w <> PRetired -> w_pc w <> PWake None ->
  worker_step w s = (w', s') ->
  q s' = [] \/ (w_pc w' <> PRetired /\ w_pc w' <> PWake None).
Proof.
  unfold worker_step, Queue.pop. intros Hf H1 H2. rewrite Hf. revert H1 H2.
  destruct (w_pc w) as [|f|f|f| | |[f|]|] eqn:E; cbn;
    repeat match goal with
           | |- context [match q s with _ => _ end] => destruct (q s) eqn:Eq
           | |- context [if ?b then _ else _] => destruct b
           end;
    intros H1 H2 H; inversion H; subst; cbn; rewrite ?E, ?Eq;
    first [ by left | by right ].
Qed.

Lemma step_lookup (t t' : tid) (s : pool) :
  procs (step t s) !! t'
  = match procs s !! t' with
    | Some w => Some (if decide (t' = t) then fst (worker_step w s) else w)
    | None => None
    end.
Proof.
  destruct (procs s !! t) as [w|] eqn:Hw.
  - destruct (step_unfold t s w Hw) as (w' & s1 & Hws & ->). cbn [procs set_procs].
    destruct (decide (t' = t)) as [->|Hne].
    + rewrite Hw, Hws. apply list_lookup_insert_eq. by apply lookup_lt_Some in Hw.
    + rewrite list_lookup_insert_ne by done. by destruct (procs s !! t').
  - rewrite step_none by done. destruct (decide (t' = t)) as [->|Hne].
    + by rewrite Hw.
    + by destruct (procs s !! t').
Qed.

Lemma step_q (t : tid) (s : pool) (w : worker) :
  procs s !! t = Some w -> q (step t s) = q (snd (worker_step w s)).
Proof.
  intros Hw. destruct (step_unfold t s w Hw) as (w' & s1 & Hws & ->).
  by rewrite Hws.
Qed.

Lemma step_q_nil (t : tid) (s : pool) : q s = [] -> q (step t s) = [].
Proof.
  intros Hq. destruct (procs s !! t) as [w|] eqn:Hw; [|by rewrite step_none].
  rewrite (step_q _ _ _ Hw). destruct (worker_step w s) as [w' s1] eqn:Hws.
  by eapply worker_step_q_nil.
Qed.

Lemma run_q_nil (sched : list tid) (s : pool) : q s = [] -> q (run sched s) = [].
Proof.
  revert s. induction sched as [|t sched IH]; intros s Hq; [done|].
  cbn [run fold_left]. fold (run sched (step t s)). by apply IH, step_q_nil.
Qed.

Lemma step_unset (t : tid) (s : pool) : managed_unset s -> managed_unset (step t s).
Proof.
  intros H t0 w0' Hin Hw0'.
  destruct (step_frame t s) as (Ht & _ & Hh & _).
  rewrite Ht in Hin. rewrite step_lookup in Hw0'.
  destruct (procs s !! t0) as [w0|] eqn:Hw0; [|done]. injection Hw0' as <-.
  unfold load. rewrite Hh. fold (load (w_flag (if decide (t0 = t) then (worker_step w0 s).1 else w0)) s).
  destruct (decide (t0 = t)) as [->|Hne]; [|by eapply H].
  destruct (worker_step w0 s) as [w' s1] eqn:Hws. cbn [fst].
  destruct (worker_step_frame _ _ _ _ Hws) as (_ & _ & _ & _ & _ & _ & _ & -> & _).
  by eapply H.
Qed.

Lemma step_drain (t : tid) (s : pool) :
  managed_unset s ->
  q s = [] \/ managed_alive s ->
  q (step t s) = [] \/ managed_alive (step t s).
Proof.
  intros Hun [Hq|Hal]; [left; by apply step_q_nil|].
  destruct (procs s !! t) as [w|] eqn:Hw; [|rewrite step_none by done; by right].
  destruct (step_frame t s) as (Ht & _).
  destruct (decide (Some t ∈ threads s)) as [Hin|Hnin].
  - destruct (Hal t w Hin Hw) as [H1 H2].
    destruct (worker_step w s) as [w' s1] eqn:Hws.
    destruct (worker_step_drain _ _ _ _ (Hun t w Hin Hw) H1 H2 Hws) as [Hq|Hw'].
    + left. by rewrite (step_q _ _ _ Hw), Hws.
    + right. intros t0 w0' Hin0 Hw0'. rewrite Ht in Hin0. rewrite step_lookup in Hw0'.
      destruct (procs s !! t0) as [w0|] eqn:Hw0; [|done]. injection Hw0' as <-.
      destruct (decide (t0 = t)) as [->|Hne]; [|by eapply Hal].
      rewrite Hw in Hw0. injection Hw0 as <-. by rewrite Hws.
  - right. intros t0 w0' Hin0 Hw0'. rewrite Ht in Hin0. rewrite step_lookup in Hw0'.
    destruct (procs s !! t0) as [w0|] eqn:Hw0; [|done]. injection Hw0' as <-.
    destruct (decide (t0 = t)) as [->|Hne]; [done|by eapply Hal].
Qed.

Lemma run_drain (sched : list tid) (s : pool) :
  managed_unset s ->
  q s = [] \/ managed_alive s ->
  q (run sched s) = [] \/ managed_alive (run sched s).
Proof.
  revert s. induction sched as [|t sched IH]; intros s Hun H; [done|].
  cbn [run fold_left]. fold (run sched (step t s)).
  apply IH; [by apply step_unset|by apply step_drain].
Qed.

Lemma inflight_unjoin (L : list (option tid)) (ps : list worker) :
  inflight (foldr unjoin1 ps L) = inflight ps.
Proof.
  induction L as [|[t|] L IH]; cbn [foldr unjoin1]; [done| |done].
  destruct (_ !! t) as [w|] eqn:Hw; [|done].
  rewrite <- IH. unfold inflight. f_equal.
  change (map claimed) with (fmap (M:=list) claimed).
  rewrite list_fmap_insert. apply list_insert_id.
  rewrite list_lookup_fmap, Hw. by destruct w.
Qed.

Lemma inflight_retired (ps : list worker) :
  (forall (t : tid) (w : worker), ps !! t = Some w -> w_pc w = PRetired) ->
  inflight ps = [].
Proof.
  induction ps as [|w ps IH]; intros H; [done|].
  unfold inflight. cbn [map concat]. fold (inflight ps).
  rewrite IH; [|intros t w'; apply (H (S t))].
  unfold claimed. by rewrite (H 0%nat w).
Qed.

(** ** [stop] in the immediate mode *)

(** C2, as the claim states it, fails: a task that is queued when
    [stop(false)] is called may still be executed. On a pool of two
    workers that holds the tasks [5] and [7], worker [0] makes its first
    [pop] after the controller has set the flags and before it clears the
    queue; it reads its flag only after the call, so task [5] is called
    (with id [0]) while the controller waits in [join]. Only [7] is
    removed without being executed. *)
Lemma stop_immediate_runs_queued_task :
  isStop example_pool = false /\
  q example_pool = [5%nat; 7%nat] /\
  executed example_pool = [] /\
  stop [0%nat] [0%nat; 0%nat; 1%nat; 1%nat; 1%nat; 1%nat] false example_pool
  = Ret example_stopped /\
  q example_stopped = [] /\
  executed example_stopped = [(5%nat, 0)] /\
  freed example_stopped = [7%nat; 5%nat].
Proof. repeat split; vm_compute; reflexivity. Qed.

(** C2, amended. After [stop(false)] has returned on a well-formed pool
    that was not stopped:
    every worker that was managed reads its stop flag as set; the queue is
    empty; both vectors are empty and [size()] is [0]; [isStop] is set.
    The tasks that were claimed or queued at the call are, each once,
    either called meanwhile, or still held by a worker, or [cleared]:
    taken from the queue by [clear_queue] and deleted without a call. When
    no worker moves before [clear_queue], the cleared tasks are the whole
    queue. *)
Theorem stop_immediate_post (pre sched : list tid) (s s' : pool) :
  wf s -> isStop s = false -> stop pre sched false s = Ret s' ->
  (forall (i : nat) (t : tid) (w : worker),
      threads s !! i = Some (Some t) -> procs s !! t = Some w ->
      load (w_flag w) s' = true) /\
  q s' = [] /\
  threads s' = [] /\ flags s' = [] /\ size s' = 0 /\
  isStop s' = true /\
  exists (l : list (task * Z)) (cleared fr : list task),
    executed s' = executed s ++ l /\
    freed s' = freed s ++ fr /\ cleared ⊆+ fr /\
    map fst l ++ inflight (procs s') ++ cleared ≡ₚ inflight (procs s) ++ q s /\
    (pre = [] -> cleared = q s).
Proof.
  intros Hwf Hs Hr. rewrite stop_immediate_unfold in Hr by done.
  remember (set_heap (foldr mark1 (heap s) (reverse (flags s))) (set_isStop true s))
    as s2 eqn:Heq2.
  assert (threads s2 = threads s /\ heap s2 = foldr mark1 (heap s) (reverse (flags s)) /\
          isStop s2 = true /\ procs s2 = procs s /\ q s2 = q s /\
          executed s2 = executed s /\ freed s2 = freed s)
    as (Ht2 & Hh2 & Hs2 & Hp2 & Hq2 & He2 & Hfr2) by (by subst s2).
  clear Heq2.
  destruct (run_frame pre s2) as (Ht0 & _ & Hh0 & _ & Hs0 & Hp0).
  destruct (clear_queue_fields (run pre s2))
    as (Ht3 & _ & Hq3 & _ & Hs3 & Hh3 & Hp3 & He3 & Hfr3 & _).
  remember (clear_queue (run pre s2)) as s3 eqn:Heq3. clear Heq3.
  apply stop_join_ret in Hr as [-> _]; cycle 1.
  { rewrite Ht3, Ht0, Ht2. apply Hwf. }
  { rewrite Ht3, Ht0, Ht2. apply Hwf. }
  { rewrite Ht3, Ht0, Ht2, Hp3. intros j p Hj.
    destruct (wf_valid_slots s Hwf j p Hj) as (t & w & -> & Hw).
    rewrite <- Hp2 in Hw. destruct (Hp0 t w Hw) as (w' & Hw' & _). eauto. }
  destruct (joined_fields (run sched s3)) as (Ht & Hf & Hq & _ & Hst & Hh & He & Hfr & Hp).
  destruct (run_frame sched s3) as (_ & _ & Hh' & _ & Hs' & _).
  split; [|split; [done|split; [done|split; [done|split; [|split]]]]].
  - intros i t w Hi Hw.
    destruct (wf_slot s Hwf i _ Hi) as (t' & w' & [= <-] & Hw' & _ & _ & Hfl & Hhp & _).
    rewrite Hw in Hw'. injection Hw' as <-.
    unfold load. rewrite Hh, Hh', Hh3, Hh0, Hh2.
    rewrite mark_lookup_in; [done| |by apply lookup_lt_Some in Hhp].
    apply elem_of_reverse. by eapply list_elem_of_lookup_2.
  - unfold size. by rewrite Ht.
  - by rewrite Hst, Hs', Hs3, Hs0.
  - destruct (run_tasks pre s2) as (l0 & Hl0 & Hperm0).
    destruct (run_tasks sched s3) as (l1 & Hl1 & Hperm1).
    destruct (run_freed pre s2) as (f0 & Hf0).
    destruct (run_freed sched s3) as (f1 & Hf1).
    exists (l0 ++ l1), (q (run pre s2)), (f0 ++ q (run pre s2) ++ f1 ++ q (run sched s3)).
    split; [by rewrite He, Hl1, He3, Hl0, He2, app_assoc|].
    split; [by rewrite Hfr, Hf1, Hfr3, Hf0, Hfr2, <- !app_assoc|].
    split; [apply submseteq_inserts_l, submseteq_inserts_r; done|].
    split.
    + unfold pending in Hperm0, Hperm1.
      rewrite Hq3, Hp3, (run_q_nil sched s3 Hq3), !app_nil_r in Hperm1.
      rewrite Hp2, Hq2 in Hperm0.
      rewrite Hp, inflight_unjoin, <- Hperm0, <- Hperm1, map_app.
      solve_Permutation.
    + by intros ->.
Qed.

(** ** [stop] in the draining mode and the destructor *)

Lemma stop_drain_unfold (pre sched : list tid) (s : pool) :
  running s -> stop pre sched true s = stop_join sched (set_isDone true s).
Proof. intros [Hs Hd]. unfold stop. cbn [negb]. by rewrite Hs, Hd. Qed.

Lemma wf_managed (s : pool) (t : tid) (w : worker) :
  wf s -> Some t ∈ threads s -> procs s !! t = Some w ->
  w_joinable w = true /\ heap s !! w_flag w = Some false /\
  w_pc w <> PRetired /\ w_pc w <> PWake None.
Proof.
  intros Hwf Hin Hw. apply list_elem_of_lookup in Hin as [i Hi].
  destruct (wf_slot s Hwf i _ Hi) as (t' & w' & [= <-] & Hw' & Hj & _ & _ & Hh & Hpc).
  rewrite Hw in Hw'. injection Hw' as <-. done.
Qed.

Lemma step_retired (t : tid) (s : pool) (w : worker) :
  procs s !! t = Some w -> w_pc w = PRetired -> step t s = s.
Proof.
  intros Hw Hpc. unfold step, worker_step. rewrite Hw, Hpc.
  rewrite list_insert_id by done. by destruct s.
Qed.

Lemma run_retired (sched : list tid) (s : pool) :
  (forall (t : tid) (w : worker), procs s !! t = Some w -> w_pc w = PRetired) ->
  run sched s = s.
Proof.
  intros Hall. induction sched as [|t sched IH]; [done|].
  cbn [run fold_left]. fold (run sched (step t s)).
  destruct (procs s !! t) as [w|] eqn:Hw.
  - by rewrite (step_retired t s w Hw (Hall t w Hw)).
  - by rewrite step_none.
Qed.

Lemma drain_result (pre sched : list tid) (s s' : pool) :
  wf s -> running s -> threads s <> [] ->
  stop pre sched true s = Ret s' ->
  let s1 := run sched (set_isDone true s) in
  s' = joined s1 /\ q s1 = [] /\
  forall (t : tid) (w : worker),
    Some t ∈ threads s -> procs s1 !! t = Some w -> w_pc w = PRetired.
Proof.
  intros Hwf Hrun Hne Hr. rewrite stop_drain_unfold in Hr by done.
  apply stop_join_ret in Hr as [-> Hall];
    [|apply Hwf|apply Hwf|exact (wf_valid_slots s Hwf)].
  cbn zeta. cbn [threads set_isDone] in Hall.
  destruct (run_frame sched (set_isDone true s)) as (Ht & _ & _ & _ & _ & Hp).
  assert (forall (t : tid) (w : worker),
             Some t ∈ threads s -> procs (run sched (set_isDone true s)) !! t = Some w ->
             w_pc w = PRetired) as Hret.
  { intros t w Hin Hw. apply (Hall t w Hin Hw).
    assert (t < length (procs s))%nat as Hlt.
    { apply lookup_lt_Some in Hw. by rewrite run_length in Hw. }
    destruct (lookup_lt_is_Some_2 _ _ Hlt) as [w0 Hw0].
    destruct (wf_managed s t w0 Hwf Hin Hw0) as (Hj & _).
    destruct (Hp t w0 Hw0) as (w' & Hw' & (_ & _ & Hj') & _).
    rewrite Hw in Hw'. injection Hw' as <-. congruence. }
  split; [done|]. split; [|done].
  destruct (run_drain sched (set_isDone true s)) as [Hq|Hal]; [| |done|].
  - intros t w Hin Hw. apply load_false. by eapply (wf_managed s t w).
  - right. intros t w Hin Hw. by eapply (wf_managed s t w).
  - exfalso.
    assert (exists p, threads s !! 0%nat = Some p) as [p Hp0].
    { destruct (threads s) as [|p ts]; [done|by exists p]. }
    destruct (wf_slot s Hwf 0%nat p Hp0) as (t & w & -> & Hw & _).
    destruct (Hp t w Hw) as (w' & Hw' & _).
    assert (Some t ∈ threads s) as Hin by (by eapply list_elem_of_lookup_2).
    destruct (Hal t w') as [Hc _]; [by rewrite Ht|done|].
    apply Hc. by apply (Hret t w').
Qed.

(** C3, as the claim states it, fails: a pool without workers that holds a
    queued task is destroyed without the task ever being called; [stop]
    deletes it. *)
Lemma dtor_no_workers_discards :
  q (push 7%nat init) = [7%nat] /\
  thread_pool_dtor [] (push 7%nat init)
  = Ret (Pool [] [] [] true false 0 [] [] [] [7%nat]).
Proof. split; reflexivity. Qed.

(** C3, amended. The destructor is [stop(true)], whose result does not
    depend on [pre]. On a well-formed running pool, once it has returned
    the queue and both vectors are empty. If the pool had at least one
    managed worker, the calls made meanwhile, together with the tasks
    still held by workers an earlier [resize] detached, are exactly the
    tasks that were claimed or queued when it was called, each once; when
    no detached worker was still running, the calls made are exactly those
    tasks. If the pool had no managed worker, each of those tasks is,
    once, either called by a detached worker, or still held by one, or
    [cleared], deleted by the destructor without a call; and when no
    detached worker moves, or none is still running, no call is made and
    the whole queue is cleared. *)
Theorem dtor_is_drain_stop (sched : list tid) (s s' : pool) :
  wf s -> running s ->
  thread_pool_dtor sched s = Ret s' ->
  (forall pre, thread_pool_dtor sched s = stop pre sched true s) /\
  q s' = [] /\ threads s' = [] /\ flags s' = [] /\
  exists l : list (task * Z),
    executed s' = executed s ++ l /\
    (threads s <> [] ->
     map fst l ++ inflight (procs s') ≡ₚ inflight (procs s) ++ q s /\
     ((forall (t : tid) (w : worker),
          procs s !! t = Some w -> Some t ∈ threads s \/ w_pc w = PRetired) ->
      map fst l ≡ₚ inflight (procs s) ++ q s)) /\
    (threads s = [] ->
     exists cleared fr : list task,
       freed s' = freed s ++ fr /\ cleared ⊆+ fr /\
       map fst l ++ inflight (procs s') ++ cleared ≡ₚ inflight (procs s) ++ q s /\
       (sched = [] \/
        (forall (t : tid) (w : worker), procs s !! t = Some w -> w_pc w = PRetired) ->
        l = [] /\ cleared = q s /\ freed s' = freed s ++ q s)).
Proof.
  intros Hwf Hrun Hr. split; [done|]. unfold thread_pool_dtor in Hr.
  pose proof Hr as Hr'. rewrite stop_drain_unfold in Hr' by done.
  apply stop_join_ret in Hr' as [Heq _];
    [|apply Hwf|apply Hwf|exact (wf_valid_slots s Hwf)].
  destruct (joined_fields (run sched (set_isDone true s)))
    as (Ht & Hf & Hq' & _ & _ & _ & He & Hfr & Hp).
  rewrite <- Heq in Ht, Hf, Hq', He, Hfr, Hp.
  repeat (split; [done|]).
  destruct (run_tasks sched (set_isDone true s)) as (l & Hl & Hperm).
  exists l. split; [by rewrite He, Hl|]. split.
  - intros Hne.
    destruct (drain_result [] sched s s' Hwf Hrun Hne Hr) as (_ & Hq & Hret).
    unfold pending in Hperm. rewrite Hq, app_nil_r in Hperm.
    cbn [procs q set_isDone] in Hperm.
    rewrite Hp, inflight_unjoin. split; [done|].
    intros Hall. rewrite inflight_retired in Hperm; [by rewrite app_nil_r in Hperm|].
    intros t w Hw.
    assert (t < length (procs s))%nat as Hlt.
    { apply lookup_lt_Some in Hw. by rewrite run_length in Hw. }
    destruct (lookup_lt_is_Some_2 _ _ Hlt) as [w0 Hw0].
    destruct (Hall t w0 Hw0) as [Hin|Hpc]; [by apply (Hret t w)|].
    destruct (run_frame sched (set_isDone true s)) as (_ & _ & _ & _ & _ & Hfr').
    destruct (Hfr' t w0 Hw0) as (w' & Hw' & _ & Hk).
    rewrite Hw in Hw'. injection Hw' as <-. auto.
  - intros _.
    destruct (run_freed sched (set_isDone true s)) as (f1 & Hf1).
    exists (q (run sched (set_isDone true s))), (f1 ++ q (run sched (set_isDone true s))).
    split; [by rewrite Hfr, Hf1, <- app_assoc|].
    split; [by apply submseteq_inserts_l|].
    split.
    + unfold pending in Hperm. cbn [procs q set_isDone] in Hperm.
      rewrite Hp, inflight_unjoin. exact Hperm.
    + intros Hstill.
      assert (run sched (set_isDone true s) = set_isDone true s) as Hsame.
      { destruct Hstill as [->|Hall]; [done|]. by apply run_retired. }
      rewrite Hsame in Hl, Hfr. cbn [executed freed q set_isDone] in Hl, Hfr.
      rewrite Hsame. cbn [q set_isDone].
      split; [|done].
      apply (app_inv_head (executed s)). by rewrite app_nil_r.
Qed.

(** ** Calling [stop] again *)

Lemma step_joinable (t : tid) (s : pool) :
  map w_joinable (procs (step t s)) = map w_joinable (procs s).
Proof.
  destruct (procs s !! t) as [w|] eqn:Hw; [|by rewrite step_none].
  destruct (step_unfold t s w Hw) as (w' & s1 & Hws & ->).
  destruct (worker_step_frame _ _ _ _ Hws) as (_ & _ & _ & _ & _ & _ & _ & _ & Hj).
  cbn [procs set_procs]. change (map w_joinable) with (fmap (M:=list) w_joinable).
  rewrite list_fmap_insert. apply list_insert_id.
  by rewrite list_lookup_fmap, Hw, Hj.
Qed.

Lemma run_joinable (sched : list tid) (s : pool) :
  map w_joinable (procs (run sched s)) = map w_joinable (procs s).
Proof.
  revert s. induction sched as [|t sched IH]; intros s; [done|].
  cbn [run fold_left]. fold (run sched (step t s)). by rewrite IH, step_joinable.
Qed.

Lemma stop_immediate_empty (pre sched : list tid) (s : pool) :
  threads s = [] -> flags s = [] -> isStop s = false ->
  stop pre sched false s
  = Ret (set_flags [] (set_threads []
           (clear_queue (run sched (clear_queue (run pre (set_isStop true s))))))).
Proof.
  intros Ht Hf Hs. unfold stop. cbn [negb]. rewrite Hs.
  unfold size. cbn [threads set_isStop]. rewrite Ht. cbn [length].
  change (for_up 0 (to_int (Z.of_nat 0)) (λ (i : Z) (s0 : pool), store_flag i true s0)
            (set_isStop true s)) with (Ret (set_isStop true s)).
  cbn [bind]. unfold stop_join.
  remember (clear_queue (run pre (set_isStop true s))) as s3 eqn:Heq3.
  assert (threads (run sched s3) = []) as Ht3.
  { destruct (run_frame sched s3) as (-> & _). subst s3.
    destruct (clear_queue_fields (run pre (set_isStop true s))) as (-> & _).
    by destruct (run_frame pre (set_isStop true s)) as (-> & _). }
  rewrite Ht3.
  change (for_up 0 (to_int (Z.of_nat (length []))) join (run sched s3))
    with (Ret (run sched s3)).
  cbn [bind].
  destruct (clear_queue_fields (run sched s3)) as (-> & _).
  rewrite Ht3. reflexivity.
Qed.

Lemma stop_twice (pre1 sched1 pre2 sched2 : list tid) (isWait : bool) (s : pool) :
  wf s ->
  stop pre1 sched1 isWait s = Blocked \/
  exists s1, stop pre1 sched1 isWait s = Ret s1 /\ stop pre2 sched2 isWait s1 = Ret s1.
Proof.
  intros Hwf. destruct isWait.
  - destruct (isDone s || isStop s) eqn:Hds.
    + right. exists s. unfold stop. cbn [negb]. by rewrite Hds.
    + apply orb_false_elim in Hds as [Hd Hs].
      rewrite stop_drain_unfold by done.
      destruct (stop_join_cases sched1 (set_isDone true s)) as [Hb|[Hr _]];
        [apply Hwf|apply Hwf|exact (wf_valid_slots s Hwf)|by left|].
      right. eexists. split; [done|].
      destruct (joined_fields (run sched1 (set_isDone true s))) as (_ & _ & _ & Hd' & _).
      destruct (run_frame sched1 (set_isDone true s)) as (_ & _ & _ & Hd'' & _).
      unfold stop. cbn [negb]. by rewrite Hd', Hd''.
  - destruct (isStop s) eqn:Hs.
    + right. exists s. unfold stop. cbn [negb]. by rewrite Hs.
    + rewrite stop_immediate_unfold by done.
      remember (set_heap (foldr mark1 (heap s) (reverse (flags s))) (set_isStop true s))
        as s2 eqn:Heq2.
      assert (threads s2 = threads s /\ isStop s2 = true /\ procs s2 = procs s)
        as (Ht2 & Hs2 & Hp2) by (by subst s2).
      clear Heq2.
      destruct (run_frame pre1 s2) as (Ht0 & _ & _ & _ & Hs0 & Hp0).
      destruct (clear_queue_fields (run pre1 s2)) as (Ht3 & _ & _ & _ & Hs3 & _ & Hp3 & _).
      remember (clear_queue (run pre1 s2)) as s3 eqn:Heq3. clear Heq3.
      destruct (stop_join_cases sched1 s3) as [Hb|[Hr _]].
      * rewrite Ht3, Ht0, Ht2. apply Hwf.
      * rewrite Ht3, Ht0, Ht2. apply Hwf.
      * rewrite Ht3, Ht0, Ht2, Hp3. intros j p Hj.
        destruct (wf_valid_slots s Hwf j p Hj) as (t & w & -> & Hw).
        rewrite <- Hp2 in Hw. destruct (Hp0 t w Hw) as (w' & Hw' & _). eauto.
      * by left.
      * right. eexists. split; [done|].
        destruct (joined_fields (run sched1 s3)) as (_ & _ & _ & _ & Hs' & _).
        destruct (run_frame sched1 s3) as (_ & _ & _ & _ & Hs'' & _).
        unfold stop. cbn [negb]. by rewrite Hs', Hs'', Hs3, Hs0, Hs2.
Qed.

Lemma wf_not_running (s : pool) :
  wf s -> isDone s || isStop s = true -> threads s = [] /\ flags s = [].
Proof.
  intros Hwf H. assert (threads s = []) as Ht.
  { destruct (threads s) eqn:Hts; [done|].
    destruct (wf_running s Hwf) as [Hs Hd]; [by rewrite Hts|].
    by rewrite Hs, Hd in H. }
  split; [done|]. pose proof (wf_len s Hwf) as Hl. rewrite Ht in Hl.
  by destruct (flags s).
Qed.

Lemma set_isStop_nil (s : pool) :
  threads s = [] -> flags s = [] ->
  set_flags [] (set_threads [] (clear_queue (clear_queue (set_isStop true s))))
  = set_isStop true (clear_queue s).
Proof.
  intros Ht Hf. rewrite !clear_queue_eq. destruct s; cbn in *; subst.
  unfold set_flags, set_threads, set_freed, set_q, set_isStop; cbn.
  by rewrite app_nil_r.
Qed.

(** C4. On every well-formed pool the first [stop], in either mode, ends
    without a fault, and once it has returned a second [stop] in the same
    mode returns the very same state. [stop(false)] after a [stop(true)]
    that has returned also returns: it touches no thread (what is joinable
    stays as it is); with no worker moving meanwhile it deletes only the
    tasks queued since and sets [isStop], and after a drain of a running
    pool it changes nothing but [isStop]. *)
Theorem stop_idempotent (pre1 sched1 pre2 sched2 : list tid) (s : pool) :
  wf s ->
  (forall isWait : bool,
      stop pre1 sched1 isWait s = Blocked \/
      exists s1, stop pre1 sched1 isWait s = Ret s1 /\
                 stop pre2 sched2 isWait s1 = Ret s1) /\
  (forall s1 : pool, stop pre1 sched1 true s = Ret s1 ->
      (exists s2, stop pre2 sched2 false s1 = Ret s2 /\
                  map w_joinable (procs s2) = map w_joinable (procs s1)) /\
      stop [] [] false s1
      = Ret (if isStop s1 then s1 else set_isStop true (clear_queue s1)) /\
      (running s -> stop [] [] false s1 = Ret (set_isStop true s1))).
Proof.
  intros Hwf. split; [intros isWait; by apply stop_twice|].
  intros s1 Hr.
  assert (threads s1 = [] /\ flags s1 = [] /\ (running s -> isStop s1 = false /\ q s1 = []))
    as (Ht & Hf & Hrun).
  { destruct (isDone s || isStop s) eqn:Hds.
    - unfold stop in Hr. cbn [negb] in Hr. rewrite Hds in Hr. injection Hr as <-.
      destruct (wf_not_running s Hwf Hds) as [-> ->]. repeat (split; [done|]).
      intros [Hs Hd]. by rewrite Hs, Hd in Hds.
    - apply orb_false_elim in Hds as [Hd Hs].
      rewrite stop_drain_unfold in Hr by done.
      apply stop_join_ret in Hr as [-> _];
        [|apply Hwf|apply Hwf|exact (wf_valid_slots s Hwf)].
      destruct (joined_fields (run sched1 (set_isDone true s)))
        as (-> & -> & -> & _ & -> & _).
      destruct (run_frame sched1 (set_isDone true s)) as (_ & _ & _ & _ & -> & _).
      done. }
  destruct (isStop s1) eqn:Hs1.
  - assert (forall pre sched, stop pre sched false s1 = Ret s1) as Hst.
    { intros pre sched. unfold stop. cbn [negb]. by rewrite Hs1. }
    split; [exists s1; by rewrite Hst|]. split; [apply Hst|].
    intros Hr'. destruct (Hrun Hr') as [? _]. congruence.
  - rewrite !stop_immediate_empty by done. split; [|split].
    + eexists. split; [done|].
      destruct (clear_queue_fields (run sched2 (clear_queue (run pre2 (set_isStop true s1)))))
        as (_ & _ & _ & _ & _ & _ & Hp & _).
      cbn [procs set_flags set_threads]. rewrite Hp, run_joinable.
      destruct (clear_queue_fields (run pre2 (set_isStop true s1)))
        as (_ & _ & _ & _ & _ & _ & -> & _).
      by rewrite run_joinable.
    + cbn [run fold_left]. by rewrite set_isStop_nil.
    + intros Hr'. destruct (Hrun Hr') as [_ Hq].
      cbn [run fold_left]. rewrite set_isStop_nil by done.
      by rewrite (clear_queue_nil s1 Hq).
Qed.

(** ** [stop] returns when every worker gets its turn *)

Lemma worker_step_progress (w w' : worker) (s s' : pool) :
  isDone s = true \/ load (w_flag w) s = true ->
  worker_step w s = (w', s') ->
  (steps_to_retire (w_pc w') (length (q s')) < steps_to_retire (w_pc w) (length (q s)))%nat
  \/ w_pc w' = PRetired.
Proof.
  unfold worker_step, Queue.pop. intros Hor.
  destruct (w_pc w) as [|f|f|f| | |[f|]|] eqn:E; cbn [steps_to_retire];
    repeat match goal with
           | |- context [match q s with _ => _ end] => destruct (q s) eqn:Eq
           end;
    try (destruct (load (w_flag w) s) eqn:Hl);
    try (destruct (isDone s) eqn:Hd);
    cbn [orb];
    intros H; inversion H; subst; cbn; rewrite ?E, ?Eq; cbn;
    try (by right); try (left; lia);
    destruct Hor; congruence.
Qed.

Lemma run_app (a b : list tid) (s : pool) : run (a ++ b) s = run b (run a s).
Proof. unfold run. by rewrite fold_left_app. Qed.

Lemma solo_retires (n : nat) : forall (t : tid) (s : pool) (w : worker),
  procs s !! t = Some w ->
  isDone s = true \/ load (w_flag w) s = true ->
  (steps_to_retire (w_pc w) (length (q s)) <= n)%nat ->
  exists w', procs (run (replicate n t) s) !! t = Some w' /\ w_pc w' = PRetired.
Proof.
  induction n as [|n IH]; intros t s w Hw Hor Hm.
  - exists w. split; [done|].
    destruct (w_pc w) as [| | | | | |[|]|]; cbn in Hm; (done || lia).
  - cbn [replicate run fold_left]. fold (run (replicate n t) (step t s)).
    destruct (step_unfold t s w Hw) as (w1 & s1 & Hws & Hst).
    destruct (worker_step_frame _ _ _ _ Hws) as (_ & _ & Hh & Hd & _ & _ & _ & Hfl & _).
    assert (procs (step t s) !! t = Some w1) as Hw1.
    { rewrite Hst. cbn. apply list_lookup_insert_eq. by apply lookup_lt_Some in Hw. }
    assert (q (step t s) = q s1) as Hq1 by (by rewrite Hst).
    apply (IH t (step t s) w1 Hw1).
    + destruct (step_frame t s) as (_ & _ & Hh' & Hd' & _).
      unfold load. rewrite Hd', Hh', Hfl. exact Hor.
    + rewrite Hq1.
      destruct (worker_step_progress _ _ _ _ Hor Hws) as [Hlt|Hr]; [lia|].
      rewrite Hr. cbn. lia.
Qed.

Lemma step_q_length (t : tid) (s : pool) : (length (q (step t s)) <= length (q s))%nat.
Proof.
  destruct (procs s !! t) as [w|] eqn:Hw; [|by rewrite step_none].
  rewrite (step_q _ _ _ Hw). unfold worker_step, Queue.pop.
  destruct (w_pc w) as [|f|f|f| | |[f|]|]; cbn;
    repeat match goal with
           | |- context [match q s with _ => _ end] => destruct (q s) eqn:Eq
           | |- context [if ?b then _ else _] => destruct b
           end; cbn; rewrite ?Eq; cbn; lia.
Qed.

Lemma run_q_length (sched : list tid) (s : pool) :
  (length (q (run sched s)) <= length (q s))%nat.
Proof.
  revert s. induction sched as [|t sched IH]; intros s; [done|].
  cbn [run fold_left]. fold (run sched (step t s)).
  pose proof (IH (step t s)). pose proof (step_q_length t s). lia.
Qed.

Lemma steps_to_retire_le (p : pc) (n : nat) : (steps_to_retire p n <= 6 * n + 7)%nat.
Proof. destruct p as [| | | | | |[|]|]; cbn; lia. Qed.

Lemma one_by_one_retires (n : nat) (ts : list tid) : forall s : pool,
  (6 * length (q s) + 7 <= n)%nat ->
  (forall t, t ∈ ts ->
     exists w, procs s !! t = Some w /\ (isDone s = true \/ load (w_flag w) s = true)) ->
  forall t, t ∈ ts ->
    exists w', procs (run (one_by_one n ts) s) !! t = Some w' /\ w_pc w' = PRetired.
Proof.
  induction ts as [|t0 ts IH]; intros s Hn Hall t Hin; [by apply elem_of_nil in Hin|].
  unfold one_by_one. cbn [map concat]. rewrite run_app. fold (one_by_one n ts).
  set (s1 := run (replicate n t0) s).
  destruct (run_frame (replicate n t0) s) as (_ & _ & Hh & Hd & _ & Hp). fold s1 in Hh, Hd, Hp.
  assert (forall t', t' ∈ ts ->
            exists w, procs s1 !! t' = Some w /\
                      (isDone s1 = true \/ load (w_flag w) s1 = true)) as Hall1.
  { intros t' Hin'. destruct (Hall t') as (w & Hw & Hor); [by right|].
    destruct (Hp t' w Hw) as (w' & Hw' & (_ & Hfl & _) & _).
    exists w'. split; [done|]. unfold load. rewrite Hd, Hh, Hfl. exact Hor. }
  assert (6 * length (q s1) + 7 <= n)%nat as Hn1.
  { pose proof (run_q_length (replicate n t0) s). fold s1 in H. lia. }
  destruct (decide (t ∈ ts)) as [Hts|Hnts]; [by apply (IH s1 Hn1 Hall1)|].
  apply elem_of_cons in Hin as [->|]; [|done].
  destruct (Hall t0) as (w & Hw & Hor); [by left|].
  destruct (solo_retires n t0 s w Hw Hor) as (w1 & Hw1 & Hr1).
  { pose proof (steps_to_retire_le (w_pc w) (length (q s))). lia. }
  fold s1 in Hw1.
  destruct (run_frame (one_by_one n ts) s1) as (_ & _ & _ & _ & _ & Hp1).
  destruct (Hp1 t0 w1 Hw1) as (w2 & Hw2 & _ & Hk). eauto.
Qed.

Lemma destroy_all_not_blocked (L : list (option tid)) (s : pool) :
  destroy_all L s <> Blocked.
Proof.
  revert s. induction L as [|p L IH]; intros s; [done|].
  cbn [destroy_all]. unfold destroy.
  destruct p as [t|]; [|by cbn].
  destruct (procs s !! t) as [w|]; [|by cbn].
  destruct (w_joinable w); by cbn.
Qed.

Lemma join_loop_done (k : nat) : forall (i : nat) (s : pool),
  (forall j : nat, (i <= j < i + k)%nat ->
     exists t w, threads s !! j = Some (Some t) /\ procs s !! t = Some w /\
                 w_pc w = PRetired) ->
  loop_up k (Z.of_nat i) join s <> Blocked.
Proof.
  induction k as [|k IH]; intros i s Hsl; [done|].
  destruct (Hsl i) as (t & w & Ht & Hw & Hpc); [lia|].
  cbn [loop_up]. unfold join at 1.
  rewrite (vec_at_lookup _ _ _ Ht). cbn [bind]. rewrite Hw, Hpc.
  replace (Z.of_nat i + 1) with (Z.of_nat (S i)) by lia.
  destruct (w_joinable w); cbn [bind]; apply IH.
  - intros j Hj. destruct (Hsl j) as (t' & w' & Ht' & Hw' & Hpc'); [lia|].
    exists t'. cbn [threads procs set_procs].
    destruct (decide (t' = t)) as [->|Hne].
    + exists (set_joinable false w). split; [done|]. split; [|done].
      apply list_lookup_insert_eq. by apply lookup_lt_Some in Hw.
    + exists w'. by rewrite list_lookup_insert_ne.
  - intros j Hj. apply Hsl. lia.
Qed.

Lemma stop_join_returns (sched : list tid) (s : pool) :
  NoDup (threads s) ->
  Z.of_nat (length (threads s)) <= INT_MAX ->
  (forall (j : nat) (p : option tid), threads s !! j = Some p ->
     exists t w, p = Some t /\ procs (run sched s) !! t = Some w /\ w_pc w = PRetired) ->
  stop_join sched s = Ret (joined (run sched s)).
Proof.
  intros Hnd Hmax Hsl.
  destruct (stop_join_cases sched s Hnd Hmax) as [Hb|[Hr _]]; [|exfalso|done].
  - intros j p Hj. destruct (Hsl j p Hj) as (t & w & -> & Hw & _).
    apply lookup_lt_Some in Hw. rewrite run_length in Hw.
    destruct (lookup_lt_is_Some_2 _ _ Hw) as [w0 Hw0]. eauto.
  - unfold stop_join in Hb.
    destruct (run_frame sched s) as (Ht & _).
    destruct (for_up _ _ _ _) as [s2|e|] eqn:Hloop; cbn [bind] in Hb.
    + destruct (destroy_all _ _) as [s4|e|] eqn:Hd; cbn [bind] in Hb; try done.
      by apply destroy_all_not_blocked in Hd.
    + done.
    + revert Hloop. rewrite Ht, to_int_small by lia. unfold for_up.
      rewrite Z.sub_0_r, Nat2Z.id. change 0 with (Z.of_nat 0).
      apply join_loop_done. intros j Hj. rewrite Ht.
      destruct (lookup_lt_is_Some_2 (threads s) j) as [p Hp]; [lia|].
      destruct (Hsl j p Hp) as (t & w & -> & Hw & Hpc). eauto.
Qed.

Lemma elem_of_managed (s : pool) (t : tid) : t ∈ managed s <-> Some t ∈ threads s.
Proof.
  unfold managed. rewrite list_elem_of_omap. split.
  - intros ([t'|] & Hin & Heq); cbn in Heq; [|done]. by injection Heq as ->.
  - intros Hin. by exists (Some t).
Qed.

(** Whatever the mode, a schedule exists under which [stop] returns: each
    managed worker in turn, long enough to empty the queue and leave. *)
Lemma stop_returns (isWait : bool) (s : pool) :
  wf s -> exists sched s', stop [] sched isWait s = Ret s'.
Proof.
  intros Hwf. destruct isWait.
  - destruct (isDone s || isStop s) eqn:Hds.
    + exists [], s. unfold stop. cbn [negb]. by rewrite Hds.
    + apply orb_false_elim in Hds as [Hd Hs].
      exists (one_by_one (6 * length (q s) + 7) (managed s)). eexists.
      rewrite stop_drain_unfold by done.
      apply stop_join_returns; [apply Hwf|apply Hwf|].
      intros j p Hj. cbn [threads set_isDone] in Hj.
      destruct (wf_slot s Hwf j p Hj) as (t & w & -> & Hw & _).
      destruct (one_by_one_retires (6 * length (q s) + 7) (managed s) (set_isDone true s))
        with (t := t) as (w' & Hw' & Hpc); [done| |by eapply elem_of_managed, list_elem_of_lookup_2|eauto].
      intros t' Hin'. apply elem_of_managed, list_elem_of_lookup in Hin' as [i Hi].
      destruct (wf_slot s Hwf i _ Hi) as (t'' & w'' & [= <-] & Hw'' & _).
      exists w''. split; [done|by left].
  - destruct (isStop s) eqn:Hs.
    + exists [], s. unfold stop. cbn [negb]. by rewrite Hs.
    + exists (one_by_one 7 (managed s)). eexists.
      rewrite stop_immediate_unfold by done. cbn [run fold_left].
      set (s2 := set_heap (foldr mark1 (heap s) (reverse (flags s))) (set_isStop true s)).
      destruct (clear_queue_fields s2) as (Ht3 & _ & Hq3 & _ & _ & Hh3 & Hp3 & _).
      apply stop_join_returns; [rewrite Ht3; apply Hwf|rewrite Ht3; apply Hwf|].
      rewrite Ht3. intros j p Hj. cbn [threads set_isStop set_heap s2] in Hj.
      destruct (wf_slot s Hwf j p Hj) as (t & w & -> & Hw & _).
      destruct (one_by_one_retires 7 (managed s) (clear_queue s2))
        with (t := t) as (w' & Hw' & Hpc);
        [rewrite Hq3; cbn; lia| |by eapply elem_of_managed, list_elem_of_lookup_2|eauto].
      intros t' Hin'. apply elem_of_managed, list_elem_of_lookup in Hin' as [i Hi].
      destruct (wf_slot s Hwf i _ Hi) as (t'' & w'' & [= <-] & Hw'' & _ & _ & Hfl & Hhp & _).
      exists w''. split; [by rewrite Hp3|]. right.
      unfold load. rewrite Hh3. cbn [heap set_heap s2].
      rewrite mark_lookup_in; [done| |by apply lookup_lt_Some in Hhp].
      apply elem_of_reverse. by eapply list_elem_of_lookup_2.
Qed.

(** ** The operations on the example pool *)

Lemma example_pool_wf : wf example_pool.
Proof.
  unfold example_pool. do 2 apply push_wf.
  apply grown_wf; [apply init_wf|split; reflexivity|unfold INT_MAX; simpl; lia].
Qed.

Lemma stop_immediate_post_witness :
  (forall (i : nat) (t : tid) (w : worker),
      threads example_pool !! i = Some (Some t) -> procs example_pool !! t = Some w ->
      load (w_flag w) example_stopped = true) /\
  q example_stopped = [] /\
  threads example_stopped = [] /\ flags example_stopped = [] /\
  size example_stopped = 0 /\
  isStop example_stopped = true /\
  exists (l : list (task * Z)) (cleared fr : list task),
    executed example_stopped = executed example_pool ++ l /\
    freed example_stopped = freed example_pool ++ fr /\ cleared ⊆+ fr /\
    map fst l ++ inflight (procs example_stopped) ++ cleared
      ≡ₚ inflight (procs example_pool) ++ q example_pool /\
    (example_pre = [] -> cleared = q example_pool).
Proof.
  apply (stop_immediate_post example_pre example_sched example_pool example_stopped).
  - apply example_pool_wf.
  - reflexivity.
  - vm_compute. reflexivity.
Defined.

Lemma dtor_is_drain_stop_witness :
  (forall pre, thread_pool_dtor example_sched example_pool
               = stop pre example_sched true example_pool) /\
  q example_drained = [] /\ threads example_drained = [] /\ flags example_drained = [] /\
  exists l : list (task * Z),
    executed example_drained = executed example_pool ++ l /\
    (threads example_pool <> [] ->
     map fst l ++ inflight (procs example_drained)
       ≡ₚ inflight (procs example_pool) ++ q example_pool /\
     ((forall (t : tid) (w : worker),
          procs example_pool !! t = Some w ->
          Some t ∈ threads example_pool \/ w_pc w = PRetired) ->
      map fst l ≡ₚ inflight (procs example_pool) ++ q example_pool)) /\
    (threads example_pool = [] ->
     exists cleared fr : list task,
       freed example_drained = freed example_pool ++ fr /\ cleared ⊆+ fr /\
       map fst l ++ inflight (procs example_drained) ++ cleared
         ≡ₚ inflight (procs example_pool) ++ q example_pool /\
       (example_sched = [] \/
        (forall (t : tid) (w : worker),
            procs example_pool !! t = Some w -> w_pc w = PRetired) ->
        l = [] /\ cleared = q example_pool /\
        freed example_drained = freed example_pool ++ q example_pool)).
Proof.
  apply (dtor_is_drain_stop example_sched example_pool example_drained).
  - apply example_pool_wf.
  - split; reflexivity.
  - vm_compute. reflexivity.
Defined.

Lemma stop_idempotent_witness :
  (forall isWait : bool,
      stop example_pre example_sched isWait example_pool = Blocked \/
      exists s1, stop example_pre example_sched isWait example_pool = Ret s1 /\
                 stop [] [] isWait s1 = Ret s1) /\
  (forall s1 : pool, stop example_pre example_sched true example_pool = Ret s1 ->
      (exists s2, stop [] [] false s1 = Ret s2 /\
                  map w_joinable (procs s2) = map w_joinable (procs s1)) /\
      stop [] [] false s1
      = Ret (if isStop s1 then s1 else set_isStop true (clear_queue s1)) /\
      (running example_pool -> stop [] [] false s1 = Ret (set_isStop true s1))).
Proof.
  apply (stop_idempotent example_pre example_sched [] [] example_pool).
  apply example_pool_wf.
Defined.

(** * More of the interface *)

(** ** The queue under any sequence of calls *)

(** X1. Whatever the order of the calls of [push] and [pop] on a queue,
    the elements handed back by the successful pops, followed by what the
    queue still holds, are the initial content followed by the pushed
    elements, in that order: nothing is lost, repeated or reordered. And
    [empty()] answers [true] at the end exactly when as many elements were
    handed back as the queue held or received. *)
Theorem queue_any_order_fifo {T : Type} (ops : list (qop T)) (v : T) (q0 : list T) :
  let '(out, q') := qrun ops v q0 in
  out ++ q' = q0 ++ pushed ops /\
  (Queue.empty q' = true <-> length out = (length q0 + length (pushed ops))%nat).
Proof.
  revert v q0. induction ops as [|[x|] ops IH]; intros v q0.
  - cbn. rewrite app_nil_r. split; [done|]. destruct q0; cbn; split; (done || lia).
  - cbn [qrun pushed Queue.push snd]. specialize (IH v (q0 ++ [x])).
    destruct (qrun ops v (q0 ++ [x])) as [out q'].
    destruct IH as [IH1 IH2]. rewrite <- app_assoc in IH1. split; [done|].
    rewrite IH2, length_app. cbn. lia.
  - cbn [qrun pushed]. destruct q0 as [|y q0]; cbn [Queue.pop].
    + specialize (IH v []). by destruct (qrun ops v []) as [out q'].
    + specialize (IH y q0). destruct (qrun ops y q0) as [out q'].
      destruct IH as [IH1 IH2]. split; [cbn; by rewrite IH1|].
      rewrite IH2. cbn. lia.
Qed.

(** ** [pop] and its caller *)

(** X2. The guarded call of example.cpp, [auto f = p.pop(); if (f) f(0);],
    never faults. On an empty queue it leaves the pool as it is; on a
    queue whose front is the task [f] it takes [f] from the queue, deletes
    the queued object and calls the copy once, with id [0]. *)
Theorem pop_and_call_safe (s : pool) :
  (q s = [] -> pop_and_call s = Ret s) /\
  (forall (f : task) (q' : list task),
      q s = f :: q' -> f <> null ->
      pop_and_call s = Ret (call f 0 (delete f (set_q q' s)))) /\
  exists s', pop_and_call s = Ret s'.
Proof.
  unfold pop_and_call, pop. destruct (q s) as [|f q'] eqn:Hq; cbn.
  - assert (set_q [] s = s) as -> by (rewrite <- Hq; apply set_q_same).
    split; [done|]. split; [done|]. by exists s.
  - split; [done|]. destruct (Nat.eqb_spec f null) as [->|Hne]; cbn.
    + split; [by intros ? ? [= <- <-] ?|]. eauto.
    + split; [by intros ? ? [= <- <-] _|]. eauto.
Qed.

(** ** [clear_queue] *)

(** X3. [clear_queue] ends with an empty queue, has deleted the queued
    tasks, each once and in queue order, has called none of them and has
    changed nothing else; a second [clear_queue] changes nothing. *)
Theorem clear_queue_deletes_all (s : pool) :
  clear_queue s = set_freed (freed s ++ q s) (set_q [] s) /\
  q (clear_queue s) = [] /\
  freed (clear_queue s) = freed s ++ q s /\
  executed (clear_queue s) = executed s /\
  clear_queue (clear_queue s) = clear_queue s.
Proof.
  rewrite !clear_queue_eq. repeat (split; [done|]).
  destruct s; unfold set_freed, set_q; cbn. by rewrite app_nil_r.
Qed.

(** ** [get_thread] *)

Lemma get_thread_lookup (s : pool) (i : nat) (t : tid) :
  threads s !! i = Some (Some t) -> get_thread (Z.of_nat i) s = Ret t.
Proof. intros H. unfold get_thread. by rewrite (vec_at_lookup _ _ _ H). Qed.

(** X5. On every reachable pool [size()] is the length of both vectors
    and lies in [0, INT_MAX]; [get_thread(i)] for [0 <= i < size()] hands
    back a joinable thread that runs the lambda for index [i], has not
    left it, and reads its stop flag as unset; two indices never share a
    thread; and every other [i] is a subscript outside the vector. *)
Theorem get_thread_in_range (s : pool) :
  reachable s ->
  size s = Z.of_nat (length (threads s)) /\
  length (flags s) = length (threads s) /\
  0 <= size s <= INT_MAX /\
  (forall i : Z, 0 <= i < size s ->
     exists (t : tid) (w : worker),
       get_thread i s = Ret t /\ procs s !! t = Some w /\
       w_i w = i /\ w_joinable w = true /\ load (w_flag w) s = false /\
       w_pc w <> PRetired) /\
  (forall (i j : Z) (t : tid),
     get_thread i s = Ret t -> get_thread j s = Ret t -> i = j) /\
  (forall i : Z, ~ (0 <= i < size s) ->
     get_thread i s = Fault (OutOfRange i (length (threads s)))).
Proof.
  intros Hr. apply reachable_wf in Hr as Hwf.
  pose proof (wf_max s Hwf) as Hmax.
  assert (size s = Z.of_nat (length (threads s))) as Hsz.
  { unfold size. apply to_int_small. lia. }
  rewrite Hsz. split; [done|]. split; [apply Hwf|]. split; [lia|].
  assert (forall (i : Z) (t : tid), get_thread i s = Ret t ->
            0 <= i /\ threads s !! Z.to_nat i = Some (Some t)) as Hinv.
  { intros i t. unfold get_thread, vec_at.
    destruct (Z.leb_spec 0 i); cbn [andb]; [|done].
    destruct (Z.ltb_spec i (Z.of_nat (length (threads s)))); [|done].
    destruct (threads s !! Z.to_nat i) as [[t'|]|]; cbn; try done.
    by intros [= ->]. }
  split; [|split].
  - intros i Hi.
    destruct (lookup_lt_is_Some_2 (threads s) (Z.to_nat i)) as [p Hp]; [lia|].
    destruct (wf_slot s Hwf _ _ Hp) as (t & w & -> & Hw & Hj & Hwi & _ & Hh & Hpc & _).
    exists t, w. split.
    { rewrite <- (Z2Nat.id i) at 1 by lia. by apply get_thread_lookup. }
    split; [done|]. split; [lia|]. split; [done|]. split; [by apply load_false|done].
  - intros i j t Hi Hj. apply Hinv in Hi as [Hi0 Hi], Hj as [Hj0 Hj].
    pose proof (NoDup_lookup _ _ _ _ (wf_threads s Hwf) Hi Hj). lia.
  - intros i Hi. unfold get_thread, vec_at.
    destruct (Z.leb_spec 0 i); cbn [andb]; [|done].
    destruct (Z.ltb_spec i (Z.of_nat (length (threads s)))); [lia|done].
Qed.

Lemma get_thread_in_range_witness :
  size example_pool = Z.of_nat (length (threads example_pool)) /\
  length (flags example_pool) = length (threads example_pool) /\
  0 <= size example_pool <= INT_MAX /\
  (forall i : Z, 0 <= i < size example_pool ->
     exists (t : tid) (w : worker),
       get_thread i example_pool = Ret t /\ procs example_pool !! t = Some w /\
       w_i w = i /\ w_joinable w = true /\ load (w_flag w) example_pool = false /\
       w_pc w <> PRetired) /\
  (forall (i j : Z) (t : tid),
     get_thread i example_pool = Ret t -> get_thread j example_pool = Ret t -> i = j) /\
  (forall i : Z, ~ (0 <= i < size example_pool) ->
     get_thread i example_pool = Fault (OutOfRange i (length (threads example_pool)))).
Proof.
  apply (get_thread_in_range example_pool).
  unfold example_pool. do 2 apply reach_push.
  apply (reach_resize 2 init); [apply reach_init|unfold INT_MAX; lia|].
  apply resize_grow; [done|by cbn|by split|cbn; lia].
Defined.

(** ** [n_idle] counts the parked workers *)

Lemma to_int_add (a b : Z) : to_int (to_int a + b) = to_int (a + b).
Proof.
  unfold to_int.
  replace ((a + 2 ^ 31) mod 2 ^ 32 - 2 ^ 31 + b + 2 ^ 31)
    with ((a + 2 ^ 31) mod 2 ^ 32 + b) by lia.
  rewrite Zplus_mod_idemp_l. do 2 f_equal. lia.
Qed.

Lemma parked_app (a b : list worker) : parked (a ++ b) = (parked a + parked b)%nat.
Proof. unfold parked. by rewrite map_app, List.filter_app, length_app. Qed.

Lemma parked_cons (w : worker) (ps : list worker) :
  parked (w :: ps) = ((if is_parked (w_pc w) then 1 else 0) + parked ps)%nat.
Proof. unfold parked. cbn. by destruct (is_parked (w_pc w)). Qed.

Lemma parked_insert (ps : list worker) (t : tid) (w w' : worker) :
  ps !! t = Some w ->
  exists A : nat,
    parked ps = (A + if is_parked (w_pc w) then 1 else 0)%nat /\
    parked (<[t := w']> ps) = (A + if is_parked (w_pc w') then 1 else 0)%nat.
Proof.
  intros Hw. exists (parked (take t ps) + parked (drop (S t) ps))%nat.
  rewrite insert_take_drop by (by apply lookup_lt_Some in Hw).
  rewrite <- (take_drop_middle _ _ _ Hw) at 1.
  rewrite !parked_app, !parked_cons. lia.
Qed.

Lemma parked_spawned (s : pool) (L : list nat) : parked (map (spawned s) L) = 0%nat.
Proof. induction L as [|j L IH]; [done|]. cbn [map]. by rewrite parked_cons, IH. Qed.

Lemma parked_same_pc (ps ps' : list worker) :
  map w_pc ps' = map w_pc ps -> parked ps' = parked ps.
Proof. unfold parked. by intros ->. Qed.

Lemma unjoin_pc (L : list (option tid)) (ps : list worker) :
  map w_pc (foldr unjoin1 ps L) = map w_pc ps.
Proof.
  induction L as [|[t|] L IH]; cbn [foldr unjoin1]; [done| |done].
  destruct (_ !! t) as [w|] eqn:Hw; [|done].
  rewrite <- IH. change (map w_pc) with (fmap (M:=list) w_pc).
  rewrite list_fmap_insert. apply list_insert_id.
  by rewrite list_lookup_fmap, Hw.
Qed.

Lemma worker_step_parked (w w' : worker) (s s' : pool) :
  worker_step w s = (w', s') ->
  (nWaiting s' = nWaiting s /\ is_parked (w_pc w') = is_parked (w_pc w)) \/
  (nWaiting s' = to_int (nWaiting s + 1) /\
   is_parked (w_pc w) = false /\ is_parked (w_pc w') = true) \/
  (nWaiting s' = to_int (nWaiting s - 1) /\
   is_parked (w_pc w) = true /\ is_parked (w_pc w') = false).
Proof.
  unfold worker_step, Queue.pop.
  destruct (w_pc w) as [|f|f|f| | |[f|]|] eqn:E; cbn;
    repeat match goal with
           | |- context [match q s with _ => _ end] => destruct (q s) eqn:Eq
           | |- context [if ?b then _ else _] => destruct b
           end;
    intros H; inversion H; subst; cbn; rewrite ?E; cbn; auto.
Qed.

Lemma step_idle (t : tid) (s : pool) :
  nWaiting s = to_int (Z.of_nat (parked (procs s))) ->
  nWaiting (step t s) = to_int (Z.of_nat (parked (procs (step t s)))).
Proof.
  intros HI. destruct (procs s !! t) as [w|] eqn:Hw; [|by rewrite step_none].
  destruct (step_unfold t s w Hw) as (w' & s1 & Hws & ->).
  cbn [nWaiting procs set_procs].
  destruct (parked_insert (procs s) t w w' Hw) as (A & HA & HB).
  rewrite HB. rewrite HA in HI.
  destruct (worker_step_parked _ _ _ _ Hws) as [[-> Hp]|[(-> & Hp & Hp')|(-> & Hp & Hp')]].
  - by rewrite Hp.
  - rewrite Hp in HI. rewrite Hp', HI, to_int_add. f_equal. lia.
  - rewrite Hp in HI. rewrite Hp', HI. unfold Z.sub. rewrite to_int_add. f_equal. lia.
Qed.

Lemma run_idle (sched : list tid) (s : pool) :
  nWaiting s = to_int (Z.of_nat (parked (procs s))) ->
  nWaiting (run sched s) = to_int (Z.of_nat (parked (procs (run sched s)))).
Proof.
  revert s. induction sched as [|t sched IH]; intros s HI; [done|].
  cbn [run fold_left]. fold (run sched (step t s)). by apply IH, step_idle.
Qed.

Lemma clear_queue_idle (s : pool) :
  nWaiting s = to_int (Z.of_nat (parked (procs s))) ->
  nWaiting (clear_queue s) = to_int (Z.of_nat (parked (procs (clear_queue s)))).
Proof. by rewrite clear_queue_eq. Qed.

Lemma joined_idle (s : pool) :
  nWaiting s = to_int (Z.of_nat (parked (procs s))) ->
  nWaiting (joined s) = to_int (Z.of_nat (parked (procs (joined s)))).
Proof.
  intros HI. unfold joined. rewrite clear_queue_eq.
  cbn [nWaiting procs set_flags set_threads set_freed set_q set_procs].
  by rewrite (parked_same_pc _ _ (unjoin_pc _ _)).
Qed.

Lemma stop_closed (pre sched : list tid) (isWait : bool) (s s' : pool) :
  wf s -> stop pre sched isWait s = Ret s' ->
  s' = s \/
  s' = joined (run sched (set_isDone true s)) \/
  s' = joined (run sched (clear_queue (run pre
         (set_heap (foldr mark1 (heap s) (reverse (flags s))) (set_isStop true s))))).
Proof.
  intros Hwf Hr. destruct isWait.
  - destruct (isDone s || isStop s) eqn:Hds.
    + unfold stop in Hr. cbn [negb] in Hr. rewrite Hds in Hr. injection Hr as <-. by left.
    + apply orb_false_elim in Hds as [Hd Hs].
      rewrite stop_drain_unfold in Hr by done.
      apply stop_join_ret in Hr as [-> _];
        [|apply Hwf|apply Hwf|exact (wf_valid_slots s Hwf)].
      right. by left.
  - destruct (isStop s) eqn:Hs.
    + unfold stop in Hr. cbn [negb] in Hr. rewrite Hs in Hr. injection Hr as <-. by left.
    + rewrite stop_immediate_unfold in Hr by done.
      remember (set_heap (foldr mark1 (heap s) (reverse (flags s))) (set_isStop true s))
        as s2 eqn:Heq2.
      assert (threads s2 = threads s /\ procs s2 = procs s) as (Ht2 & Hp2) by (by subst s2).
      destruct (run_frame pre s2) as (Ht0 & _ & _ & _ & _ & Hp0).
      destruct (clear_queue_fields (run pre s2)) as (Ht3 & _ & _ & _ & _ & _ & Hp3 & _).
      apply stop_join_ret in Hr as [-> _]; [by right; right| | |].
      * rewrite Ht3, Ht0, Ht2. apply Hwf.
      * rewrite Ht3, Ht0, Ht2. apply Hwf.
      * rewrite Ht3, Ht0, Ht2, Hp3. intros j p Hj.
        destruct (wf_valid_slots s Hwf j p Hj) as (t & w & -> & Hw).
        rewrite <- Hp2 in Hw. destruct (Hp0 t w Hw) as (w' & Hw' & _). eauto.
Qed.

(** X6. On every reachable pool [n_idle()] is the number of workers that
    are parked, that is between [++nWaiting] and [--nWaiting] of the
    lambda (as a 32-bit [int]). *)
Theorem n_idle_counts_parked (s : pool) :
  reachable s -> n_idle s = to_int (Z.of_nat (parked (procs s))).
Proof.
  unfold n_idle. induction 1 as [|n s s' Hr IH Hn Hres|f s Hr IH|s Hr IH
                                |pre sched isWait s s' Hr IH Hst|t s Hr IH].
  - reflexivity.
  - apply reachable_wf in Hr as Hwf.
    destruct (isStop s) eqn:Hs; [|destruct (isDone s) eqn:Hd].
    + rewrite resize_after_shutdown_noop_aux in Hres by (by right). by injection Hres as <-.
    + rewrite resize_after_shutdown_noop_aux in Hres by (by left). by injection Hres as <-.
    + destruct (resize_cases n s Hwf (conj Hs Hd)) as [[_ He]|[_ He]]; [lia| |];
        rewrite He in Hres; injection Hres as <-.
      * unfold grown, growing. cbn [nWaiting procs].
        rewrite parked_app, parked_spawned, IH. f_equal. lia.
      * unfold shrunk, released.
        cbn [nWaiting procs set_flags set_threads set_procs set_heap].
        by rewrite (parked_same_pc _ _ (unjoin_pc _ _)).
  - exact IH.
  - unfold pop. destruct (q s) as [|f q']; cbn; [done|].
    by destruct (Nat.eqb f null).
  - apply reachable_wf in Hr as Hwf.
    destruct (stop_closed _ _ _ _ _ Hwf Hst) as [->|[->| ->]]; [done| |].
    + by apply joined_idle, run_idle.
    + by apply joined_idle, run_idle, clear_queue_idle, run_idle.
  - by apply step_idle.
Qed.

Lemma n_idle_counts_parked_witness :
  n_idle (run [0; 0; 1]%nat (grown 2 init))
  = to_int (Z.of_nat (parked (procs (run [0; 0; 1]%nat (grown 2 init))))).
Proof.
  apply (n_idle_counts_parked (run [0; 0; 1]%nat (grown 2 init))).
  cbn [run fold_left]. do 3 apply reach_step.
  apply (reach_resize 2 init); [apply reach_init|unfold INT_MAX; lia|].
  apply resize_grow; [done|by cbn|by split|cbn; lia].
Defined.

(** ** What the workers do with the tasks *)

Lemma worker_step_ids (w w' : worker) (s s' : pool) :
  worker_step w s = (w', s') ->
  exists l, executed s' = executed s ++ l /\
            forall f id, (f, id) ∈ l -> id = w_i w.
Proof.
  unfold worker_step, Queue.pop.
  destruct (w_pc w) as [|f|f|f| | |[f|]|]; cbn;
    repeat match goal with
           | |- context [match q s with _ => _ end] => destruct (q s)
           | |- context [if ?b then _ else _] => destruct b
           end;
    intros H; inversion H; subst; cbn;
    first [ exists []; rewrite app_nil_r; split; [done|];
            intros ? ? Hin; by apply elem_of_nil in Hin
          | eexists [_]; split; [done|];
            intros ? ? Hin; apply list_elem_of_singleton in Hin; by injection Hin as -> -> ].
Qed.

Lemma step_ids (t : tid) (s : pool) :
  exists l, executed (step t s) = executed s ++ l /\
            forall f id, (f, id) ∈ l ->
              exists w, procs s !! t = Some w /\ w_i w = id.
Proof.
  destruct (procs s !! t) as [w|] eqn:Hw.
  - destruct (step_unfold t s w Hw) as (w' & s1 & Hws & ->).
    destruct (worker_step_ids _ _ _ _ Hws) as (l & He & Hl).
    exists l. split; [done|]. intros f id Hin. exists w. split; [done|].
    symmetry. by eapply Hl.
  - rewrite step_none by done. exists []. rewrite app_nil_r. split; [done|].
    intros ? ? Hin. by apply elem_of_nil in Hin.
Qed.

Lemma step_index_back (t t' : tid) (s : pool) (w' : worker) :
  procs (step t s) !! t' = Some w' ->
  exists w, procs s !! t' = Some w /\ w_i w = w_i w'.
Proof.
  rewrite step_lookup. destruct (procs s !! t') as [w|] eqn:Hw; [|done].
  intros [= <-]. exists w. split; [done|].
  destruct (decide (t' = t)); [|done].
  destruct (worker_step w s) as [w1 s1] eqn:Hws. cbn.
  by destruct (worker_step_frame _ _ _ _ Hws) as (_ & _ & _ & _ & _ & _ & -> & _).
Qed.

Lemma run_ids (sched : list tid) (s : pool) :
  exists l, executed (run sched s) = executed s ++ l /\
            forall f id, (f, id) ∈ l ->
              exists t w, t ∈ sched /\ procs s !! t = Some w /\ w_i w = id.
Proof.
  revert s. induction sched as [|t sched IH]; intros s.
  - exists []. rewrite app_nil_r. split; [done|].
    intros ? ? Hin. by apply elem_of_nil in Hin.
  - cbn [run fold_left]. fold (run sched (step t s)).
    destruct (IH (step t s)) as (l2 & He2 & Hl2).
    destruct (step_ids t s) as (l1 & He1 & Hl1).
    exists (l1 ++ l2). split; [by rewrite He2, He1, app_assoc|].
    intros f id Hin. apply elem_of_app in Hin as [Hin|Hin].
    + destruct (Hl1 f id Hin) as (w & Hw & Hi). exists t, w. split; [by left|done].
    + destruct (Hl2 f id Hin) as (t' & w' & Ht' & Hw' & Hi).
      destruct (step_index_back _ _ _ _ Hw') as (w & Hw & Hwi).
      exists t', w. split; [by right|]. split; [done|congruence].
Qed.

(** X7. Whatever the schedule, the workers call only tasks they took from
    the queue, each exactly once: the calls made, together with the tasks
    still claimed or queued afterwards, are the tasks that were claimed or
    queued before, and the id passed to each call is the index of a
    scheduled worker. No step of a worker puts a task on the queue. *)
Theorem workers_call_each_task_once (sched : list tid) (s : pool) :
  exists l : list (task * Z),
    executed (run sched s) = executed s ++ l /\
    map fst l ++ pending (run sched s) ≡ₚ pending s /\
    (forall f id, (f, id) ∈ l ->
       exists t w, t ∈ sched /\ procs s !! t = Some w /\ w_i w = id) /\
    (length (q (run sched s)) <= length (q s))%nat.
Proof.
  destruct (run_tasks sched s) as (l & He & Hperm).
  destruct (run_ids sched s) as (l' & He' & Hids).
  assert (l' = l) as ->.
  { apply (app_inv_head (executed s)). by rewrite <- He, <- He'. }
  exists l. repeat (split; [done|]). apply run_q_length.
Qed.

(** X8. A parked worker with nothing to do does not move: while the queue
    is empty, the pool is not draining and its flag is unset, its step
    changes nothing. A [push] wakes it: its next three steps take the
    task from the queue, leave the count of idle workers one lower and
    call the task with the worker's own index. *)
Theorem push_wakes_parked_worker (t : tid) (w : worker) (f : task) (s : pool) :
  procs s !! t = Some w -> w_pc w = PWait ->
  q s = [] -> isDone s = false -> load (w_flag w) s = false ->
  step t s = s /\
  let s' := run [t; t; t] (push f s) in
  executed s' = executed s ++ [(f, w_i w)] /\
  q s' = [] /\
  nWaiting s' = to_int (nWaiting s - 1) /\
  procs s' = <[t := set_pc (PCheck f) w]> (procs s) /\
  freed s' = freed s.
Proof.
  intros Hw Hpc Hq Hd Hfl.
  assert (t < length (procs s))%nat as Hlt by (by apply lookup_lt_Some in Hw).
  split.
  - unfold step. rewrite Hw. unfold worker_step. rewrite Hpc, Hq, Hd, Hfl. cbn.
    rewrite (list_insert_id _ _ _ Hw). by destruct s.
  - cbn zeta. cbn [run fold_left]. unfold push, Queue.push. rewrite Hq. cbn [app].
    assert (step t (set_q [f] s)
            = set_procs (<[t := set_pc (PWake (Some f)) w]> (procs s)) (set_q [] s)) as ->.
    { unfold step. cbn [procs set_q]. rewrite Hw. unfold worker_step. by rewrite Hpc. }
    assert (step t (set_procs (<[t := set_pc (PWake (Some f)) w]> (procs s)) (set_q [] s))
            = set_procs (<[t := set_pc (PRun f) w]> (procs s))
                (set_nWaiting (to_int (nWaiting s - 1)) (set_q [] s))) as ->.
    { unfold step. cbn [procs set_procs set_q].
      rewrite list_lookup_insert_eq by done. unfold worker_step. cbn.
      rewrite list_insert_insert_eq. by destruct w. }
    assert (step t (set_procs (<[t := set_pc (PRun f) w]> (procs s))
                      (set_nWaiting (to_int (nWaiting s - 1)) (set_q [] s)))
            = set_procs (<[t := set_pc (PCheck f) w]> (procs s))
                (call f (w_i w) (set_nWaiting (to_int (nWaiting s - 1)) (set_q [] s)))) as ->.
    { unfold step. cbn [procs set_procs set_q set_nWaiting].
      rewrite list_lookup_insert_eq by done. unfold worker_step. cbn.
      rewrite list_insert_insert_eq. by destruct w. }
    done.
Qed.

Lemma push_wakes_parked_worker_witness :
  step 0%nat (run [0; 0]%nat (grown 1 init)) = run [0; 0]%nat (grown 1 init) /\
  let s' := run [0; 0; 0]%nat (push 9%nat (run [0; 0]%nat (grown 1 init))) in
  executed s' = executed (run [0; 0]%nat (grown 1 init)) ++ [(9%nat, 0)] /\
  q s' = [] /\
  nWaiting s' = to_int (nWaiting (run [0; 0]%nat (grown 1 init)) - 1) /\
  procs s' = <[0%nat := set_pc (PCheck 9%nat) (Worker 0 0%nat PWait true)]>
               (procs (run [0; 0]%nat (grown 1 init))) /\
  freed s' = freed (run [0; 0]%nat (grown 1 init)).
Proof.
  apply (push_wakes_parked_worker 0%nat (Worker 0 0%nat PWait true) 9%nat
           (run [0; 0]%nat (grown 1 init))); reflexivity.
Defined.

(** ** A worker whose stop flag is set *)

Lemma worker_step_calls_left (w : worker) (s : pool) :
  load (w_flag w) s = true ->
  ((if is_run (w_pc w) then 1 else 0)
   + calls_left (w_pc (fst (worker_step w s))) <= calls_left (w_pc w))%nat.
Proof.
  intros Hfl. unfold worker_step, Queue.pop. rewrite Hfl, orb_true_r.
  destruct (w_pc w) as [|f|f|f| | |[f|]|] eqn:E; cbn;
    repeat match goal with
           | |- context [match q s with _ => _ end] => destruct (q s)
           end; cbn; rewrite ?E; cbn; lia.
Qed.

Lemma worker_step_flag (w : worker) (s : pool) :
  w_flag (fst (worker_step w s)) = w_flag w.
Proof.
  destruct (worker_step w s) as [w' s'] eqn:Hws. cbn [fst].
  by destruct (worker_step_frame _ _ _ _ Hws) as (_ & _ & _ & _ & _ & _ & _ & -> & _).
Qed.

Lemma worker_trace_calls (envs : list pool) : forall w : worker,
  (forall s, s ∈ envs -> load (w_flag w) s = true) ->
  (length (List.filter is_run (worker_trace envs w)) <= calls_left (w_pc w))%nat.
Proof.
  induction envs as [|s envs IH]; intros w Hall; [cbn; lia|].
  cbn [worker_trace List.filter].
  pose proof (worker_step_calls_left w s (Hall s ltac:(by left))) as Hstep.
  specialize (IH (fst (worker_step w s))).
  rewrite worker_step_flag in IH.
  specialize (IH ltac:(intros s' Hs'; apply Hall; by right)).
  destruct (is_run (w_pc w)); cbn [length]; lia.
Qed.

(** X9. Once the stop flag of a worker is set, the worker calls at most
    one more task, wherever it stands and whatever the other threads do
    to the pool between its steps (the states [envs] in which it takes
    them); and none at all if it has just finished a task. *)
Theorem signalled_worker_calls_at_most_one (envs : list pool) (w : worker) :
  (forall s, s ∈ envs -> load (w_flag w) s = true) ->
  (length (List.filter is_run (worker_trace envs w)) <= 1)%nat /\
  (forall f, w_pc w = PCheck f ->
     List.filter is_run (worker_trace envs w) = []).
Proof.
  intros Hall. pose proof (worker_trace_calls envs w Hall) as H. split.
  - destruct (w_pc w) as [| | | | | |[|]|]; cbn in H; lia.
  - intros f Hpc. rewrite Hpc in H. cbn in H.
    destruct (List.filter is_run (worker_trace envs w)); [done|cbn in H; lia].
Qed.

Lemma signalled_worker_calls_at_most_one_witness :
  (length (List.filter is_run
     (worker_trace
        (replicate 6 (Pool [] [] [5; 6; 7]%nat false false 0 [true] [] [] []))
        (Worker 0 0%nat PInit false))) <= 1)%nat /\
  (forall f, w_pc (Worker 0 0%nat PInit false) = PCheck f ->
     List.filter is_run
       (worker_trace
          (replicate 6 (Pool [] [] [5; 6; 7]%nat false false 0 [true] [] [] []))
          (Worker 0 0%nat PInit false)) = []).
Proof.
  apply (signalled_worker_calls_at_most_one
           (replicate 6 (Pool [] [] [5; 6; 7]%nat false false 0 [true] [] [] []))
           (Worker 0 0%nat PInit false)).
  intros s Hs. apply elem_of_replicate in Hs as [-> _]. reflexivity.
Defined.

(** ** What [resize] leaves alone *)

Lemma grown_0 (s : pool) : grown 0 s = s.
Proof. destruct s. unfold grown, growing. cbn. by rewrite !app_nil_r. Qed.

(** X12. [resize] never touches the tasks or the shutdown state: the queue,
    the calls made, the tasks deleted, [nWaiting], [isDone] and [isStop]
    are as before. Every slot that is kept, below both the old size and
    [n], keeps its thread and its flag; that thread is where it was, is
    still joinable and still reads its flag as unset. *)
Theorem resize_keeps_tasks_and_workers (n : Z) (s : pool) :
  wf s -> 0 <= n <= INT_MAX ->
  exists s', resize n s = Ret s' /\
    q s' = q s /\ executed s' = executed s /\ freed s' = freed s /\
    nWaiting s' = nWaiting s /\ isDone s' = isDone s /\ isStop s' = isStop s /\
    forall (i : nat) (t : tid) (w : worker),
      Z.of_nat i < n -> threads s !! i = Some (Some t) -> procs s !! t = Some w ->
      threads s' !! i = Some (Some t) /\ flags s' !! i = flags s !! i /\
      procs s' !! t = Some w /\ load (w_flag w) s' = false.
Proof.
  intros Hwf Hn.
  assert (forall (i : nat) (t : tid) (w : worker),
            threads s !! i = Some (Some t) -> procs s !! t = Some w ->
            load (w_flag w) s = false) as Hunset.
  { intros i t w Hi Hw.
    destruct (wf_slot s Hwf i _ Hi) as (t' & w' & [= <-] & Hw' & _ & _ & _ & Hh & _).
    rewrite Hw in Hw'. injection Hw' as <-. by apply load_false. }
  destruct (isStop s) eqn:Hs; [|destruct (isDone s) eqn:Hd].
  - exists s. rewrite resize_after_shutdown_noop_aux by (by right).
    do 7 (split; [done|]). intros i t w _ Hi Hw. do 3 (split; [done|]). eauto.
  - exists s. rewrite resize_after_shutdown_noop_aux by (by left).
    do 7 (split; [done|]). intros i t w _ Hi Hw. do 3 (split; [done|]). eauto.
  - destruct (resize_cases n s Hwf (conj Hs Hd)) as [[Hle ->]|[Hlt ->]]; [lia| |].
    + eexists. split; [done|]. unfold grown, growing.
      cbn [threads flags q isDone isStop nWaiting heap procs executed freed replicate].
      rewrite !app_nil_r. do 6 (split; [done|]).
      intros i t w _ Hi Hw.
      destruct (wf_slot s Hwf i _ Hi) as (t' & w' & [= <-] & Hw' & _ & _ & Hf & Hh & _).
      rewrite Hw in Hw'. injection Hw' as <-.
      split; [by apply lookup_app_l_Some|].
      split; [rewrite Hf; by apply lookup_app_l_Some|].
      split; [by apply lookup_app_l_Some|].
      unfold load. cbn [heap]. by rewrite (lookup_app_l_Some _ _ _ _ Hh).
    + eexists. split; [done|]. unfold shrunk, released.
      cbn [threads flags q isDone isStop nWaiting heap procs executed freed
           set_flags set_threads set_procs set_heap].
      do 6 (split; [done|]).
      intros i t w Hin Hi Hw.
      destruct (wf_slot s Hwf i _ Hi) as (t' & w' & [= <-] & Hw' & _ & _ & Hf & Hh & _).
      rewrite Hw in Hw'. injection Hw' as <-.
      split; [apply lookup_take_Some; split; [done|lia]|].
      split; [rewrite lookup_take_lt by lia; done|].
      split.
      * rewrite unjoin_lookup_notin; [done|].
        eapply NoDup_lookup_drop; [apply Hwf|done|lia].
      * unfold load. cbn [heap set_flags set_threads set_procs set_heap].
        rewrite mark_lookup_notin; [by rewrite Hh|].
        eapply NoDup_lookup_drop; [apply Hwf|done|lia].
Qed.

Lemma resize_keeps_tasks_and_workers_witness :
  exists s', resize 1 example_pool = Ret s' /\
    q s' = q example_pool /\ executed s' = executed example_pool /\
    freed s' = freed example_pool /\
    nWaiting s' = nWaiting example_pool /\ isDone s' = isDone example_pool /\
    isStop s' = isStop example_pool /\
    forall (i : nat) (t : tid) (w : worker),
      Z.of_nat i < 1 -> threads example_pool !! i = Some (Some t) ->
      procs example_pool !! t = Some w ->
      threads s' !! i = Some (Some t) /\ flags s' !! i = flags example_pool !! i /\
      procs s' !! t = Some w /\ load (w_flag w) s' = false.
Proof.
  apply (resize_keeps_tasks_and_workers 1 example_pool).
  - apply example_pool_wf.
  - unfold INT_MAX. lia.
Defined.

(** X13. [resize] to the size the pool already has changes nothing, so a
    second [resize(n)] after a first returns the state the first left:
    no thread is started, signalled or detached twice. *)
Theorem resize_twice (n : Z) (s s' : pool) :
  wf s -> 0 <= n <= INT_MAX ->
  resize n s = Ret s' ->
  resize n s' = Ret s' /\ (running s -> resize (size s) s = Ret s).
Proof.
  intros Hwf Hn Hr.
  assert (forall s0 : pool, wf s0 -> running s0 -> resize (size s0) s0 = Ret s0) as Hsame.
  { intros s0 Hwf0 Hrun0. pose proof (wf_max s0 Hwf0).
    unfold size. rewrite to_int_small by lia.
    rewrite resize_grow; [|apply Hwf0|done|done|lia].
    by rewrite Nat2Z.id, Nat.sub_diag, grown_0. }
  split; [|by apply Hsame].
  destruct (isStop s) eqn:Hs; [|destruct (isDone s) eqn:Hd].
  - rewrite resize_after_shutdown_noop_aux in Hr by (by right). injection Hr as <-.
    apply resize_after_shutdown_noop_aux. by right.
  - rewrite resize_after_shutdown_noop_aux in Hr by (by left). injection Hr as <-.
    apply resize_after_shutdown_noop_aux. by left.
  - pose proof (resize_wf n s s' Hwf Hn Hr) as Hwf'.
    assert (running s' /\ size s' = n) as [Hrun' Hsz].
    { destruct (resize_cases n s Hwf (conj Hs Hd)) as [[Hle He]|[Hlt He]]; [lia| |];
        rewrite He in Hr; injection Hr as <-.
      - split; [by split|].
        unfold size, grown, growing. cbn [threads replicate]. rewrite app_nil_r.
        rewrite length_app, length_map, length_seq, to_int_small; lia.
      - split; [by split|].
        unfold size, shrunk. cbn [threads set_flags set_threads].
        rewrite length_take, to_int_small; lia. }
    rewrite <- Hsz at 1. by apply Hsame.
Qed.

Lemma resize_twice_witness :
  resize 1 (shrunk 1 example_pool) = Ret (shrunk 1 example_pool) /\
  (running example_pool -> resize (size example_pool) example_pool = Ret example_pool).
Proof.
  apply (resize_twice 1 example_pool (shrunk 1 example_pool)).
  - apply example_pool_wf.
  - unfold INT_MAX. lia.
  - apply resize_shrink; [apply example_pool_wf|by split|cbn; lia].
Defined.

(** ** A stop flag is never reset *)

Lemma mark_lookup_true (L : list (option loc)) (h : list bool) (l : loc) :
  h !! l = Some true -> foldr mark1 h L !! l = Some true.
Proof.
  intros H. induction L as [|[l0|] L IH]; cbn [foldr mark1]; [done| |done].
  destruct (decide (l0 = l)) as [->|Hne].
  - apply list_lookup_insert_eq. by apply lookup_lt_Some in IH.
  - by rewrite list_lookup_insert_ne.
Qed.

(** X14. No operation resets a stop flag: a flag that reads [true] still
    reads [true] after any [resize], any [stop] that has returned, any
    [push] or [pop], and any steps of the workers. A worker that has been
    told to leave is never told to stay. *)
Theorem stop_flag_never_reset (l : loc) (s : pool) :
  wf s -> heap s !! l = Some true ->
  (forall (n : Z) (s' : pool),
      0 <= n <= INT_MAX -> resize n s = Ret s' -> heap s' !! l = Some true) /\
  (forall (pre sched : list tid) (isWait : bool) (s' : pool),
      stop pre sched isWait s = Ret s' -> heap s' !! l = Some true) /\
  (forall sched : list tid, heap (run sched s) !! l = Some true) /\
  (forall f : task, heap (push f s) !! l = Some true) /\
  heap (snd (pop s)) !! l = Some true.
Proof.
  intros Hwf Hl. split; [|split; [|split; [|split]]].
  - intros n s' Hn Hr.
    destruct (isStop s) eqn:Hs; [|destruct (isDone s) eqn:Hd].
    + rewrite resize_after_shutdown_noop_aux in Hr by (by right). by injection Hr as <-.
    + rewrite resize_after_shutdown_noop_aux in Hr by (by left). by injection Hr as <-.
    + destruct (resize_cases n s Hwf (conj Hs Hd)) as [[_ He]|[_ He]]; [lia| |];
        rewrite He in Hr; injection Hr as <-.
      * unfold grown, growing. cbn [heap]. by apply lookup_app_l_Some.
      * unfold shrunk, released. cbn [heap set_flags set_threads set_procs set_heap].
        by apply mark_lookup_true.
  - intros pre sched isWait s' Hr.
    destruct (stop_closed _ _ _ _ _ Hwf Hr) as [->|[->| ->]]; [done| |].
    + destruct (joined_fields (run sched (set_isDone true s))) as (_ & _ & _ & _ & _ & -> & _).
      by destruct (run_frame sched (set_isDone true s)) as (_ & _ & -> & _).
    + set (s2 := set_heap _ _).
      destruct (joined_fields (run sched (clear_queue (run pre s2))))
        as (_ & _ & _ & _ & _ & -> & _).
      destruct (run_frame sched (clear_queue (run pre s2))) as (_ & _ & -> & _).
      destruct (clear_queue_fields (run pre s2)) as (_ & _ & _ & _ & _ & -> & _).
      destruct (run_frame pre s2) as (_ & _ & -> & _).
      subst s2. cbn [heap set_heap]. by apply mark_lookup_true.
  - intros sched. by destruct (run_frame sched s) as (_ & _ & -> & _).
  - done.
  - unfold pop. destruct (q s) as [|f q']; cbn; [done|].
    by destruct (Nat.eqb f null).
Qed.

Lemma stop_flag_never_reset_witness :
  (forall (n : Z) (s' : pool),
      0 <= n <= INT_MAX -> resize n (shrunk 1 example_pool) = Ret s' ->
      heap s' !! 1%nat = Some true) /\
  (forall (pre sched : list tid) (isWait : bool) (s' : pool),
      stop pre sched isWait (shrunk 1 example_pool) = Ret s' ->
      heap s' !! 1%nat = Some true) /\
  (forall sched : list tid, heap (run sched (shrunk 1 example_pool)) !! 1%nat = Some true) /\
  (forall f : task, heap (push f (shrunk 1 example_pool)) !! 1%nat = Some true) /\
  heap (snd (pop (shrunk 1 example_pool))) !! 1%nat = Some true.
Proof.
  apply (stop_flag_never_reset 1%nat (shrunk 1 example_pool)).
  - apply shrunk_wf; [apply example_pool_wf|cbn; lia].
  - reflexivity.
Defined.

(** ** The constructor, with its threads running *)

Lemma loop_up_ext {S : Type} (k : nat) (body body' : Z -> S -> outcome S) :
  (forall i s, body i s = body' i s) ->
  forall (i : Z) (s : S), loop_up k i body s = loop_up k i body' s.
Proof.
  intros Hb. induction k as [|k IH]; intros i s; [done|].
  cbn [loop_up]. rewrite Hb. destruct (body' i s); cbn [bind]; [apply IH|done|done].
Qed.

Lemma loop_down_ext {S : Type} (k : nat) (body body' : Z -> S -> outcome S) :
  (forall i s, body i s = body' i s) ->
  forall (i : Z) (s : S), loop_down k i body s = loop_down k i body' s.
Proof.
  intros Hb. induction k as [|k IH]; intros i s; [done|].
  cbn [loop_down]. rewrite Hb. destruct (body' i s); cbn [bind]; [apply IH|done|done].
Qed.

Lemma resize_with_still (sched : Z -> list tid) (n : Z) (s : pool) :
  (forall i, sched i = []) -> resize_with sched n s = resize n s.
Proof.
  intros Hs. unfold resize_with, resize.
  destruct (negb (isStop s) && negb (isDone s)); [|done].
  destruct (size s <=? n).
  - destruct (threads_resize n s) as [s1| |]; cbn [bind]; [|done|done].
    destruct (flags_resize n s1) as [s2| |]; cbn [bind]; [|done|done].
    unfold for_up. apply loop_up_ext. intros i s0. rewrite Hs.
    by destruct (grow_body i s0).
  - unfold for_down.
    rewrite (loop_down_ext _ _ shrink_body); [done|].
    intros i s0. rewrite Hs. by destruct (shrink_body i s0).
Qed.

Lemma worker_step_starting (w w' : worker) (s s' : pool) :
  q s = [] -> isDone s = false -> load (w_flag w) s = false ->
  w_pc w = PInit \/ w_pc w = PPark \/ w_pc w = PWait ->
  worker_step w s = (w', s') ->
  q s' = [] /\ executed s' = executed s /\ freed s' = freed s /\
  (w_pc w' = PInit \/ w_pc w' = PPark \/ w_pc w' = PWait).
Proof.
  intros Hq Hd Hl Hpc. unfold worker_step.
  destruct Hpc as [Hpc|[Hpc|Hpc]]; rewrite Hpc, ?Hq, ?Hd, ?Hl; cbn;
    intros H; injection H as <- <-; cbn; rewrite ?Hpc; auto 10.
Qed.

Lemma starting_step (j k : nat) (t : tid) (s : pool) :
  starting j k s -> starting j k (step t s).
Proof.
  intros H. pose proof H as (Ht & Hf & Hh & Hq & Hd & Hs & He & Hfr & Hl & Hp).
  destruct (procs s !! t) as [w|] eqn:Hw; [|by rewrite step_none].
  destruct (Hp t w Hw) as (Hi & Hfl & Hj & Hpc).
  assert (load (w_flag w) s = false) as Hload.
  { unfold load. rewrite Hh, Hfl. apply lookup_lt_Some in Hw.
    by rewrite lookup_replicate_2 by lia. }
  destruct (step_unfold t s w Hw) as (w' & s1 & Hws & Hst).
  destruct (worker_step_frame _ _ _ _ Hws) as (Ht1 & Hf1 & Hh1 & Hd1 & Hs1 & Hp1 & Hi' & Hfl' & Hj').
  destruct (worker_step_starting _ _ _ _ Hq Hd Hload Hpc Hws) as (Hq1 & He1 & Hfr1 & Hpc').
  rewrite Hst. unfold starting.
  cbn [threads flags q isDone isStop nWaiting heap procs executed freed set_procs].
  rewrite Ht1, Hf1, Hh1, Hd1, Hs1, Hq1, He1, Hfr1, length_insert.
  do 9 (split; [done|]).
  intros t' w0 Hw0. destruct (decide (t' = t)) as [->|Hne].
  - rewrite list_lookup_insert_eq in Hw0 by (by eapply lookup_lt_Some).
    injection Hw0 as <-. rewrite Hi', Hfl', Hj'. done.
  - rewrite list_lookup_insert_ne in Hw0 by done. by apply Hp.
Qed.

Lemma starting_run (j k : nat) (sched : list tid) (s : pool) :
  starting j k s -> starting j k (run sched s).
Proof.
  revert s. induction sched as [|t sched IH]; intros s H; [done|].
  cbn [run fold_left]. apply IH. by apply starting_step.
Qed.

Lemma starting_grow (j k : nat) (s : pool) :
  starting j (S k) s ->
  exists s', grow_body (Z.of_nat j) s = Ret s' /\ starting (S j) k s' /\
             nWaiting s' = nWaiting s /\ parked (procs s') = parked (procs s).
Proof.
  intros (Ht & Hf & Hh & Hq & Hd & Hs & He & Hfr & Hl & Hp).
  assert (length (map Some (seq 0 j) : list (option nat)) = j) as Hlen
    by (by rewrite length_map, length_seq).
  cbn [replicate] in Ht, Hf.
  unfold grow_body, make_shared.
  cbn [flags set_heap]. rewrite Hf.
  rewrite vec_set_lookup by (rewrite length_app, Hlen; cbn; lia).
  cbn [bind]. unfold set_thread.
  cbn [flags threads procs set_flags set_heap set_procs heap].
  rewrite insert_middle by done.
  erewrite vec_at_lookup by (by apply list_lookup_middle).
  cbn [bind]. rewrite Ht.
  erewrite vec_at_lookup by (by apply list_lookup_middle).
  cbn [bind].
  rewrite vec_set_lookup by (rewrite length_app, Hlen; cbn; lia).
  cbn [bind destroy]. rewrite insert_middle by done.
  eexists. split; [done|].
  unfold starting.
  cbn [threads flags q isDone isStop nWaiting heap procs executed freed
       set_threads set_flags set_heap set_procs].
  rewrite Hh, Hl, length_replicate, !seq_S, !map_app, replicate_S_end, <- !app_assoc.
  cbn [map app Nat.add].
  split; [|split; [done|]].
  split; [done|]. split; [done|]. split; [done|].
  do 5 (split; [done|]).
  split; [rewrite length_app; cbn; lia|].
  - intros t w Hw. destruct (decide (t < j)%nat) as [Hlt|Hge].
    + rewrite lookup_app_l in Hw by lia. by apply Hp.
    + rewrite lookup_app_r in Hw by lia.
      destruct (t - length (procs s))%nat as [|m] eqn:Hm; [|done].
      injection Hw as <-. cbn. assert (t = j) as -> by lia. auto 10.
  - rewrite parked_app. cbn. lia.
Qed.

Lemma starting_loop (sched : Z -> list tid) (k : nat) : forall (j : nat) (s : pool),
  starting j k s -> nWaiting s = to_int (Z.of_nat (parked (procs s))) ->
  exists s',
    loop_up k (Z.of_nat j)
      (fun i s => let* s' := grow_body i s in Ret (run (sched i) s')) s = Ret s' /\
    starting (j + k) 0 s' /\
    nWaiting s' = to_int (Z.of_nat (parked (procs s'))).
Proof.
  induction k as [|k IH]; intros j s Hst Hn.
  - exists s. by rewrite Nat.add_0_r.
  - destruct (starting_grow j k s Hst) as (s1 & Hg & Hst1 & Hn1 & Hp1).
    cbn [loop_up]. rewrite Hg. cbn [bind].
    replace (Z.of_nat j + 1) with (Z.of_nat (S j)) by lia.
    destruct (IH (S j) (run (sched (Z.of_nat j)) s1)) as (s' & Hl & Hst' & Hn').
    + by apply starting_run.
    + apply run_idle. by rewrite Hn1, Hp1.
    + exists s'. split; [done|]. split; [|done].
      by replace (j + S k)%nat with (S j + k)%nat by lia.
Qed.

Lemma parked_le (ps : list worker) : (parked ps <= length ps)%nat.
Proof.
  unfold parked. rewrite <- (length_map w_pc ps). apply List.filter_length_le.
Qed.

Lemma starting_wf (n : nat) (s : pool) :
  Z.of_nat n <= INT_MAX -> starting n 0 s -> wf s.
Proof.
  intros Hmax (Ht & Hf & Hh & Hq & Hd & Hs & He & Hfr & Hl & Hp).
  cbn [replicate] in Ht, Hf. rewrite app_nil_r in Ht, Hf.
  split.
  - by rewrite Ht, Hf.
  - by rewrite Ht, length_map, length_seq.
  - rewrite Ht. apply NoDup_fmap_2; [apply _|apply NoDup_seq].
  - rewrite Hf. apply NoDup_fmap_2; [apply _|apply NoDup_seq].
  - by intros _.
  - intros i p Hi. rewrite Ht, list_lookup_fmap in Hi.
    destruct (seq 0 n !! i) as [x|] eqn:Hx; [|done].
    apply lookup_seq in Hx as [-> Hlt]. injection Hi as <-. cbn.
    destruct (lookup_lt_is_Some_2 (procs s) i) as [w Hw]; [lia|].
    destruct (Hp i w Hw) as (Hwi & Hwf & Hwj & Hpc).
    exists i, w. split; [done|]. split; [done|]. split; [done|]. split; [done|].
    split; [by rewrite Hf, list_lookup_fmap, lookup_seq_lt, Hwf by lia|].
    split; [by rewrite Hh, Hwf, lookup_replicate_2 by lia|].
    destruct Hpc as [->|[->| ->]]; done.
Qed.

Lemma steps_taken_insert (ps : list worker) : forall (t : tid) (w w' : worker),
  ps !! t = Some w ->
  (steps_taken (<[t := w']> ps) + started_steps (w_pc w)
   = steps_taken ps + started_steps (w_pc w'))%nat.
Proof.
  induction ps as [|p ps IH]; intros [|t] w w' H; try done.
  - injection H as ->. cbn. lia.
  - cbn in H. cbn [steps_taken foldr] in *. specialize (IH t w w' H).
    change (<[S t:=w']> (p :: ps)) with (p :: <[t:=w']> ps).
    unfold steps_taken in *. cbn [foldr]. lia.
Qed.

Lemma steps_taken_pos (ps : list worker) :
  steps_taken ps <> 0%nat ->
  exists (t : tid) (w : worker), ps !! t = Some w /\ started_steps (w_pc w) <> 0%nat.
Proof.
  induction ps as [|p ps IH]; [done|]. cbn [steps_taken foldr]. intros H.
  destruct (decide (started_steps (w_pc p) = 0%nat)) as [H0|H0].
  - destruct IH as (t & w & Hw & Hne); [unfold steps_taken; lia|].
    by exists (S t), w.
  - by exists 0%nat, p.
Qed.

Lemma steps_taken_0 (ps : list worker) :
  steps_taken ps = 0%nat ->
  forall (t : tid) (w : worker), ps !! t = Some w -> started_steps (w_pc w) = 0%nat.
Proof.
  induction ps as [|p ps IH]; [done|]. cbn [steps_taken foldr]. intros H [|t] w Hw.
  - injection Hw as <-. lia.
  - apply (IH ltac:(unfold steps_taken; lia) t w Hw).
Qed.

Lemma pool_eq (s s' : pool) :
  threads s = threads s' -> flags s = flags s' -> q s = q s' ->
  isDone s = isDone s' -> isStop s = isStop s' -> nWaiting s = nWaiting s' ->
  heap s = heap s' -> procs s = procs s' -> executed s = executed s' ->
  freed s = freed s' -> s = s'.
Proof. destruct s, s'; cbn; intros; by subst. Qed.

Lemma set_pc_same (w : worker) : set_pc (w_pc w) w = w.
Proof. by destruct w. Qed.

Lemma starting_reachable (m : nat) : forall (n : nat) (s : pool),
  Z.of_nat n <= INT_MAX -> starting n 0 s ->
  nWaiting s = to_int (Z.of_nat (parked (procs s))) ->
  steps_taken (procs s) = m -> reachable s.
Proof.
  induction m as [|m IH]; intros n s Hmax Hst Hn Hm.
  - destruct Hst as (Ht & Hf & Hh & Hq & Hd & Hs & He & Hfr & Hl & Hp).
    assert (procs s = map (spawned init) (seq 0 n)) as Hprocs.
    { apply list_eq. intros i. rewrite list_lookup_fmap.
      destruct (decide (i < n)%nat) as [Hlt|Hge].
      - rewrite lookup_seq_lt by done. cbn.
        destruct (lookup_lt_is_Some_2 (procs s) i) as [w Hw]; [lia|].
        destruct (Hp i w Hw) as (Hwi & Hwf & Hwj & Hpc).
        pose proof (steps_taken_0 _ Hm i w Hw) as H0.
        rewrite Hw. f_equal. destruct w as [wi wf wp wj]; cbn in *. subst.
        f_equal. by destruct Hpc as [->|[->| ->]].
      - rewrite lookup_ge_None_2 by lia.
        by rewrite lookup_ge_None_2 by (rewrite length_seq; lia). }
    assert (s = grown n init) as ->.
    { cbn [replicate] in Ht, Hf. rewrite app_nil_r in Ht, Hf.
      apply pool_eq; unfold grown, growing;
        cbn [threads flags q isDone isStop nWaiting heap procs executed freed init
             app length replicate]; rewrite ?app_nil_r; try done.
      rewrite Hn, Hprocs, parked_spawned. done. }
    apply (reach_resize (Z.of_nat n) init); [apply reach_init|lia|].
    rewrite resize_grow; [|done|by cbn|by split|cbn; lia].
    cbn [threads init length]. by rewrite Nat.sub_0_r, Nat2Z.id.
  - destruct (steps_taken_pos (procs s)) as (t & w & Hw & Hne); [lia|].
    pose proof Hst as (Ht & Hf & Hh & Hq & Hd & Hs & He & Hfr & Hl & Hp).
    destruct (Hp t w Hw) as (Hwi & Hwf & Hwj & Hpc).
    pose proof (lookup_lt_Some _ _ _ Hw) as Hlt.
    assert (exists p0 : pc,
               (p0 = PInit /\ w_pc w = PPark \/ p0 = PPark /\ w_pc w = PWait))
      as (p0 & Hp0).
    { destruct Hpc as [Hpc|[Hpc|Hpc]]; [by rewrite Hpc in Hne|eauto|eauto]. }
    set (ps0 := <[t := set_pc p0 w]> (procs s)).
    set (s0 := set_nWaiting (to_int (Z.of_nat (parked ps0))) (set_procs ps0 s)).
    assert (step t s0 = s) as Hstep.
    { unfold step. cbn [procs s0 set_nWaiting set_procs]. unfold ps0 at 1.
      rewrite list_lookup_insert_eq by done. unfold worker_step.
      destruct (parked_insert (procs s) t w (set_pc p0 w) Hw) as (A & HA & HA').
      fold ps0 in HA'.
      destruct Hp0 as [[-> Hpw]|[-> Hpw]]; rewrite Hpw in HA;
        cbn [w_pc set_pc is_parked] in *.
      - cbn [q s0 set_nWaiting set_procs]. rewrite Hq. cbn.
        apply pool_eq; cbn; try done.
        + rewrite Hn. f_equal. f_equal. lia.
        + unfold ps0. rewrite list_insert_insert_eq, <- Hpw.
          change (set_pc (w_pc w) (set_pc _ w)) with (set_pc (w_pc w) w).
          by rewrite set_pc_same, list_insert_id.
      - apply pool_eq; cbn; try done.
        + rewrite to_int_add, Hn. f_equal. lia.
        + unfold ps0. rewrite list_insert_insert_eq, <- Hpw.
          change (set_pc (w_pc w) (set_pc _ w)) with (set_pc (w_pc w) w).
          by rewrite set_pc_same, list_insert_id. }
    rewrite <- Hstep. apply reach_step. apply (IH n); [done| |done|].
    + unfold starting, s0.
      cbn [threads flags q isDone isStop nWaiting heap procs executed freed
           set_nWaiting set_procs].
      do 8 (split; [done|]). split; [unfold ps0; by rewrite length_insert|].
      intros t' w' Hw'. unfold ps0 in Hw'.
      destruct (decide (t' = t)) as [->|Hne'].
      * rewrite list_lookup_insert_eq in Hw' by done. injection Hw' as <-.
        cbn. do 3 (split; [done|]).
        destruct Hp0 as [[-> _]|[-> _]]; auto.
      * rewrite list_lookup_insert_ne in Hw' by done. by apply Hp.
    + cbn [procs s0 set_nWaiting set_procs].
      pose proof (steps_taken_insert (procs s) t w (set_pc p0 w) Hw) as Hins.
      fold ps0 in Hins.
      destruct Hp0 as [[-> Hpw]|[-> Hpw]]; rewrite Hpw in Hins; cbn in Hins; lia.
Qed.

Lemma thread_pool_loop (sched : Z -> list tid) (n : Z) :
  0 <= n ->
  thread_pool sched n
  = loop_up (Z.to_nat n) 0
      (fun i s => let* s' := grow_body i s in Ret (run (sched i) s'))
      (set_flags (replicate (Z.to_nat n) None)
         (set_threads (replicate (Z.to_nat n) None) init)).
Proof.
  intros Hn. unfold thread_pool, resize_with.
  change (size init) with 0. cbn [init isStop isDone negb andb].
  destruct (Z.leb_spec 0 n) as [_|]; [|lia].
  unfold threads_resize, flags_resize, vec_resize.
  destruct (Z.ltb_spec n 0) as [|_]; [lia|].
  change (threads init) with (@nil (option nat)).
  rewrite drop_nil, take_nil. cbn [destroy_all bind app length].
  change (flags (set_threads _ init)) with (@nil (option nat)).
  rewrite take_nil. cbn [app length].
  unfold for_up. by rewrite !Nat.sub_0_r, Z.sub_0_r.
Qed.

(** X4. [thread_pool(n)] with [0 <= n <= INT_MAX] returns, whatever
    steps the threads it starts take while it runs, a running, well-formed
    pool with [size() == n], an empty queue, no call made and nothing
    deleted: a pool that [resize] in one piece and steps of the workers
    reach as well. [n_idle()] is then the number of threads that have got
    as far as [cv.wait], between [0] and [n], and [0] if no thread has
    moved yet. Slot [i] holds a joinable thread that runs the lambda for
    index [i], reads its stop flag as unset and is on its way to its
    first wait or in it. [thread_pool()] is the case [n = 0]. *)
Theorem thread_pool_starts_n_workers (sched : Z -> list tid) (n : Z) :
  0 <= n <= INT_MAX ->
  exists s, thread_pool sched n = Ret s /\
    reachable s /\ wf s /\ running s /\
    size s = n /\ q s = [] /\ executed s = [] /\ freed s = [] /\
    n_idle s = Z.of_nat (parked (procs s)) /\ 0 <= n_idle s <= n /\
    ((forall i, sched i = []) -> n_idle s = 0 /\ resize n init = Ret s) /\
    (n = 0 -> s = init) /\
    forall i : Z, 0 <= i < n ->
      exists (t : tid) (w : worker),
        get_thread i s = Ret t /\ procs s !! t = Some w /\
        w_i w = i /\ w_joinable w = true /\ load (w_flag w) s = false /\
        (w_pc w = PInit \/ w_pc w = PPark \/ w_pc w = PWait).
Proof.
  intros Hn. rewrite thread_pool_loop by lia.
  destruct (starting_loop sched (Z.to_nat n) 0
              (set_flags (replicate (Z.to_nat n) None)
                 (set_threads (replicate (Z.to_nat n) None) init)))
    as (s & Hl & Hst & Hnw); [by repeat split|done|].
  change (Z.of_nat 0) with 0 in Hl. cbn [Nat.add] in Hst.
  exists s. split; [done|].
  pose proof Hst as (Ht & Hf & Hh & Hq & Hd & Hs & He & Hfr & Hlen & Hp).
  cbn [replicate] in Ht, Hf. rewrite app_nil_r in Ht, Hf.
  pose proof (parked_le (procs s)) as Hle.
  assert (nWaiting s = Z.of_nat (parked (procs s))) as Hidle
    by (rewrite Hnw; apply to_int_small; lia).
  split; [apply (starting_reachable (steps_taken (procs s)) (Z.to_nat n) s); [lia|done..]|].
  split; [apply (starting_wf (Z.to_nat n)); [lia|done]|].
  split; [by split|].
  split; [unfold size; rewrite Ht, length_map, length_seq, to_int_small; lia|].
  do 3 (split; [done|]). split; [done|].
  split; [unfold n_idle; lia|].
  split.
  { intros Hstill.
    assert (thread_pool sched n = Ret s) as Htp by (by rewrite thread_pool_loop by lia).
    unfold thread_pool in Htp. rewrite resize_with_still in Htp by done.
    split; [|done].
    rewrite resize_grow in Htp; [|done|by cbn|by split|cbn; lia].
    by injection Htp as <-. }
  split.
  { intros ->. cbn in Hl. by injection Hl as <-. }
  intros i Hi.
  destruct (lookup_lt_is_Some_2 (procs s) (Z.to_nat i)) as [w Hw]; [lia|].
  destruct (Hp _ w Hw) as (Hwi & Hwf & Hwj & Hpc).
  exists (Z.to_nat i), w.
  split.
  { rewrite <- (Z2Nat.id i) at 1 by lia. apply get_thread_lookup.
    by rewrite Ht, list_lookup_fmap, lookup_seq_lt by lia. }
  split; [done|]. split; [lia|]. split; [done|]. split; [|done].
  unfold load. by rewrite Hh, Hwf, lookup_replicate_2 by lia.
Qed.

Lemma thread_pool_starts_n_workers_witness :
  exists s, thread_pool (fun i => [Z.to_nat i; 0%nat]) 3 = Ret s /\
    reachable s /\ wf s /\ running s /\
    size s = 3 /\ q s = [] /\ executed s = [] /\ freed s = [] /\
    n_idle s = Z.of_nat (parked (procs s)) /\ 0 <= n_idle s <= 3 /\
    ((forall i : Z, [Z.to_nat i; 0%nat] = []) -> n_idle s = 0 /\ resize 3 init = Ret s) /\
    (3 = 0 -> s = init) /\
    forall i : Z, 0 <= i < 3 ->
      exists (t : tid) (w : worker),
        get_thread i s = Ret t /\ procs s !! t = Some w /\
        w_i w = i /\ w_joinable w = true /\ load (w_flag w) s = false /\
        (w_pc w = PInit \/ w_pc w = PPark \/ w_pc w = PWait).
Proof.
  apply (thread_pool_starts_n_workers (fun i => [Z.to_nat i; 0%nat]) 3).
  unfold INT_MAX. lia.
Defined.

(** ** A worker that is told to leave does leave *)




Lemma steps_to_retire_mono (p : pc) (n m : nat) :
  (n <= m)%nat -> (steps_to_retire p n <= steps_to_retire p m)%nat.
Proof. intros H. destruct p as [| | | | | |[|]|]; cbn; lia. Qed.

Lemma steps_to_retire_0 (p : pc) (n : nat) :
  steps_to_retire p n = 0%nat -> p = PRetired.
Proof. destruct p as [| | | | | |[|]|]; cbn; try done; lia. Qed.

Lemma turns_cons (t t' : tid) (sched : list tid) :
  turns t (t' :: sched) = ((if decide (t' = t) then 1 else 0) + turns t sched)%nat.
Proof.
  unfold turns. cbn [List.filter].
  destruct (Nat.eqb_spec t t'), (decide (t' = t)); cbn; congruence.
Qed.




(** ** [stop] returns: the wake-up reaches every worker *)

Lemma step_cv_asleep (t : tid) (a : list tid) (s : pool) :
  t ∈ a -> step_cv t (a, s) = (a, s).
Proof. intros H. unfold step_cv. by rewrite bool_decide_true. Qed.

Lemma step_cv_awake (t : tid) (a : list tid) (s : pool) :
  t ∉ a ->
  exists a', step_cv t (a, s) = (a', step t s) /\ (a' = a \/ a' = t :: a).
Proof.
  intros H. unfold step_cv. rewrite bool_decide_false by done. cbn zeta.
  destruct (procs s !! t) as [w|]; [|eauto].
  destruct (procs (step t s) !! t) as [w'|]; [|eauto].
  destruct (is_wait (w_pc w) && is_wait (w_pc w')); eauto.
Qed.

Lemma worker_step_wakes (w : worker) (s : pool) :
  isDone s = true \/ load (w_flag w) s = true ->
  is_wait (w_pc w) && is_wait (w_pc (worker_step w s).1) = false.
Proof.
  intros Hor. unfold worker_step.
  destruct (w_pc w) as [|f|f|f| | |[f|]|] eqn:Hpc; try done.
  cbn [is_wait andb]. destruct (q s) as [|g q']; cbn; [|done].
  assert (isDone s || load (w_flag w) s = true) as ->; [|done].
  destruct Hor as [-> | ->]; [done|apply orb_true_r].
Qed.

Lemma step_cv_signalled (t : tid) (a : list tid) (s : pool) (w : worker) :
  t ∉ a -> procs s !! t = Some w ->
  isDone s = true \/ load (w_flag w) s = true ->
  step_cv t (a, s) = (a, step t s).
Proof.
  intros Hin Hw Hor. unfold step_cv. rewrite bool_decide_false by done. cbn zeta.
  rewrite step_lookup, Hw, decide_True by done.
  by rewrite worker_step_wakes.
Qed.

Lemma run_cv_cons (t : tid) (sched : list tid) (c : list tid * pool) :
  run_cv (t :: sched) c = run_cv sched (step_cv t c).
Proof. done. Qed.

Lemma run_cv_loose (sched : list tid) : forall (a : list tid) (s : pool),
  exists sched', snd (run_cv sched (a, s)) = run sched' s.
Proof.
  induction sched as [|t sched IH]; intros a s; [by exists []|].
  rewrite run_cv_cons. destruct (decide (t ∈ a)) as [Hin|Hin].
  - rewrite step_cv_asleep by done. apply IH.
  - destruct (step_cv_awake t a s Hin) as (a' & -> & _).
    destruct (IH a' (step t s)) as (sched' & ->). by exists (t :: sched').
Qed.

Lemma run_cv_asleep (sched : list tid) : forall (a : list tid) (s : pool) (t : tid),
  t ∈ a -> procs (snd (run_cv sched (a, s))) !! t = procs s !! t.
Proof.
  induction sched as [|t' sched IH]; intros a s t Ht; [done|].
  rewrite run_cv_cons. destruct (decide (t' ∈ a)) as [Hin|Hin].
  - rewrite step_cv_asleep by done. by apply IH.
  - destruct (step_cv_awake t' a s Hin) as (a' & -> & Ha').
    rewrite IH by (destruct Ha' as [-> | ->]; [done|by right]).
    rewrite step_lookup. destruct (procs s !! t) as [w|]; [|done].
    rewrite decide_False; [done|]. by intros ->.
Qed.

Lemma fair_retires_cv (t : tid) (sched : list tid) :
  forall (a : list tid) (s : pool) (w : worker),
  procs s !! t = Some w -> t ∉ a ->
  isDone s = true \/ load (w_flag w) s = true ->
  (steps_to_retire (w_pc w) (length (q s)) <= turns t sched)%nat ->
  exists w', procs (snd (run_cv sched (a, s))) !! t = Some w' /\ w_pc w' = PRetired.
Proof.
  induction sched as [|t' sched IH]; intros a s w Hw Hin Hor Hle.
  - exists w. split; [done|]. apply (steps_to_retire_0 _ (length (q s))). cbn in Hle. lia.
  - rewrite run_cv_cons. rewrite turns_cons in Hle.
    destruct (step_frame t' s) as (_ & _ & Hh & Hd & _ & _).
    pose proof (step_lookup t' t s) as Hlk. rewrite Hw in Hlk.
    destruct (decide (t = t')) as [<-|Hne].
    + rewrite decide_True in Hle by done.
      rewrite (step_cv_signalled t a s w) by done.
      destruct (step_unfold t s w Hw) as (w1 & s1 & Hws & Hst).
      rewrite Hws in Hlk. cbn [fst] in Hlk.
      apply (IH a (step t s) w1); [done|done| |].
      * destruct (worker_step_frame _ _ _ _ Hws) as (_ & _ & _ & _ & _ & _ & _ & Hfl & _).
        unfold load in *. rewrite Hh, Hd, Hfl. done.
      * destruct (worker_step_progress _ _ _ _ Hor Hws) as [Hlt| ->]; [|cbn; lia].
        rewrite Hst. cbn [q set_procs]. lia.
    + rewrite decide_False in Hle by done.
      destruct (decide (t' ∈ a)) as [Hin'|Hin'].
      * rewrite step_cv_asleep by done. by apply (IH a s w).
      * destruct (step_cv_awake t' a s Hin') as (a' & -> & Ha').
        apply (IH a' (step t' s) w); [done| | |].
        -- destruct Ha' as [-> | ->]; [done|]. by apply not_elem_of_cons.
        -- unfold load in *. by rewrite Hh, Hd.
        -- pose proof (steps_to_retire_mono (w_pc w) _ _ (step_q_length t' s)). lia.
Qed.

Lemma stop_join_cv_eq (sched : list tid) (c : list tid * pool) :
  stop_join_cv sched c
  = let c1 := run_cv sched (notify_all c) in
    let* s' := stop_join [] (snd c1) in Ret (fst c1, s').
Proof.
  unfold stop_join_cv, stop_join. cbn [run fold_left]. cbn zeta.
  destruct (for_up _ _ join _) as [s2| |]; cbn [bind]; [|done|done].
  by destruct (destroy_all _ _).
Qed.

Lemma store_all (s : pool) :
  wf s ->
  for_up 0 (size (set_isStop true s)) (fun i s => store_flag i true s) (set_isStop true s)
  = Ret (set_heap (foldr mark1 (heap s) (reverse (flags s))) (set_isStop true s)).
Proof.
  intros Hwf. unfold size, for_up.
  cbn [threads set_isStop]. rewrite to_int_small by (pose proof (wf_max s Hwf); lia).
  rewrite Z.sub_0_r, Nat2Z.id.
  change 0 with (Z.of_nat 0). rewrite store_loop; cycle 1.
  { intros j Hj. cbn [flags set_isStop].
    destruct (lookup_lt_is_Some_2 (threads s) j) as [p Hp]; [lia|].
    destruct (wf_slot s Hwf j p Hp) as (t & w & _ & _ & _ & _ & Hf & _). eauto. }
  cbn [flags set_isStop heap]. rewrite drop_0.
  rewrite <- (wf_len s Hwf), firstn_all. reflexivity.
Qed.

Lemma stop_join_cv_returns (sched a : list tid) (s : pool) :
  NoDup (threads s) ->
  Z.of_nat (length (threads s)) <= INT_MAX ->
  (forall (j : nat) (p : option tid), threads s !! j = Some p ->
     exists t w, p = Some t /\ procs s !! t = Some w /\
                 (isDone s = true \/ load (w_flag w) s = true) /\
                 (6 * length (q s) + 7 <= turns t sched)%nat) ->
  exists (a' sched' : list tid),
    stop_join_cv sched (a, s) = Ret (a', joined (run sched' s)) /\
    stop_join sched' s = Ret (joined (run sched' s)).
Proof.
  intros Hnd Hmax Hslots. rewrite stop_join_cv_eq. cbn zeta.
  unfold notify_all. cbn [snd].
  destruct (run_cv_loose sched [] s) as (sched' & Hs').
  assert (stop_join sched' s = Ret (joined (run sched' s))) as Hj.
  { apply stop_join_returns; [done|done|].
    intros j p Hp. destruct (Hslots j p Hp) as (t & w & -> & Hw & Hor & Hle).
    destruct (fair_retires_cv t sched [] s w Hw) as (w' & Hw' & Hpc);
      [apply not_elem_of_nil|done| |].
    - pose proof (steps_to_retire_le (w_pc w) (length (q s))). lia.
    - rewrite Hs' in Hw'. eauto. }
  exists (fst (run_cv sched ([], s))), sched'. split; [|done].
  rewrite Hs'. change (stop_join [] (run sched' s)) with (stop_join sched' s).
  by rewrite Hj.
Qed.

(** X11. [stop] returns whenever the workers get to run, also when a
    thread blocked in [cv.wait] moves only once it is notified. On every
    well-formed pool, whatever threads are blocked when [stop] is called
    and whatever the workers do before the wake-up, [stop] in either mode
    returns under every schedule that, after [notify_all], gives each
    managed worker at least [6 * n + 7] steps when draining ([n] tasks
    queued) and [7] steps when stopping at once. The pool it returns
    manages no thread, is well formed, and is one that [stop] returns
    when wake-ups are free. Without the [notify_all] a blocked worker
    would stay where it is: no schedule moves a thread that is asleep. *)
Theorem stop_returns_when_workers_run
  (pre sched asleep : list tid) (isWait : bool) (s : pool) :
  wf s ->
  (forall t : tid, t ∈ managed s ->
     ((if isWait then 6 * length (q s) + 7 else 7) <= turns t sched)%nat) ->
  (exists c' : list tid * pool,
      stop_cv pre sched isWait (asleep, s) = Ret c' /\
      threads (snd c') = [] /\ wf (snd c') /\
      exists pre' sched' : list tid, stop pre' sched' isWait s = Ret (snd c')) /\
  forall (sched' : list tid) (t : tid),
    t ∈ asleep -> procs (snd (run_cv sched' (asleep, s))) !! t = procs s !! t.
Proof.
  intros Hwf Hfair. split; [|intros sched' t Ht; by apply run_cv_asleep].
  unfold stop_cv. destruct isWait; cbn [negb].
  - destruct (isDone s || isStop s) eqn:Hds.
    + exists (asleep, s). split; [done|]. cbn [snd].
      split; [by apply wf_not_running|]. split; [done|].
      exists [], []. unfold stop. cbn [negb]. by rewrite Hds.
    + apply orb_false_elim in Hds as [Hd Hs].
      destruct (run_cv pre (asleep, set_isDone true s)) as [a1 s1] eqn:Hc.
      destruct (run_cv_loose pre asleep (set_isDone true s)) as (pre' & Hpre).
      rewrite Hc in Hpre. cbn [snd] in Hpre. subst s1.
      destruct (run_frame pre' (set_isDone true s)) as (Ht & _ & _ & Hd' & _ & Hp).
      cbn [threads isDone set_isDone] in Ht, Hd'.
      destruct (stop_join_cv_returns sched a1 (run pre' (set_isDone true s)))
        as (a' & sched' & Hr & Hl).
      { rewrite Ht. apply Hwf. }
      { rewrite Ht. apply Hwf. }
      { intros j p Hj. rewrite Ht in Hj.
        destruct (wf_slot s Hwf j p Hj) as (t & w & -> & Hw & _).
        destruct (Hp t w Hw) as (w' & Hw' & _).
        exists t, w'. split; [done|]. split; [done|]. split; [by left|].
        pose proof (run_q_length pre' (set_isDone true s)) as Hq.
        cbn [q set_isDone] in Hq.
        assert (t ∈ managed s) as Hin
          by (by eapply elem_of_managed, list_elem_of_lookup_2).
        specialize (Hfair t Hin). cbn in Hfair. lia. }
      rewrite Hr. eexists. split; [done|]. cbn [snd].
      destruct (joined_fields (run sched' (run pre' (set_isDone true s))))
        as (Htj & Hfj & _).
      split; [done|]. split; [by apply wf_nil|].
      exists [], (pre' ++ sched').
      rewrite stop_drain_unfold by done. rewrite <- Hl.
      unfold stop_join. by rewrite run_app.
  - destruct (isStop s) eqn:Hs.
    + exists (asleep, s). split; [done|]. cbn [snd].
      split; [apply wf_not_running; [done|by rewrite Hs, orb_true_r]|].
      split; [done|].
      exists [], []. unfold stop. cbn [negb]. by rewrite Hs.
    + rewrite store_all by done. cbn [bind].
      set (s2 := set_heap (foldr mark1 (heap s) (reverse (flags s))) (set_isStop true s)).
      destruct (run_cv pre (asleep, s2)) as [a3 s3] eqn:Hc.
      destruct (run_cv_loose pre asleep s2) as (pre' & Hpre).
      rewrite Hc in Hpre. cbn [snd] in Hpre. subst s3.
      destruct (run_frame pre' s2) as (Ht & _ & Hh & _ & _ & Hp).
      destruct (clear_queue_fields (run pre' s2))
        as (Ht3 & _ & Hq3 & _ & _ & Hh3 & Hp3 & _).
      destruct (stop_join_cv_returns sched a3 (clear_queue (run pre' s2)))
        as (a' & sched' & Hr & Hl).
      { rewrite Ht3, Ht. apply Hwf. }
      { rewrite Ht3, Ht. apply Hwf. }
      { intros j p Hj. rewrite Ht3, Ht in Hj.
        destruct (wf_slot s Hwf j p Hj) as (t & w & -> & Hw & _ & _ & Hfl & Hhp & _).
        destruct (Hp t w Hw) as (w' & Hw' & (_ & Hfl' & _) & _).
        exists t, w'. split; [done|]. split; [by rewrite Hp3|].
        split.
        - right. unfold load. rewrite Hh3, Hh, Hfl'. subst s2. cbn [heap set_heap].
          rewrite mark_lookup_in; [done| |by apply lookup_lt_Some in Hhp].
          apply elem_of_reverse. by eapply list_elem_of_lookup_2.
        - rewrite Hq3. cbn [length].
          assert (t ∈ managed s) as Hin
            by (by eapply elem_of_managed, list_elem_of_lookup_2).
          specialize (Hfair t Hin). cbn in Hfair. lia. }
      rewrite Hr. eexists. split; [done|]. cbn [snd].
      destruct (joined_fields (run sched' (clear_queue (run pre' s2))))
        as (Htj & Hfj & _).
      split; [done|]. split; [by apply wf_nil|].
      exists pre', sched'.
      by rewrite stop_immediate_unfold by done.
Qed.

Lemma stop_returns_when_workers_run_witness :
  (exists c' : list tid * pool,
      stop_cv [] (concat (replicate 7 [0; 1]%nat)) true
        ([1; 0]%nat, run [0; 0; 1; 1]%nat (grown 2 init)) = Ret c' /\
      threads (snd c') = [] /\ wf (snd c') /\
      exists pre' sched' : list tid,
        stop pre' sched' true (run [0; 0; 1; 1]%nat (grown 2 init)) = Ret (snd c')) /\
  forall (sched' : list tid) (t : tid),
    t ∈ [1; 0]%nat ->
    procs (snd (run_cv sched' ([1; 0]%nat, run [0; 0; 1; 1]%nat (grown 2 init)))) !! t
    = procs (run [0; 0; 1; 1]%nat (grown 2 init)) !! t.
Proof.
  apply (stop_returns_when_workers_run [] (concat (replicate 7 [0; 1]%nat)) [1; 0]%nat
           true (run [0; 0; 1; 1]%nat (grown 2 init))).
  - apply run_wf, grown_wf; [apply init_wf|split; reflexivity|unfold INT_MAX; simpl; lia].
  - intros t Ht. vm_compute in Ht.
    apply elem_of_cons in Ht as [->|Ht]; [vm_compute; lia|].
    apply elem_of_cons in Ht as [->|Ht]; [vm_compute; lia|].
    by apply elem_of_nil in Ht.
Defined.
